(** * KVideo-config: the API health-check scripts

    A shallow embedding of the three health-check scripts of the repository
    ([check_api.js] and two sibling variants of it) and the properties of
    their history window, classifier, prober, scheduler and report block. *)

From Stdlib Require Import ZArith Lia DecimalString.
From Stdlib Require Import Ascii Sorted.
From stdpp Require Import base list strings.

#[local] Set Warnings "-register-all".


(** ** Data model *)

(** One probe outcome as the scripts store it in a day's [results] array.
    [check_api.js] writes [{ name, api, success, searchStatus }], the first
    sibling variant writes [{ api, success, searchStatus }]: [r_name] is
    [None] where the property is absent. *)
Record Result := mkResult {
  r_name : option string;
  r_api : string;
  r_success : bool;
  r_searchStatus : string
}.

(** [{ date, results }], one per run. *)
Record Day := mkDay {
  date : string;
  results : list Result
}.

(** [history]: the days, oldest first. *)
Abbreviation History := (list Day).

(** The four status glyphs of the report table. *)
Inductive Status := CRITICAL | DOWN | HEALTHY | DISABLED.

(** [day.results.find(x => x.api === api)]: the first outcome recorded
    under that URL, [None] for JavaScript's [undefined]. *)
Definition find_api (api : string) (rs : list Result) : option Result :=
  List.find (fun x => String.eqb (r_api x) api) rs.

(** [latest?.success] used as a condition. *)
Definition opt_success (latest : option Result) : bool :=
  match latest with
  | Some r => r_success r
  | None => false
  end.

(** ** JavaScript values and the library functions the scripts call

    Strings are the UTF-8 text of the files the scripts read and write.
    JSON values are modelled without numbers: the history records hold
    strings, booleans, arrays and objects only, and of a response the
    scripts look at its strings, arrays and objects. Object fields are kept
    in insertion order. *)
Module JS.

Definition LF : ascii := "010"%char.
Definition DQUOTE : ascii := "034"%char.
Definition BACKSLASH : ascii := "\"%char.

Inductive json :=
| JNull
| JBool (b : bool)
| JStr (s : string)
| JArr (items : list json)
| JObj (fields : list (string * json)).

(** The text after the prefix [p] of [s], when [s] starts with [p]. *)
Fixpoint strip_prefix (p s : string) : option string :=
  match p with
  | EmptyString => Some s
  | String a p' =>
    match s with
    | EmptyString => None
    | String b s' => if Ascii.eqb a b then strip_prefix p' s' else None
    end
  end.

Definition starts_with (s p : string) : bool :=
  match strip_prefix p s with
  | Some _ => true
  | None => false
  end.

(** [s.includes(k)] *)
Fixpoint includes (s k : string) : bool :=
  starts_with s k ||
  match s with
  | EmptyString => false
  | String _ s' => includes s' k
  end.

(** A value used as a condition; [None] is [undefined]. *)
Definition truthy (v : option json) : bool :=
  match v with
  | None | Some JNull => false
  | Some (JBool b) => b
  | Some (JStr s) => negb (String.eqb s "")
  | Some (JArr _) | Some (JObj _) => true
  end.

(** [typeof v === "object"] *)
Definition typeof_object (v : json) : bool :=
  match v with
  | JNull | JArr _ | JObj _ => true
  | JBool _ | JStr _ => false
  end.

Definition obj_get (k : string) (fields : list (string * json)) : option json :=
  match List.find (fun kv => String.eqb (fst kv) k) fields with
  | Some kv => Some (snd kv)
  | None => None
  end.

(** Defining a property: a key that is already present keeps its place. *)
Fixpoint obj_set (k : string) (v : json) (fields : list (string * json))
    : list (string * json) :=
  match fields with
  | [] => [(k, v)]
  | (k', v') :: fs =>
    if String.eqb k' k then (k', v) :: fs else (k', v') :: obj_set k v fs
  end.

(** [v.k] for a name [k] that strings, arrays and booleans do not have
    ([list], [vod_name]); reading it from [null] is a [TypeError], which
    the callers rule out first. *)
Definition prop (k : string) (v : json) : option json :=
  match v with
  | JObj fields => obj_get k fields
  | _ => None
  end.

(** *** [JSON.stringify] *)

Definition hex_digit (n : N) : ascii :=
  match n with
  | 0 => "0" | 1 => "1" | 2 => "2" | 3 => "3" | 4 => "4" | 5 => "5"
  | 6 => "6" | 7 => "7" | 8 => "8" | 9 => "9" | 10 => "a" | 11 => "b"
  | 12 => "c" | 13 => "d" | 14 => "e" | _ => "f"
  end%N%char.

Definition str1 (c : ascii) : string := String c EmptyString.
Definition str2 (c d : ascii) : string := String c (String d EmptyString).

(** [QuoteJSONString], one character. *)
Definition escape_char (c : ascii) : string :=
  if Ascii.eqb c DQUOTE then str2 BACKSLASH DQUOTE
  else if Ascii.eqb c BACKSLASH then str2 BACKSLASH BACKSLASH
  else
    match N_of_ascii c with
    | 8 => str2 BACKSLASH "b"
    | 9 => str2 BACKSLASH "t"
    | 10 => str2 BACKSLASH "n"
    | 12 => str2 BACKSLASH "f"
    | 13 => str2 BACKSLASH "r"
    | n =>
      if (n <? 32)%N
      then String BACKSLASH
             (String "u" (String "0" (String "0"
               (str2 (hex_digit (n / 16)) (hex_digit (n mod 16))))))
      else str1 c
    end%N.

Fixpoint escape (s : string) : string :=
  match s with
  | EmptyString => EmptyString
  | String c s' => escape_char c +:+ escape s'
  end.

Definition quote (s : string) : string :=
  String DQUOTE (escape s +:+ str1 DQUOTE).

Fixpoint join (sep : string) (parts : list string) : string :=
  match parts with
  | [] => EmptyString
  | [p] => p
  | p :: ps => p +:+ sep +:+ join sep ps
  end.

Definition is_empty (s : string) : bool :=
  match s with EmptyString => true | _ => false end.

(** The line break before an element: nothing without a gap. *)
Definition newline (gap indent : string) : string :=
  if is_empty gap then EmptyString else String LF indent.

Definition colon (gap : string) : string :=
  if is_empty gap then ":"%string else ": "%string.

(** [SerializeJSONProperty] with its [gap] and current [indent]. *)
Fixpoint serialize (gap indent : string) (v : json) : string :=
  match v with
  | JNull => "null"
  | JBool true => "true"
  | JBool false => "false"
  | JStr s => quote s
  | JArr items =>
    let inner := indent +:+ gap in
    match map (serialize gap inner) items with
    | [] => "[]"
    | parts =>
      "[" +:+ newline gap inner
          +:+ join ("," +:+ newline gap inner) parts
          +:+ newline gap indent +:+ "]"
    end
  | JObj fields =>
    let inner := indent +:+ gap in
    match map (fun kv => quote (fst kv) +:+ colon gap
                         +:+ serialize gap inner (snd kv)) fields with
    | [] => "{}"
    | parts =>
      "{" +:+ newline gap inner
          +:+ join ("," +:+ newline gap inner) parts
          +:+ newline gap indent +:+ "}"
    end
  end%string.

(** [JSON.stringify(v)] *)
Definition JSON_stringify (v : json) : string :=
  serialize EmptyString EmptyString v.

(** [JSON.stringify(v, null, 2)] *)
Definition JSON_stringify_2 (v : json) : string :=
  serialize "  " EmptyString v.

(** *** [JSON.parse] *)

Definition is_ws (c : ascii) : bool :=
  match N_of_ascii c with
  | 9 | 10 | 13 | 32 => true
  | _ => false
  end%N.

Fixpoint skip_ws (s : string) : string :=
  match s with
  | EmptyString => EmptyString
  | String c s' => if is_ws c then skip_ws s' else s
  end.

Definition hex_value (c : ascii) : option N :=
  let n := N_of_ascii c in
  if (48 <=? n)%N && (n <=? 57)%N then Some (n - 48)%N
  else if (97 <=? n)%N && (n <=? 102)%N then Some (n - 87)%N
  else if (65 <=? n)%N && (n <=? 70)%N then Some (n - 55)%N
  else None.

Definition hex4 (a b c d : ascii) : option N :=
  match hex_value a, hex_value b, hex_value c, hex_value d with
  | Some x, Some y, Some z, Some w => Some (((x * 16 + y) * 16 + z) * 16 + w)%N
  | _, _, _, _ => None
  end.

Definition byte (n : N) : ascii := ascii_of_N n.

(** The UTF-8 text of a code point. *)
Definition utf8 (cp : N) : string :=
  (if cp <? 128 then str1 (byte cp)
   else if cp <? 2048 then str2 (byte (192 + cp / 64)) (byte (128 + cp mod 64))
   else if cp <? 65536 then
     String (byte (224 + cp / 4096))
       (str2 (byte (128 + (cp / 64) mod 64)) (byte (128 + cp mod 64)))
   else
     String (byte (240 + cp / 262144))
       (String (byte (128 + (cp / 4096) mod 64))
         (str2 (byte (128 + (cp / 64) mod 64)) (byte (128 + cp mod 64)))))%N.

Definition simple_escape (e : ascii) : option ascii :=
  if Ascii.eqb e DQUOTE then Some DQUOTE
  else if Ascii.eqb e BACKSLASH then Some BACKSLASH
  else
    match e with
    | "/" => Some "/"
    | "b" => Some (byte 8)
    | "f" => Some (byte 12)
    | "n" => Some (byte 10)
    | "r" => Some (byte 13)
    | "t" => Some (byte 9)
    | _ => None
    end%char.

Definition is_high_surrogate (cp : N) : bool := (55296 <=? cp)%N && (cp <=? 56319)%N.
Definition is_low_surrogate (cp : N) : bool := (56320 <=? cp)%N && (cp <=? 57343)%N.

(** A low surrogate escape at the head of [s], with the text after it. *)
Definition low_surrogate_escape (s : string) : option (N * string) :=
  match s with
  | String b (String u (String h1 (String h2 (String h3 (String h4 rest))))) =>
    if Ascii.eqb b BACKSLASH && Ascii.eqb u "u" then
      match hex4 h1 h2 h3 h4 with
      | Some lo => if is_low_surrogate lo then Some (lo, rest) else None
      | None => None
      end
    else None
  | _ => None
  end.

Definition prepend (p : string) (r : option (string * string)) : option (string * string) :=
  match r with
  | Some (str, rest) => Some (p +:+ str, rest)
  | None => None
  end.

(** The characters of a string literal after its opening quote, decoded, and
    the text after the closing quote. *)
Fixpoint parse_chars (s : string) : option (string * string) :=
  match s with
  | EmptyString => None
  | String c s' =>
    if Ascii.eqb c DQUOTE then Some (EmptyString, s')
    else if Ascii.eqb c BACKSLASH then
      match s' with
      | EmptyString => None
      | String e s'' =>
        match simple_escape e with
        | Some d => prepend (str1 d) (parse_chars s'')
        | None =>
          if Ascii.eqb e "u" then
            match s'' with
            | String h1 (String h2 (String h3 (String h4 s3))) =>
              match hex4 h1 h2 h3 h4 with
              | None => None
              | Some cp =>
                if is_high_surrogate cp then
                  match s3 with
                  | String b (String u (String l1 (String l2 (String l3 (String l4 s4))))) =>
                    match low_surrogate_escape s3 with
                    | Some (lo, _) =>
                      prepend (utf8 (65536 + (cp - 55296) * 1024 + (lo - 56320))%N)
                              (parse_chars s4)
                    | None => prepend (utf8 cp) (parse_chars s3)
                    end
                  | _ => prepend (utf8 cp) (parse_chars s3)
                  end
                else prepend (utf8 cp) (parse_chars s3)
              end
            | _ => None
            end
          else None
        end
      end
    else if (N_of_ascii c <? 32)%N then None
    else prepend (str1 c) (parse_chars s')
  end.

(** Recursive descent over the JSON grammar; [fuel] bounds the nesting. *)
Fixpoint parse_value (fuel : nat) (s : string) {struct fuel}
    : option (json * string) :=
  match fuel with
  | 0 => None
  | S fuel' =>
    match skip_ws s with
    | EmptyString => None
    | String c rest =>
      if Ascii.eqb c DQUOTE then
        match parse_chars rest with
        | Some (str, rest') => Some (JStr str, rest')
        | None => None
        end
      else if Ascii.eqb c "[" then
        match strip_prefix "]" (skip_ws rest) with
        | Some rest' => Some (JArr [], rest')
        | None =>
          match parse_elements fuel' rest with
          | Some (items, rest') => Some (JArr items, rest')
          | None => None
          end
        end
      else if Ascii.eqb c "{" then
        match strip_prefix "}" (skip_ws rest) with
        | Some rest' => Some (JObj [], rest')
        | None =>
          match parse_members fuel' rest with
          | Some (members, rest') =>
            Some (JObj (fold_left (fun fields kv => obj_set (fst kv) (snd kv) fields)
                                  members []), rest')
          | None => None
          end
        end
      else
        match strip_prefix "true" (String c rest) with
        | Some rest' => Some (JBool true, rest')
        | None =>
          match strip_prefix "false" (String c rest) with
          | Some rest' => Some (JBool false, rest')
          | None =>
            match strip_prefix "null" (String c rest) with
            | Some rest' => Some (JNull, rest')
            | None => None
            end
          end
        end
    end
  end
with parse_elements (fuel : nat) (s : string) {struct fuel}
    : option (list json * string) :=
  match fuel with
  | 0 => None
  | S fuel' =>
    match parse_value fuel' s with
    | None => None
    | Some (v, rest) =>
      match skip_ws rest with
      | EmptyString => None
      | String c rest' =>
        if Ascii.eqb c "," then
          match parse_elements fuel' rest' with
          | Some (vs, rest'') => Some (v :: vs, rest'')
          | None => None
          end
        else if Ascii.eqb c "]" then Some ([v], rest')
        else None
      end
    end
  end
with parse_members (fuel : nat) (s : string) {struct fuel}
    : option (list (string * json) * string) :=
  match fuel with
  | 0 => None
  | S fuel' =>
    match strip_prefix (str1 DQUOTE) (skip_ws s) with
    | None => None
    | Some s1 =>
      match parse_chars s1 with
      | None => None
      | Some (k, s2) =>
        match strip_prefix ":" (skip_ws s2) with
        | None => None
        | Some s3 =>
          match parse_value fuel' s3 with
          | None => None
          | Some (v, rest) =>
            match skip_ws rest with
            | EmptyString => None
            | String c rest' =>
              if Ascii.eqb c "," then
                match parse_members fuel' rest' with
                | Some (kvs, rest'') => Some ((k, v) :: kvs, rest'')
                | None => None
                end
              else if Ascii.eqb c "}" then Some ([(k, v)], rest')
              else None
            end
          end
        end
      end
    end
  end.

(** [JSON.parse(text)]; [None] is its [SyntaxError]. The fuel is more than
    any text can use up. Number literals are not part of the model, and
    the properties of a parsed object stay in the order of the text, where
    JavaScript lists array-index keys first: the records that the scripts
    print hold no number and no such key. *)
Definition JSON_parse (text : string) : option json :=
  match parse_value (2 * String.length text + 2) text with
  | Some (v, rest) => if is_empty (skip_ws rest) then Some v else None
  | None => None
  end.

End JS.

(** ** Network calls and timers

    An [async] function is a state transformer over the log of what it has
    done so far; the network answers each request from the log and the URL,
    so a reply may depend on everything that happened before it. *)
Module IO.

(** What [await axios.get(url, { timeout })] comes back with: a rejection
    (connection error, timeout, refused status) with its [message], or a
    response with its [status] and parsed [data]. *)
Inductive Reply :=
| Rejected (message : string)
| Response (status : Z) (data : JS.json).

Inductive Event :=
| Get (url : string) (reply : Reply)
| Delay (ms : Z).

Abbreviation Log := (list Event).

Definition Network := Log -> string -> Reply.

Definition Async (A : Type) : Type := Network -> Log -> A * Log.

Definition ret {A} (a : A) : Async A := fun _ log => (a, log).

Definition bind {A B} (m : Async A) (k : A -> Async B) : Async B :=
  fun net log => let (a, log') := m net log in k a net log'.

Definition axios_get (url : string) : Async Reply :=
  fun net log => let reply := net log url in (reply, log ++ [Get url reply]).

Definition delay (ms : Z) : Async unit :=
  fun _ log => (tt, log ++ [Delay ms]).

Definition is_get (e : Event) : bool :=
  match e with
  | Get _ _ => true
  | Delay _ => false
  end.

(** The number of network attempts in a log. *)
Definition requests (log : Log) : nat := length (List.filter is_get log).

(** What a [try] block ends with. *)
Inductive Completion (A : Type) :=
| Returned (a : A)
| Thrown (message : string).
Arguments Returned {A} a.
Arguments Thrown {A} message.

Definition is_unreserved (c : ascii) : bool :=
  let n := N_of_ascii c in
  ((48 <=? n) && (n <=? 57) || (65 <=? n) && (n <=? 90)
   || (97 <=? n) && (n <=? 122))%N
  || JS.includes "-_.!~*'()" (JS.str1 c).

Definition upper_hex (n : N) : ascii :=
  match n with
  | 10 => "A" | 11 => "B" | 12 => "C" | 13 => "D" | 14 => "E" | 15 => "F"
  | _ => JS.hex_digit n
  end%N%char.

(** [encodeURIComponent] on UTF-8 text. *)
Fixpoint encodeURIComponent (s : string) : string :=
  match s with
  | EmptyString => EmptyString
  | String c s' =>
    (if is_unreserved c then JS.str1 c
     else String "%" (JS.str2 (upper_hex (N_of_ascii c / 16))
                              (upper_hex (N_of_ascii c mod 16))))
    +:+ encodeURIComponent s'
  end.

End IO.

Declare Scope async_scope.
Delimit Scope async_scope with async.
Notation "'await' x <- m ; k" := (IO.bind m (fun x => k))
  (at level 10, x name, m at level 100, k at level 200) : async_scope.
Notation "'pause' m ; k" := (IO.bind m (fun _ => k))
  (at level 10, m at level 100, k at level 200) : async_scope.

(** The configuration file: an array of [{ id, name, baseUrl, group, enabled }];
    [None] where a property is absent. *)
Record Source := mkSource {
  s_id : option string;
  s_name : option string;
  s_baseUrl : string;
  s_group : option string;
  s_enabled : option bool
}.

(** [process.argv[2] || "斗罗大陆"] *)
Definition SEARCH_KEYWORD (argv2 : option string) : string :=
  match argv2 with
  | Some k => if JS.is_empty k then "斗罗大陆" else k
  | None => "斗罗大陆"
  end.

(** ** [check_api.js] *)
Module CheckApi.
Import IO.
Local Open Scope async_scope.

Definition MAX_DAYS : nat := 30.
Definition WARN_STREAK : nat := 3.
Definition ENABLE_SEARCH_TEST : bool := true.
Definition TIMEOUT_MS : Z := 10000.
Definition CONCURRENT_LIMIT : nat := 10.
Definition MAX_RETRY : nat := 3.
Definition RETRY_DELAY_MS : Z := 500.

(** *** Configuration *)

Record Entry := mkEntry {
  e_name : option string;
  e_api : string;
  e_detail : string;
  e_disabled : bool
}.

(** [{ name: s.name, api: s.baseUrl, detail: s.id || "-", disabled: s.enabled === false }] *)
Definition apiEntry (s : Source) : Entry :=
  {| e_name := s_name s;
     e_api := s_baseUrl s;
     e_detail := match s_id s with
                 | Some i => if JS.is_empty i then "-" else i
                 | None => "-"
                 end;
     e_disabled := match s_enabled s with
                   | Some false => true
                   | _ => false
                   end |}.


(** *** The stored history *)

Definition FENCE_OPEN : string := "```json" +:+ JS.str1 JS.LF.
Definition FENCE_CLOSE : string := JS.str1 JS.LF +:+ "```".

(** The shortest prefix of [s] that is followed by [close]. *)
Fixpoint lazy_until (close s : string) : option string :=
  match JS.strip_prefix close s with
  | Some _ => Some EmptyString
  | None =>
    match s with
    | EmptyString => None
    | String c s' =>
      match lazy_until close s' with
      | Some m => Some (String c m)
      | None => None
      end
    end
  end.

(** [([\s\S]+?)\n```] at the head of [s]: the capture takes at least one
    character. *)
Definition capture (s : string) : option string :=
  match s with
  | EmptyString => None
  | String c s' =>
    match lazy_until FENCE_CLOSE s' with
    | Some m => Some (String c m)
    | None => None
    end
  end.

(** [old.match(/```json\n([\s\S]+?)\n```/)]: the capture group of the
    leftmost match, [None] when the pattern matches nowhere. *)
Fixpoint match_json_block (old : string) : option string :=
  let here :=
    match JS.strip_prefix FENCE_OPEN old with
    | Some rest => capture rest
    | None => None
    end in
  match here with
  | Some m => Some m
  | None =>
    match old with
    | EmptyString => None
    | String _ old' => match_json_block old'
    end
  end.

Section LoadHistory.
(** [JSON.parse], [None] when it throws. *)
Variable parse : string -> option JS.json.

(** [report] is the text of [report.md], [None] when the file does not
    exist. [history] starts as [[]] and is replaced only by a block that
    parses. *)
Definition load_history_with (report : option string) : JS.json :=
  let history := JS.JArr [] in
  match report with
  | None => history
  | Some old =>
    match match_json_block old with
    | None => history
    | Some block =>
      match parse block with
      | Some parsed => parsed
      | None => history                       (* catch (e) {} *)
      end
    end
  end.
End LoadHistory.

Definition load_history : option string -> JS.json :=
  load_history_with JS.JSON_parse.

Definition result_json (r : Result) : JS.json :=
  JS.JObj
    (match r_name r with
     | Some n => [("name"%string, JS.JStr n)]
     | None => []
     end ++
     [("api"%string, JS.JStr (r_api r));
      ("success"%string, JS.JBool (r_success r));
      ("searchStatus"%string, JS.JStr (r_searchStatus r))]).

Definition day_json (d : Day) : JS.json :=
  JS.JObj [("date"%string, JS.JStr (date d));
           ("results"%string, JS.JArr (map result_json (results d)))].

(** The [history] array as the value that [JSON.stringify] is given. *)
Definition history_json (h : History) : JS.json :=
  JS.JArr (map day_json h).

(** The records as the statistics code reads them back, property by
    property. *)
Definition json_result (v : JS.json) : option Result :=
  match JS.prop "api" v, JS.prop "success" v, JS.prop "searchStatus" v with
  | Some (JS.JStr api), Some (JS.JBool success), Some (JS.JStr st) =>
    Some {| r_name := match JS.prop "name" v with
                      | Some (JS.JStr n) => Some n
                      | _ => None
                      end;
            r_api := api; r_success := success; r_searchStatus := st |}
  | _, _, _ => None
  end.

Fixpoint all_some {A} (l : list (option A)) : option (list A) :=
  match l with
  | [] => Some []
  | Some x :: l' =>
    match all_some l' with
    | Some xs => Some (x :: xs)
    | None => None
    end
  | None :: _ => None
  end.

Definition json_day (v : JS.json) : option Day :=
  match JS.prop "date" v, JS.prop "results" v with
  | Some (JS.JStr d), Some (JS.JArr rs) =>
    match all_some (map json_result rs) with
    | Some rs' => Some (mkDay d rs')
    | None => None
    end
  | _, _ => None
  end.

Definition json_history (v : JS.json) : option History :=
  match v with
  | JS.JArr days => all_some (map json_day days)
  | _ => None
  end.

(** [md] is everything the script has written before the history block:
    heading, summary, keyword line and table. *)
Definition reportFileContent (md : string) (history : JS.json) : string :=
  md +:+ JS.str1 JS.LF +:+ "<details>" +:+ JS.str1 JS.LF
     +:+ "<summary>📜 点击展开查看历史检测数据 (JSON)</summary>"
     +:+ JS.str1 JS.LF +:+ JS.str1 JS.LF
     +:+ "```json" +:+ JS.str1 JS.LF
     +:+ JS.JSON_stringify_2 history
     +:+ JS.str1 JS.LF +:+ "```" +:+ JS.str1 JS.LF
     +:+ "</details>" +:+ JS.str1 JS.LF.

(** *** Probing *)

(** The [for] loop of [safeGet]; [fuel] is the number of iterations left to
    unroll. The exit after the loop is not reached: the last attempt
    returns from inside it. *)
Fixpoint safeGet_loop (fuel attempt : nat) (url : string) : Async bool :=
  match fuel with
  | 0 => ret false
  | S fuel' =>
    if attempt <=? MAX_RETRY then
      await res <- axios_get url;
      match res with
      | Response status _ => ret (status =? 200)%Z
      | Rejected _ =>
        if attempt <? MAX_RETRY
        then pause delay RETRY_DELAY_MS; safeGet_loop fuel' (S attempt) url
        else ret false
      end
    else ret false
  end.

Definition safeGet (url : string) : Async bool :=
  safeGet_loop MAX_RETRY 1 url.

(** [list.length] as a condition, for a [list] that is truthy. *)
Definition has_length (list : JS.json) : bool :=
  match list with
  | JS.JArr items => negb (length items =? 0)
  | JS.JStr s => negb (JS.is_empty s)
  | JS.JObj fields => JS.truthy (JS.obj_get "length" fields)
  | JS.JBool _ | JS.JNull => false
  end.

(** The body of the [try] block once the response is there. *)
Definition search_verdict (keyword : string) (status : Z) (data : JS.json)
    : string :=
  if negb (status =? 200)%Z || negb (JS.truthy (Some data))
     || negb (JS.typeof_object data)
  then "❌"
  else
    let list := match JS.prop "list" data with
                | Some l => if JS.truthy (Some l) then l else JS.JArr []
                | None => JS.JArr []
                end in
    if negb (has_length list) then "无结果"
    else if JS.includes (JS.JSON_stringify list) keyword then "✅"
    else "不匹配".

Fixpoint testSearch_loop (fuel attempt : nat) (api keyword : string)
    : Async string :=
  match fuel with
  | 0 => ret "❌"%string
  | S fuel' =>
    if attempt <=? MAX_RETRY then
      await res <- axios_get (api +:+ "?wd=" +:+ encodeURIComponent keyword);
      match res with
      | Response status data => ret (search_verdict keyword status data)
      | Rejected _ =>
        if attempt <? MAX_RETRY
        then pause delay RETRY_DELAY_MS; testSearch_loop fuel' (S attempt) api keyword
        else ret "❌"%string
      end
    else ret "❌"%string
  end.

Definition testSearch (api keyword : string) : Async string :=
  testSearch_loop MAX_RETRY 1 api keyword.

(** One element of [tasks]. *)
Definition task (keyword : string) (e : Entry) : Async Result :=
  if e_disabled e
  then ret (mkResult (e_name e) (e_api e) false "禁用")
  else
    await ok <- safeGet (e_api e);
    await searchStatus <-
      (if ENABLE_SEARCH_TEST then testSearch (e_api e) keyword
       else ret "-"%string);
    ret (mkResult (e_name e) (e_api e) ok searchStatus).

(** *** [queueRun]

    Each task is a promise that fulfils with its value at some later turn of
    the event loop; the callbacks registered on it run one at a time, in any
    order across tasks. [tasks] lists the value each task fulfils with. *)
Section QueueRun.
Context {A : Type}.
Variable tasks : list A.
Variable limit : nat.

Record Queue := mkQueue {
  index : nat;
  active : nat;
  q_results : list (option A);           (* [None] is a hole of the array *)
  pending : list nat;                    (* started, not yet fulfilled *)
  settling : list nat;                   (* [then] done, [finally] not yet *)
  resolved : option (list (option A))    (* [results] when [resolve] was called *)
}.

(** [results[i] = res]: writing past the end extends the array. *)
Definition store (i : nat) (res : A) (rs : list (option A)) : list (option A) :=
  if i <? length rs then <[i := Some res]> rs
  else rs ++ replicate (i - length rs) None ++ [Some res].

(** The [while] loop of [next]. *)
Fixpoint fill (fuel : nat) (q : Queue) : Queue :=
  match fuel with
  | 0 => q
  | S fuel' =>
    if (active q <? limit) && (index q <? length tasks) then
      fill fuel'
        {| index := S (index q); active := S (active q);
           q_results := q_results q;
           pending := pending q ++ [index q];
           settling := settling q; resolved := resolved q |}
    else q
  end.

(** [resolve(results)]: a promise is resolved once. *)
Definition resolve (q : Queue) : Queue :=
  match resolved q with
  | Some _ => q
  | None =>
    {| index := index q; active := active q; q_results := q_results q;
       pending := pending q; settling := settling q;
       resolved := Some (q_results q) |}
  end.

Definition next (q : Queue) : Queue :=
  let q' := fill (length tasks) q in
  if (length tasks <=? index q') && (active q' =? 0) then resolve q' else q'.

Definition remove (i : nat) (l : list nat) : list nat :=
  List.filter (fun j => negb (j =? i)) l.

(** The state after the call [queueRun(tasks, limit)] has returned its
    promise. *)
Definition start : Queue :=
  next {| index := 0; active := 0; q_results := []; pending := [];
          settling := []; resolved := None |}.

(** [res => results[i] = res], the callback of task [i]'s promise. *)
Definition on_then (i : nat) (res : A) (q : Queue) : Queue :=
  {| index := index q; active := active q;
     q_results := store i res (q_results q);
     pending := remove i (pending q);
     settling := settling q ++ [i];
     resolved := resolved q |}.

(** [() => { active--; next(); }], the callback that follows it. *)
Definition on_finally (i : nat) (q : Queue) : Queue :=
  next {| index := index q; active := active q - 1;
          q_results := q_results q;
          pending := pending q;
          settling := remove i (settling q);
          resolved := resolved q |}.

Inductive step : Queue -> Queue -> Prop :=
| step_then q i res :
    In i (pending q) ->
    tasks !! i = Some res ->
    step q (on_then i res q)
| step_finally q i :
    In i (settling q) ->
    step q (on_finally i q).

Inductive reachable : Queue -> Prop :=
| reach_start : reachable start
| reach_step q q' : reachable q -> step q q' -> reachable q'.

(** What is left to do. *)
Definition work (q : Queue) : nat :=
  2 * (length tasks - index q) + 2 * length (pending q) + length (settling q).
End QueueRun.

(** The values the tasks of one run fulfil with; [nets i] is the network as
    the [i]-th task meets it. *)
Definition todayResults (keyword : string) (nets : nat -> Network)
    (entries : list Entry) : list Result :=
  imap (fun i e => fst (task keyword e (nets i) [])) entries.

(** *** History and statistics *)

(** [history.push(day); if (history.length > MAX_DAYS) history = history.slice(-MAX_DAYS)] *)
Definition append (history : History) (day : Day) : History :=
  let pushed := history ++ [day] in
  if MAX_DAYS <? length pushed
  then drop (length pushed - MAX_DAYS) pushed
  else pushed.

(** The streak loop: [n] is [i + 1] for the loop variable [i], which runs
    from [history.length - 1] down to [0]. *)
Fixpoint streak_loop (history : History) (api : string) (n streak : nat) : nat :=
  match n with
  | 0 => streak
  | S i =>
    match history !! i with
    | None => streak
    | Some day =>
      match find_api api (results day) with
      | None => streak                                  (* !rec : break *)
      | Some rec =>
        if r_success rec then streak                    (* rec.success : break *)
        else streak_loop history api i (S streak)       (* streak++ *)
      end
    end
  end.

Definition streak (history : History) (api : string) : nat :=
  streak_loop history api (length history) 0.

(** [history.forEach(day => { rec = ...; if (rec) rec.success ? ok++ : fail++ })] *)
Definition count_ok (history : History) (api : string) : nat :=
  fold_left (fun ok day =>
    match find_api api (results day) with
    | Some rec => if r_success rec then S ok else ok
    | None => ok
    end) history 0.

Definition count_fail (history : History) (api : string) : nat :=
  fold_left (fun fail day =>
    match find_api api (results day) with
    | Some rec => if r_success rec then fail else S fail
    | None => fail
    end) history 0.

(** The status assignment: the entry starts at ["❌"] and is overwritten by
    the first branch that applies. *)
Definition classify (disabled : bool) (latest : option Result) (streak : nat) : Status :=
  if disabled then DISABLED
  else if WARN_STREAK <=? streak then CRITICAL
  else if opt_success latest then HEALTHY
  else DOWN.

End CheckApi.

(** ** The first sibling variant (report plus README table) *)
Module Part000.
Import IO.
Local Open Scope async_scope.

Definition MAX_DAYS : nat := 30.
Definition WARN_STREAK : nat := 3.
Definition ENABLE_SEARCH_TEST : bool := true.
Definition MAX_RETRY : nat := 3.
Definition RETRY_DELAY_MS : Z := 500.

Record Entry := mkEntry {
  e_name : option string;
  e_api : string;
  e_id : string;
  e_disabled : bool
}.

Definition apiEntry (s : Source) : Entry :=
  {| e_name := s_name s;
     e_api := s_baseUrl s;
     e_id := match s_id s with
             | Some i => if JS.is_empty i then "-" else i
             | None => "-"
             end;
     e_disabled := match s_enabled s with
                   | Some false => true
                   | _ => false
                   end |}.

(** Here a rejected last attempt leaves the loop and reaches [return false]. *)
Fixpoint safeGet_loop (fuel i : nat) (url : string) : Async bool :=
  match fuel with
  | 0 => ret false
  | S fuel' =>
    if i <=? MAX_RETRY then
      await res <- axios_get url;
      match res with
      | Response status _ => ret (status =? 200)%Z
      | Rejected _ =>
        pause (if i <? MAX_RETRY then delay RETRY_DELAY_MS else ret tt);
        safeGet_loop fuel' (S i) url
      end
    else ret false
  end.

Definition safeGet (url : string) : Async bool :=
  safeGet_loop MAX_RETRY 1 url.

Definition search_verdict (status : Z) (data : JS.json) : string :=
  if negb (status =? 200)%Z || negb (JS.truthy (Some data))
     || negb (JS.truthy (JS.prop "list" data))
  then "❌"
  else
    match JS.prop "list" data with
    | Some list => if CheckApi.has_length list then "✅" else "无结果"
    | None => "❌"
    end.

Fixpoint testSearch_loop (fuel i : nat) (api keyword : string) : Async string :=
  match fuel with
  | 0 => ret "❌"%string
  | S fuel' =>
    if i <=? MAX_RETRY then
      await res <- axios_get (api +:+ "?wd=" +:+ encodeURIComponent keyword);
      match res with
      | Response status data => ret (search_verdict status data)
      | Rejected _ =>
        pause (if i <? MAX_RETRY then delay RETRY_DELAY_MS else ret tt);
        testSearch_loop fuel' (S i) api keyword
      end
    else ret "❌"%string
  end.

Definition testSearch (api keyword : string) : Async string :=
  testSearch_loop MAX_RETRY 1 api keyword.

(** One element of [tasks]: [{ api, success, searchStatus }]. *)
Definition task (keyword : string) (e : Entry) : Async Result :=
  if e_disabled e
  then ret (mkResult None (e_api e) false "禁用")
  else
    await ok <- safeGet (e_api e);
    await searchStatus <-
      (if ok && ENABLE_SEARCH_TEST then testSearch (e_api e) keyword
       else ret "-"%string);
    ret (mkResult None (e_api e) ok searchStatus).

(** [history.push(day); if (history.length > MAX_DAYS) history.shift()] *)
Definition append (history : History) (day : Day) : History :=
  let pushed := history ++ [day] in
  if MAX_DAYS <? length pushed
  then drop 1 pushed
  else pushed.

Fixpoint streak_loop (history : History) (api : string) (n streak : nat) : nat :=
  match n with
  | 0 => streak
  | S i =>
    match history !! i with
    | None => streak
    | Some day =>
      match find_api api (results day) with
      | Some r =>
        if r_success r then streak                      (* r && r.success : break *)
        else streak_loop history api i (S streak)
      | None => streak_loop history api i (S streak)    (* no outcome: streak++ *)
      end
    end
  end.

Definition streak (history : History) (api : string) : nat :=
  streak_loop history api (length history) 0.

(** [status] starts at ["✅"]. *)
Definition classify (disabled : bool) (latest : option Result) (streak : nat) : Status :=
  if disabled then DISABLED
  else if WARN_STREAK <=? streak then CRITICAL
  else if negb (opt_success latest) then DOWN
  else HEALTHY.

End Part000.

(** ** The second sibling variant (source quality scan) *)
Module Part001.
Import IO.
Local Open Scope async_scope.

Definition CONCURRENT_LIMIT : nat := 5.
Definition MAX_RETRY : nat := 2.

Definition POLLUTED_KEYWORDS : list string :=
  ["广告"; "博彩"; "注册"; "联系Q"; "维护"; "加群"]%string.

(** [{ success, reason }] *)
Record Verdict := mkVerdict {
  success : bool;
  reason : string
}.

(** [list[0]] for a [list] that is truthy. *)
Definition first_item (list : JS.json) : option JS.json :=
  match list with
  | JS.JArr (x :: _) => Some x
  | JS.JStr (String c _) => Some (JS.JStr (JS.str1 c))
  | JS.JObj fields => JS.obj_get "0" fields
  | _ => None
  end.

(** [list[0].vod_name || ""]; reading the property of [undefined] or [null]
    throws a [TypeError]. *)
Definition sample_name (item : option JS.json) : Completion JS.json :=
  match item with
  | None => Thrown "Cannot read properties of undefined (reading 'vod_name')"
  | Some JS.JNull => Thrown "Cannot read properties of null (reading 'vod_name')"
  | Some v =>
    match JS.prop "vod_name" v with
    | Some name => if JS.truthy (Some name) then Returned name
                   else Returned (JS.JStr EmptyString)
    | None => Returned (JS.JStr EmptyString)
    end
  end.

(** [POLLUTED_KEYWORDS.some(k => sampleName.includes(k))]: a string is
    searched, an array is asked for an equal element, anything else has no
    [includes] to call. *)
Definition polluted (sampleName : JS.json) : Completion bool :=
  match sampleName with
  | JS.JStr s => Returned (existsb (fun k => JS.includes s k) POLLUTED_KEYWORDS)
  | JS.JArr items =>
    Returned (existsb (fun k =>
      existsb (fun x => match x with
                        | JS.JStr s => String.eqb s k
                        | _ => false
                        end) items) POLLUTED_KEYWORDS)
  | _ => Thrown "sampleName.includes is not a function"
  end.

(** [list.length === 0] for a [list] that is truthy. *)
Definition length_is_zero (list : JS.json) : bool :=
  match list with
  | JS.JArr [] => true
  | _ => false
  end.

(** The three checks on the search response: the new [errorReason], or the
    [TypeError] they end with. *)
Definition inspect (data : JS.json) (errorReason : string) : Completion string :=
  match (if JS.truthy (Some data) then JS.prop "list" data else None) with
  | None => Returned "返回格式非法"%string
  | Some list =>
    if negb (JS.truthy (Some list)) then Returned "返回格式非法"%string
    else if length_is_zero list then Returned "搜索无结果"%string
    else
      match sample_name (first_item list) with
      | Thrown m => Thrown m
      | Returned sampleName =>
        match polluted sampleName with
        | Thrown m => Thrown m
        | Returned true => Returned "检测到广告污染源"%string
        | Returned false => Returned errorReason
        end
      end
  end.

Definition string_of_status (status : Z) : string :=
  NilZero.string_of_int (Z.to_int status).

(** The [try] block of one attempt. *)
Definition attempt (keyword url errorReason : string)
    : Async (Completion Verdict) :=
  await ping <- axios_get url;
  match ping with
  | Rejected m => ret (Thrown m)
  | Response status _ =>
    if negb (status =? 200)%Z
    then ret (Thrown ("HTTP_" +:+ string_of_status status))
    else
      await res <- axios_get (url +:+ "?ac=detail&wd=" +:+ encodeURIComponent keyword);
      match res with
      | Rejected m => ret (Thrown m)
      | Response _ data =>
        match inspect data errorReason with
        | Thrown m => ret (Thrown m)
        | Returned errorReason' =>
          if negb (JS.is_empty errorReason')
          then ret (Thrown errorReason')
          else ret (Returned (mkVerdict true "正常"))
        end
      end
  end.

(** The retry loop: [errorReason] is declared outside it and carries over
    from one attempt to the next. *)
Fixpoint testSource_loop (fuel n : nat) (keyword url errorReason : string)
    : Async Verdict :=
  match fuel with
  | 0 => ret (mkVerdict false errorReason)
  | S fuel' =>
    if n <=? MAX_RETRY then
      await c <- attempt keyword url errorReason;
      match c with
      | Returned v => ret v
      | Thrown message =>
        pause (if n <? MAX_RETRY then delay 1000 else ret tt);
        testSource_loop fuel' (S n) keyword url message
      end
    else ret (mkVerdict false errorReason)
  end.

Definition testSource (keyword : string) (item : Source) : Async Verdict :=
  testSource_loop MAX_RETRY 1 keyword (s_baseUrl item) EmptyString.

End Part001.

(** ** Vocabulary of the statements

    The notions the properties below are stated and proved with; none of
    them is code of the scripts. *)

(** How many leading elements satisfy [p]. *)
Fixpoint count_while {A} (p : A -> bool) (l : list A) : nat :=
  match l with
  | [] => 0
  | x :: l' => if p x then S (count_while p l') else 0
  end.

(** The endpoint has a successful outcome in that day's record. *)
Definition succeeded (api : string) (day : Day) : bool :=
  opt_success (find_api api (results day)).

(** The endpoint has an outcome in that day's record, and it is a failure. *)
Definition failed (api : string) (day : Day) : bool :=
  match find_api api (results day) with
  | Some r => negb (r_success r)
  | None => false
  end.

(** The streak as the specification words it: from the most recent record
    to the oldest, count the records in which the endpoint has no outcome or
    a failing one, up to the first record with a successful outcome. *)
Definition streak_spec (history : History) (api : string) : nat :=
  count_while (fun day => negb (succeeded api day)) (reverse history).

(** [endpoint.enabled]: an entry is enabled unless the configuration says
    [enabled: false]. *)
Definition enabled (s : Source) : bool :=
  match s_enabled s with
  | Some false => false
  | _ => true
  end.

(** Every request is rejected: connection error or timeout. *)
Definition all_rejected (net : IO.Network) : Prop :=
  forall log url, exists m, net log url = IO.Rejected m.

(** The URL of the search request. *)
Definition search_url (keyword : string) (item : Source) : string :=
  s_baseUrl item +:+ "?ac=detail&wd=" +:+ IO.encodeURIComponent keyword.

(** The item's display name is a string that contains a marker. *)
Definition polluted_name (item : JS.json) : bool :=
  match JS.prop "vod_name" item with
  | Some (JS.JStr name) => existsb (fun k => JS.includes name k) Part001.POLLUTED_KEYWORDS
  | _ => false
  end.

(** The response carries a [list] array whose first item is polluted. *)
Definition first_item_polluted (data : JS.json) : bool :=
  match JS.prop "list" data with
  | Some (JS.JArr (item :: _)) => polluted_name item
  | _ => false
  end.

(** The response carries a [list] array with a polluted item somewhere. *)
Definition some_item_polluted (data : JS.json) : bool :=
  match JS.prop "list" data with
  | Some (JS.JArr items) => existsb polluted_name items
  | _ => false
  end.

Definition POLLUTED_REASON : string := "检测到广告污染源".

Section AttemptRun.
Variables (keyword : string) (item : Source).

(** The four ways an attempt of the quality scan can go: what it ends with
    and the log it leaves. *)
Inductive attempt_run (reason : string) (log : IO.Log)
    : IO.Completion Part001.Verdict -> IO.Log -> Prop :=
| run_ping_rejected m :
    attempt_run reason log (IO.Thrown m)
      (log ++ [IO.Get (s_baseUrl item) (IO.Rejected m)])
| run_ping_status status d :
    (status =? 200)%Z = false ->
    attempt_run reason log
      (IO.Thrown ("HTTP_" +:+ Part001.string_of_status status))
      (log ++ [IO.Get (s_baseUrl item) (IO.Response status d)])
| run_search_rejected d m :
    attempt_run reason log (IO.Thrown m)
      ((log ++ [IO.Get (s_baseUrl item) (IO.Response 200 d)])
       ++ [IO.Get (search_url keyword item) (IO.Rejected m)])
| run_search_response d status data :
    attempt_run reason log
      match Part001.inspect data reason with
      | IO.Thrown m => IO.Thrown m
      | IO.Returned r =>
        if negb (JS.is_empty r) then IO.Thrown r
        else IO.Returned (Part001.mkVerdict true "正常")
      end
      ((log ++ [IO.Get (s_baseUrl item) (IO.Response 200 d)])
       ++ [IO.Get (search_url keyword item) (IO.Response status data)]).

End AttemptRun.

(** A source that answers every search with an advertisement first. *)
Definition polluted_listing : JS.json :=
  JS.JObj [("code"%string, JS.JStr "1");
           ("list"%string,
            JS.JArr [JS.JObj [("vod_name"%string, JS.JStr "澳门博彩 注册送礼")];
                     JS.JObj [("vod_name"%string, JS.JStr "斗罗大陆")]])].

Definition sample_source : Source :=
  mkSource (Some "a") (Some "A") "http://a/api.php" None None.

Section QueueInvariant.
Context {A : Type}.
Variables (tasks : list A) (limit : nat).

(** What holds of the scheduler between two callbacks. *)
Record Pre (q : @CheckApi.Queue A) : Prop := {
  pre_index : CheckApi.index q <= length tasks;
  pre_active :
    CheckApi.active q
    = length (CheckApi.pending q) + length (CheckApi.settling q);
  pre_nodup : NoDup (CheckApi.pending q ++ CheckApi.settling q);
  pre_started :
    forall i, In i (CheckApi.pending q ++ CheckApi.settling q) ->
              i < CheckApi.index q;
  pre_results :
    forall i, i < CheckApi.index q -> ~ In i (CheckApi.pending q) ->
    exists v, tasks !! i = Some v /\ CheckApi.q_results q !! i = Some (Some v);
  pre_length : length (CheckApi.q_results q) <= CheckApi.index q;
  pre_resolved :
    forall rs, CheckApi.resolved q = Some rs ->
    rs = CheckApi.q_results q /\ length tasks <= CheckApi.index q
    /\ CheckApi.active q = 0
}.

(** What [next] leaves behind: no free slot next to a waiting task, and the
    promise resolved once nothing is left. *)
Record Post (q : @CheckApi.Queue A) : Prop := {
  post_full : limit <= CheckApi.active q \/ length tasks <= CheckApi.index q;
  post_resolved :
    length tasks <= CheckApi.index q -> CheckApi.active q = 0 ->
    CheckApi.resolved q <> None
}.

End QueueInvariant.

Section Text.
Import JS.

(** Only blanks, tabs and line breaks. *)
Fixpoint all_ws (s : string) : bool :=
  match s with
  | EmptyString => true
  | String c s' => is_ws c && all_ws s'
  end.

(** Objects with distinct keys, all the way down: the values JavaScript can
    hold. *)
Inductive wf : json -> Prop :=
| wf_null : wf JNull
| wf_bool b : wf (JBool b)
| wf_str s : wf (JStr s)
| wf_arr items : Forall wf items -> wf (JArr items)
| wf_obj fields :
    NoDup (map fst fields) ->
    Forall (fun kv => wf (snd kv)) fields ->
    wf (JObj fields).

(** The fuel a value asks of the parser. *)
Fixpoint size (v : json) : nat :=
  match v with
  | JArr items => S (fold_right (fun x n => S (size x + n)) 0 items)
  | JObj fields => S (fold_right (fun kv n => S (size (snd kv) + n)) 0 fields)
  | _ => 1
  end.

(** The first character of a serialized value opens or starts it. *)
Definition opens_value (c : ascii) : bool :=
  Ascii.eqb c DQUOTE || Ascii.eqb c "[" || Ascii.eqb c "{"
  || Ascii.eqb c "t" || Ascii.eqb c "f" || Ascii.eqb c "n".

(** What the induction on a value proves: printed with [gap], at any
    indentation and before any text, it parses back. *)
Definition parses_back (gap : string) (v : json) : Prop :=
  wf v ->
  forall fuel indent rest,
    all_ws indent = true -> size v <= fuel ->
    parse_value fuel (serialize gap indent v +:+ rest) = Some (v, rest).

Definition elements_size (items : list json) : nat :=
  fold_right (fun x n => S (size x + n)) 0 items.

Definition members_size (fields : list (string * json)) : nat :=
  fold_right (fun kv n => S (size (snd kv) + n)) 0 fields.

(** One member of a printed object. *)
Definition member (gap inner : string) (kv : string * json) : string :=
  quote (fst kv) +:+ colon gap +:+ serialize gap inner (snd kv).

Definition TICK : ascii := "`"%char.

(** No line break is directly followed by a backtick; the result tells
    whether the text ends in a line break. [after_lf] says that of the text
    before. *)
Fixpoint lf_tick (after_lf : bool) (s : string) : option bool :=
  match s with
  | EmptyString => Some after_lf
  | String c s' =>
    if after_lf && Ascii.eqb c TICK then None
    else lf_tick (Ascii.eqb c LF) s'
  end.

(** Blanks only. *)
Fixpoint blank (s : string) : bool :=
  match s with
  | EmptyString => true
  | String c s' => Ascii.eqb c " " && blank s'
  end.

Fixpoint all_chars (f : ascii -> bool) (s : string) : bool :=
  match s with
  | EmptyString => true
  | String c s' => f c && all_chars f s'
  end.

Definition DETAILS_OPEN : string :=
  String LF ("<details>" +:+ str1 LF
     +:+ "<summary>📜 点击展开查看历史检测数据 (JSON)</summary>"
     +:+ str1 LF +:+ str1 LF).

Definition DETAILS_CLOSE : string :=
  str1 LF +:+ "</details>" +:+ str1 LF.

End Text.

Definition sample_day : Day :=
  mkDay "2024-05-01"
    [mkResult (Some "A") "http://a/api.php" true "✅";
     mkResult None "http://b/api.php" false "禁用"].

Definition disabled_entry : CheckApi.Entry :=
  CheckApi.mkEntry (Some "A") "http://a/api.php" "a" true.

Definition failing_day : Day :=
  mkDay "2024-05-01" [mkResult (Some "A") "http://a/api.php" false "禁用"].

(** ** JavaScript objects and arrays as the report code uses them *)
Module Obj.

Definition digit (c : ascii) : option N :=
  let n := N_of_ascii c in
  if ((48 <=? n) && (n <=? 57))%N then Some (n - 48)%N else None.

Fixpoint digits (acc : N) (s : string) : option N :=
  match s with
  | EmptyString => Some acc
  | String c s' =>
    match digit c with
    | Some d => digits (acc * 10 + d) s'
    | None => None
    end
  end.

(** A property key that is an array index: the canonical decimal text of an
    integer from [0] to [2^32 - 2]. *)
Definition array_index (k : string) : option N :=
  match k with
  | EmptyString => None
  | String "0" EmptyString => Some 0%N
  | String "0" _ => None
  | _ =>
    match digits 0 k with
    | Some n => if (n <=? 4294967294)%N then Some n else None
    | None => None
    end
  end.

(** The one key that an assignment does not define on an object literal. *)
Definition PROTO : string := "__proto__".

Section Values.
Context {V : Type}.

(** Defining the own property [k] of an object kept in creation order: a
    key that is already there keeps its place. *)
Fixpoint set_key (k : string) (v : V) (o : list (string * V))
    : list (string * V) :=
  match o with
  | [] => [(k, v)]
  | (k', v') :: o' =>
    if String.eqb k' k then (k', v) :: o' else (k', v') :: set_key k v o'
  end.

(** [o[k] = v] on an object that was created as [{}] and holds objects.
    The key ["__proto__"] is not defined on the object: it reaches the
    accessor of [Object.prototype], which makes [v] the prototype of [o] and
    leaves the own properties of [o], the ones [Object.values] lists, as
    they are. Every other key becomes an own property. *)
Definition assign (k : string) (v : V) (o : list (string * V))
    : list (string * V) :=
  if String.eqb k PROTO then o else set_key k v o.

Fixpoint insert_index (n : N) (v : V) (l : list (N * V)) : list (N * V) :=
  match l with
  | [] => [(n, v)]
  | (m, w) :: l' =>
    if (n <? m)%N then (n, v) :: l else (m, w) :: insert_index n v l'
  end.

(** The array-index keys, in ascending numeric order. *)
Definition index_entries (o : list (string * V)) : list (N * V) :=
  fold_right (fun kv acc =>
    match array_index (fst kv) with
    | Some n => insert_index n (snd kv) acc
    | None => acc
    end) [] o.

(** The other keys, in creation order. *)
Definition string_entries (o : list (string * V)) : list (string * V) :=
  List.filter (fun kv =>
    match array_index (fst kv) with
    | Some _ => false
    | None => true
    end) o.

(** [Object.values(o)]: array-index keys first, then the string keys. *)
Definition values (o : list (string * V)) : list V :=
  map snd (index_entries o) ++ map snd (string_entries o).

(** [l.slice(-n)] *)
Definition slice_last (n : nat) (l : list V) : list V :=
  drop (length l - n) l.

Variable compare : V -> V -> Z.

Fixpoint insert_by (x : V) (l : list V) : list V :=
  match l with
  | [] => [x]
  | y :: l' => if (0 <? compare x y)%Z then y :: insert_by x l' else x :: l
  end.

(** [l.sort(compare)] for a [compare] that is the difference of two ranks:
    the sort is stable, so the result is the one arrangement in ascending
    rank that keeps elements of equal rank in their order. *)
Definition sort (l : list V) : list V := fold_right insert_by [] l.

End Values.
End Obj.

Definition status_eqb (a b : Status) : bool :=
  match a, b with
  | CRITICAL, CRITICAL | DOWN, DOWN | HEALTHY, HEALTHY | DISABLED, DISABLED => true
  | _, _ => false
  end.

(** [const order = { "🚨": 1, "❌": 2, "✅": 3, "🚫": 4 }] *)
Definition order (s : Status) : Z :=
  match s with
  | CRITICAL => 1
  | DOWN => 2
  | HEALTHY => 3
  | DISABLED => 4
  end.

(** ** [check_api.js]: the statistics behind the report table *)
Module CheckApiStats.
Import CheckApi.

(** One cell of the seven-day trend. *)
Definition cell (api : string) (day : Day) : string :=
  match find_api api (results day) with
  | Some r => if r_success r then "✅" else "❌"
  | None => "-"
  end.

(** [history.slice(-7).map(day => ...).join("")] *)
Definition trend (history : History) (api : string) : string :=
  JS.join "" (map (cell api) (Obj.slice_last 7 history)).

(** [stats[api]] without its [successRate], a formatted floating-point
    number that the rows' order and the counts below do not read. *)
Record Stat := mkStat {
  st_name : option string;
  st_api : string;
  st_detail : string;
  st_disabled : bool;
  st_ok : nat;
  st_fail : nat;
  st_streak : nat;
  st_trend : string;
  st_searchStatus : string;
  st_status : Status
}.

(** The body of the loop over [apiEntries]; [history] already holds the
    day's record. *)
Definition stat (history : History) (todayResults : list Result) (e : Entry)
    : Stat :=
  let latest := find_api (e_api e) todayResults in
  {| st_name := e_name e;
     st_api := e_api e;
     st_detail := e_detail e;
     st_disabled := e_disabled e;
     st_ok := count_ok history (e_api e);
     st_fail := count_fail history (e_api e);
     st_streak := streak history (e_api e);
     st_trend := trend history (e_api e);
     st_searchStatus := match latest with
                        | Some r => r_searchStatus r
                        | None => "-"
                        end;
     st_status := classify (e_disabled e) latest (streak history (e_api e)) |}.

(** The own properties of the object [stats] after the loop, in creation
    order of their keys. Each iteration starts with [stats[api] = {...}] and
    goes on to fill that object in; the properties of [stat] are what it
    holds when the iteration ends. *)
Definition stats (history : History) (todayResults : list Result)
    (entries : list Entry) : list (string * Stat) :=
  fold_left (fun o e => Obj.assign (e_api e) (stat history todayResults e) o)
            entries [].

Definition by_status (a b : Stat) : Z := order (st_status a) - order (st_status b).

(** [Object.values(stats).sort((a, b) => order[a.status] - order[b.status])] *)
Definition sorted (history : History) (todayResults : list Result)
    (entries : list Entry) : list Stat :=
  Obj.sort by_status (Obj.values (stats history todayResults entries)).

Definition having (s : Status) (rows : list Stat) : Z :=
  Z.of_nat (length (List.filter (fun r => status_eqb (st_status r) s) rows)).

Definition totalCount (entries : list Entry) : Z := Z.of_nat (length entries).

Definition successCount (history : History) (todayResults : list Result)
    (entries : list Entry) : Z :=
  having HEALTHY (Obj.values (stats history todayResults entries)).

Definition failCount (history : History) (todayResults : list Result)
    (entries : list Entry) : Z :=
  totalCount entries - successCount history todayResults entries
  - having DISABLED (Obj.values (stats history todayResults entries)).

End CheckApiStats.

(** ** The first sibling variant: rows and report *)
Module Part000Report.
Import Part000.

(** [{ ...s, status, streak, searchStatus }] *)
Record Stat := mkStat {
  st_name : option string;
  st_api : string;
  st_id : string;
  st_disabled : bool;
  st_status : Status;
  st_streak : nat;
  st_searchStatus : string
}.

Definition stat (history : History) (todayResults : list Result) (s : Entry)
    : Stat :=
  let latest := find_api (e_api s) todayResults in
  let streak := streak history (e_api s) in
  {| st_name := e_name s;
     st_api := e_api s;
     st_id := e_id s;
     st_disabled := e_disabled s;
     st_status := classify (e_disabled s) latest streak;
     st_streak := streak;
     st_searchStatus := match latest with
                        | Some r => if JS.is_empty (r_searchStatus r) then "❌"
                                    else r_searchStatus r
                        | None => "❌"
                        end |}.

Definition by_status (a b : Stat) : Z := order (st_status a) - order (st_status b).

(** [apiEntries.map(s => ...).sort((a, b) => order[a.status] - order[b.status])] *)
Definition stats (history : History) (todayResults : list Result)
    (entries : list Entry) : list Stat :=
  Obj.sort by_status (map (stat history todayResults) entries).

(** [reportMd], for the time stamp and the table that were computed. *)
Definition reportMd (nowCST table : string) (history : JS.json) : string :=
  "# 接口检测报告" +:+ JS.str1 JS.LF +:+ JS.str1 JS.LF
    +:+ "更新时间: " +:+ nowCST +:+ JS.str1 JS.LF +:+ JS.str1 JS.LF
    +:+ table +:+ JS.str1 JS.LF +:+ JS.str1 JS.LF
    +:+ "<details><summary>历史数据</summary>" +:+ JS.str1 JS.LF +:+ JS.str1 JS.LF
    +:+ "```json" +:+ JS.str1 JS.LF
    +:+ JS.JSON_stringify_2 history
    +:+ JS.str1 JS.LF +:+ "```" +:+ JS.str1 JS.LF +:+ "</details>".

End Part000Report.

(** ** The second sibling variant: the files it writes *)
Module Part001Files.
Import Part001.

(** One element of [rawResults], [{ ...item, ...res }]: the configured
    source with the verdict's [success] and [reason]. *)
Record Scanned := mkScanned {
  sc_item : Source;
  sc_success : bool;
  sc_reason : string
}.

(** One element of [adultData]; [f_comment] is [None] where [_comment] is
    not set. *)
Record Final := mkFinal {
  f_id : option string;
  f_name : option string;
  f_baseUrl : string;
  f_group : string;
  f_enabled : bool;
  f_comment : option string
}.

Definition finalItem (item : Scanned) : Final :=
  let cleanItem := sc_item item in
  let group := match s_group cleanItem with
               | Some g => if JS.is_empty g then "normal" else g
               | None => "normal"
               end in
  let enabled := match s_enabled cleanItem with
                 | Some false => false
                 | _ => true
                 end in
  if negb (sc_success item)
  then mkFinal (s_id cleanItem) (s_name cleanItem) (s_baseUrl cleanItem) group
               false (Some ("异常记录: " +:+ sc_reason item))
  else mkFinal (s_id cleanItem) (s_name cleanItem) (s_baseUrl cleanItem) group
               enabled None.

Definition adultData (rawResults : list Scanned) : list Final :=
  map finalItem rawResults.

(** [adultData.filter(item => !isAdult && !isBroken)] *)
Definition liteData (adultData : list Final) : list Final :=
  List.filter (fun item =>
    let isAdult := String.eqb (f_group item) "adult" in
    let isBroken := negb (f_enabled item)
                    || match f_comment item with
                       | Some c => negb (JS.is_empty c)
                       | None => false
                       end in
    negb isAdult && negb isBroken) adultData.

End Part001Files.

(** ** More vocabulary *)

(** The number of pauses in a log. *)
Definition delays (log : IO.Log) : nat :=
  length (List.filter (fun e => negb (IO.is_get e)) log).

(** Rejected attempts at [url], each followed by a pause of [ms]. *)
Definition rejected_attempts (url : string) (ms : Z) (messages : list string)
    : IO.Log :=
  flat_map (fun m => [IO.Get url (IO.Rejected m); IO.Delay ms]) messages.

(** What a run of a retry loop comes to: rejected attempts with a pause after
    each, then one last attempt; [answer] maps its reply to the result. The
    last reply is a rejection only when the [budget] is used up. *)
Definition retry_run {A} (run : A * IO.Log) (answer : IO.Reply -> A)
    (url : string) (ms : Z) (log : IO.Log) (budget : nat) : Prop :=
  exists (messages : list string) (last : IO.Reply),
    run = (answer last,
           log ++ rejected_attempts url ms messages ++ [IO.Get url last])
    /\ length messages < budget
    /\ (forall m, last = IO.Rejected m -> S (length messages) = budget).

(** The endpoint has an outcome in that day's record. *)
Definition recorded (api : string) (day : Day) : bool :=
  match find_api api (results day) with
  | Some _ => true
  | None => false
  end.

(** The last entry of the configuration with that URL. *)
Definition last_entry (api : string) (entries : list CheckApi.Entry)
    : option CheckApi.Entry :=
  List.find (fun e => String.eqb (CheckApi.e_api e) api) (rev entries).

(** Every rejection comes with a message, as those of [axios] do. *)
Definition rejections_have_messages (net : IO.Network) : Prop :=
  forall log url m, net log url = IO.Rejected m -> m <> EmptyString.

(** A source passes into [lite.json]. *)
Definition passes (r : Part001Files.Scanned) : bool :=
  Part001Files.sc_success r
  && enabled (Part001Files.sc_item r)
  && negb (String.eqb
             (match s_group (Part001Files.sc_item r) with
              | Some g => g
              | None => EmptyString
              end) "adult").

(** The text of the sibling variant's report before its history block. *)
Definition part000_heading (nowCST table : string) : string :=
  "# 接口检测报告" +:+ JS.str1 JS.LF +:+ JS.str1 JS.LF
    +:+ "更新时间: " +:+ nowCST +:+ JS.str1 JS.LF +:+ JS.str1 JS.LF
    +:+ table.

(** A keyword that [JSON.stringify] prints as it is: no double quote, no
    backslash, no control character. *)
Definition plain (keyword : string) : bool :=
  all_chars (fun c => negb (Ascii.eqb c JS.DQUOTE)
                      && negb (Ascii.eqb c JS.BACKSLASH)
                      && (32 <=? N_of_ascii c)%N) keyword.
(** ** The schedulers of the sibling variants

    Both are [async] functions around a [Set] of promises. A promise [p] of
    the set has two callbacks of its own, registered when it is made: the
    [then] callback that fulfils it, and after that its [finally] callback,
    which takes it out of the set. [Promise.race] and [Promise.all] register
    their reactions later, so by the time the function goes on after an
    [await Promise.race(set)], a promise that was in the set has been
    fulfilled and taken out of it. The tasks of the scripts catch every
    error, so their promises fulfil. Tasks are numbered by their position;
    the list of tasks gives the value each of them fulfils with. *)

(** The quality scan: [queueRun(items, limit)]. *)
Module Part001Queue.
Section QueueRun.
Context {A : Type}.
Variable items : list A.
Variable limit : nat.

(** Where the function stands between two callbacks. *)
Inductive Loop :=
| Racing (race : list nat)   (* in [await Promise.race(running)] *)
| Collected.                 (* it has returned [Promise.all(results)] *)

Record Pool := mkPool {
  taken : nat;             (* [results.length]: the items taken so far *)
  running : list nat;      (* the set [running], in insertion order *)
  pending : list nat;      (* promises not yet fulfilled *)
  settling : list nat;     (* fulfilled, [finally] callback not yet run *)
  loop : Loop
}.

Definition at_loop (l : Loop) (q : Pool) : Pool :=
  {| taken := taken q; running := running q; pending := pending q;
     settling := settling q; loop := l |}.

(** [const p = ...; running.add(p); p.finally(...); results.push(p)] *)
Definition launch (q : Pool) : Pool :=
  {| taken := S (taken q);
     running := running q ++ [taken q];
     pending := pending q ++ [taken q];
     settling := settling q;
     loop := loop q |}.

(** The [for] loop from the top of an iteration to the next [await], or to
    the [return]. *)
Fixpoint iterate (fuel : nat) (q : Pool) : Pool :=
  match fuel with
  | 0 => q
  | S fuel' =>
    if taken q <? length items then
      if limit <=? length (running q)
      then at_loop (Racing (running q)) q
      else iterate fuel' (launch q)
    else at_loop Collected q
  end.

(** The state when the call [queueRun(items, limit)] has returned its
    promise: the loop has run from empty sets to its first [await] or to
    the [return], which sets [loop]. *)
Definition start : Pool :=
  iterate (S (length items))
    {| taken := 0; running := []; pending := []; settling := [];
       loop := Collected |}.

(** After the [await]: the rest of the iteration, and on. *)
Definition resume (q : Pool) : Pool :=
  iterate (S (length items)) (launch q).

(** [res => ({ ...item, ...res })] has run: promise [i] is fulfilled. *)
Definition on_then (i : nat) (q : Pool) : Pool :=
  {| taken := taken q; running := running q;
     pending := CheckApi.remove i (pending q);
     settling := settling q ++ [i];
     loop := loop q |}.

(** [() => running.delete(p)] *)
Definition on_finally (i : nat) (q : Pool) : Pool :=
  {| taken := taken q;
     running := CheckApi.remove i (running q);
     pending := pending q;
     settling := CheckApi.remove i (settling q);
     loop := loop q |}.

Inductive step : Pool -> Pool -> Prop :=
| step_then q i :
    In i (pending q) -> step q (on_then i q)
| step_finally q i :
    In i (settling q) -> step q (on_finally i q)
| step_race q race i :
    loop q = Racing race -> In i race -> ~ In i (running q) ->
    step q (resume q).

Inductive reachable : Pool -> Prop :=
| reach_start : reachable start
| reach_step q q' : reachable q -> step q q' -> reachable q'.

(** What the promise of [queueRun] is fulfilled with, once it is:
    [Promise.all(results)] gives the values of the promises in [results],
    in their order, when the last of them is fulfilled. *)
Definition resolved (q : Pool) : option (list A) :=
  match loop q, pending q with
  | Collected, [] => Some (take (taken q) items)
  | _, _ => None
  end.

(** What is left to do. *)
Definition work (q : Pool) : nat :=
  3 * (length items - taken q) + 2 * length (pending q) + length (settling q)
  + match loop q with
    | Racing _ => 1
    | Collected => 0
    end.

End QueueRun.
End Part001Queue.

(** The report variant: [queueRun(tasks, limit)]. *)
Module Part000Queue.
Section QueueRun.
Context {A : Type}.
Variable tasks : list A.
Variable limit : nat.

Inductive Loop :=
| Racing (race : list nat)               (* in [await Promise.race(executing)] *)
| Gathering (all : list nat)             (* in [await Promise.all(executing)] *)
| Returned (results : list (option A)).  (* [return results] *)

Record Pool := mkPool {
  taken : nat;                    (* the tasks started so far *)
  executing : list nat;           (* the set [executing] *)
  pending : list nat;             (* promises not yet fulfilled *)
  settling : list nat;            (* fulfilled, [finally] callback not yet run *)
  q_results : list (option A);    (* [None] is a hole of the array *)
  loop : Loop
}.

Definition at_loop (l : Loop) (q : Pool) : Pool :=
  {| taken := taken q; executing := executing q; pending := pending q;
     settling := settling q; q_results := q_results q; loop := l |}.

(** [const p = task().then(...); executing.add(p); p.finally(...)] *)
Definition launch (q : Pool) : Pool :=
  {| taken := S (taken q);
     executing := executing q ++ [taken q];
     pending := pending q ++ [taken q];
     settling := settling q;
     q_results := q_results q;
     loop := loop q |}.

(** The [for] loop from the top of an iteration to the next [await]; after
    the last iteration that is [await Promise.all(executing)]. *)
Fixpoint iterate (fuel : nat) (q : Pool) : Pool :=
  match fuel with
  | 0 => q
  | S fuel' =>
    if taken q <? length tasks then
      let q' := launch q in
      if limit <=? length (executing q')
      then at_loop (Racing (executing q')) q'
      else iterate fuel' q'
    else at_loop (Gathering (executing q)) q
  end.

(** The state when the call [queueRun(tasks, limit)] has returned its
    promise: the loop has run from empty sets to its first [await], which
    sets [loop]. *)
Definition start : Pool :=
  iterate (S (length tasks))
    {| taken := 0; executing := []; pending := []; settling := [];
       q_results := []; loop := Gathering [] |}.

(** After [await Promise.race(executing)]: the next iteration, and on. *)
Definition resume (q : Pool) : Pool := iterate (S (length tasks)) q.

(** [res => results[i] = res] has run: promise [i] is fulfilled. *)
Definition on_then (i : nat) (res : A) (q : Pool) : Pool :=
  {| taken := taken q; executing := executing q;
     pending := CheckApi.remove i (pending q);
     settling := settling q ++ [i];
     q_results := CheckApi.store i res (q_results q);
     loop := loop q |}.

(** [() => executing.delete(p)] *)
Definition on_finally (i : nat) (q : Pool) : Pool :=
  {| taken := taken q;
     executing := CheckApi.remove i (executing q);
     pending := pending q;
     settling := CheckApi.remove i (settling q);
     q_results := q_results q;
     loop := loop q |}.

Inductive step : Pool -> Pool -> Prop :=
| step_then q i res :
    In i (pending q) -> tasks !! i = Some res -> step q (on_then i res q)
| step_finally q i :
    In i (settling q) -> step q (on_finally i q)
| step_race q race i :
    loop q = Racing race -> In i race -> ~ In i (executing q) ->
    step q (resume q)
| step_all q all :
    loop q = Gathering all -> (forall i, In i all -> ~ In i (pending q)) ->
    step q (at_loop (Returned (q_results q)) q).

Inductive reachable : Pool -> Prop :=
| reach_start : reachable start
| reach_step q q' : reachable q -> step q q' -> reachable q'.

Definition work (q : Pool) : nat :=
  3 * (length tasks - taken q) + 2 * length (pending q) + length (settling q)
  + match loop q with
    | Racing _ => 2
    | Gathering _ => 1
    | Returned _ => 0
    end.

End QueueRun.
End Part000Queue.

(** What holds of the schedulers between two callbacks. *)
Section PoolInvariants.
Context {A : Type}.
Variables (tasks : list A) (limit : nat).

Record Scan (q : Part001Queue.Pool) : Prop := {
  scan_taken : Part001Queue.taken q <= length tasks;
  scan_nodup : NoDup (Part001Queue.running q);
  scan_started : forall i, In i (Part001Queue.running q) -> i < Part001Queue.taken q;
  scan_running :
    forall i, In i (Part001Queue.running q)
              <-> In i (Part001Queue.pending q) \/ In i (Part001Queue.settling q);
  scan_flight : NoDup (Part001Queue.pending q ++ Part001Queue.settling q);
  scan_limit : length (Part001Queue.running q) <= limit
}.

Definition ScanLoop (q : Part001Queue.Pool) : Prop :=
  match Part001Queue.loop q with
  | Part001Queue.Racing race =>
    Part001Queue.taken q < length tasks
    /\ length race = limit /\ NoDup race
    /\ forall i, In i (Part001Queue.running q) -> In i race
  | Part001Queue.Collected => Part001Queue.taken q = length tasks
  end.

Record Report (q : @Part000Queue.Pool A) : Prop := {
  rep_taken : Part000Queue.taken q <= length tasks;
  rep_nodup : NoDup (Part000Queue.executing q);
  rep_started :
    forall i, In i (Part000Queue.executing q) -> i < Part000Queue.taken q;
  rep_executing :
    forall i, In i (Part000Queue.executing q)
              <-> In i (Part000Queue.pending q) \/ In i (Part000Queue.settling q);
  rep_flight : NoDup (Part000Queue.pending q ++ Part000Queue.settling q);
  rep_limit : length (Part000Queue.executing q) <= Nat.max limit 1;
  rep_results :
    forall i, i < Part000Queue.taken q -> ~ In i (Part000Queue.pending q) ->
    exists v, tasks !! i = Some v
              /\ Part000Queue.q_results q !! i = Some (Some v);
  rep_length : length (Part000Queue.q_results q) <= Part000Queue.taken q
}.

Definition ReportLoop (q : @Part000Queue.Pool A) : Prop :=
  match Part000Queue.loop q with
  | Part000Queue.Racing race =>
    race <> [] /\ length race <= Nat.max limit 1 /\ NoDup race
    /\ forall i, In i (Part000Queue.executing q) -> In i race
  | Part000Queue.Gathering all =>
    Part000Queue.taken q = length tasks
    /\ forall i, In i (Part000Queue.pending q) -> In i all
  | Part000Queue.Returned rs =>
    rs = map Some tasks /\ Part000Queue.taken q = length tasks
    /\ Part000Queue.pending q = []
  end.

End PoolInvariants.
(** ** The run on the history as it was loaded *)

(** [history] is what [JSON.parse] made of the stored block: any value.
    The statements of the main function use it as an array of
    [{ date, results }] records and throw a [TypeError] where it is none.
    Nothing catches that error: the main function is an [async] function
    called without a handler, so the run ends there and no report is
    written. *)
Module Loaded.
Import JS IO.

(** [history.push(day)]: only an array has the method. The array grows in
    place; the value is its elements after the call. *)
Definition push (history day : json) : Completion (list json) :=
  match history with
  | JArr days => Returned (days ++ [day])
  | JNull => Thrown "Cannot read properties of null (reading 'push')"
  | _ => Thrown "history.push is not a function"
  end.

(** [x.api === api], the callback of [find]. *)
Definition api_is (api : string) (x : json) : Completion bool :=
  match x with
  | JNull => Thrown "Cannot read properties of null (reading 'api')"
  | JObj fields =>
    Returned (match obj_get "api" fields with
              | Some (JStr a) => String.eqb a api
              | _ => false
              end)
  | _ => Returned false
  end.

(** [results.find(x => x.api === api)] on an array: the callback runs on
    the elements in order, up to the first one it accepts. *)
Fixpoint find (api : string) (results : list json) : Completion (option json) :=
  match results with
  | [] => Returned None
  | x :: rest =>
    match api_is api x with
    | Thrown m => Thrown m
    | Returned true => Returned (Some x)
    | Returned false => find api rest
    end
  end.

(** [day.results.find(x => x.api === api)] *)
Definition day_find (api : string) (day : json) : Completion (option json) :=
  match day with
  | JNull => Thrown "Cannot read properties of null (reading 'results')"
  | _ =>
    match prop "results" day with
    | Some (JArr results) => find api results
    | Some JNull => Thrown "Cannot read properties of null (reading 'find')"
    | Some _ => Thrown "day.results.find is not a function"
    | None => Thrown "Cannot read properties of undefined (reading 'find')"
    end
  end.

(** [rec.success] used as a condition, for a [rec] that [find] returned. *)
Definition success (rec : json) : bool := truthy (prop "success" rec).

End Loaded.

(** *** [check_api.js] *)
Module CheckApiRun.
Import JS IO.

(** [history.forEach(day => { const rec = ...; if (rec) rec.success ? ok++ : fail++ })] *)
Fixpoint tally (api : string) (days : list json) (ok fail : nat)
    : Completion (nat * nat) :=
  match days with
  | [] => Returned (ok, fail)
  | day :: rest =>
    match Loaded.day_find api day with
    | Thrown m => Thrown m
    | Returned (Some rec) =>
      if Loaded.success rec then tally api rest (S ok) fail
      else tally api rest ok (S fail)
    | Returned None => tally api rest ok fail
    end
  end.

(** The streak loop: [n] is [i + 1] for the loop variable [i]. *)
Fixpoint streak_loop (days : list json) (api : string) (n streak : nat)
    : Completion nat :=
  match n with
  | 0 => Returned streak
  | S i =>
    match days !! i with
    | None => Returned streak
    | Some day =>
      match Loaded.day_find api day with
      | Thrown m => Thrown m
      | Returned None => Returned streak                  (* !rec : break *)
      | Returned (Some rec) =>
        if Loaded.success rec then Returned streak        (* rec.success : break *)
        else streak_loop days api i (S streak)            (* streak++ *)
      end
    end
  end.

(** [days.map(day => { const r = ...; return r ? (r.success ? "✅" : "❌") : "-" })] *)
Fixpoint cells (api : string) (days : list json) : Completion (list string) :=
  match days with
  | [] => Returned []
  | day :: rest =>
    match Loaded.day_find api day with
    | Thrown m => Thrown m
    | Returned r =>
      match cells api rest with
      | Thrown m => Thrown m
      | Returned cs =>
        Returned (match r with
                  | Some rec => if Loaded.success rec then "✅" else "❌"
                  | None => "-"
                  end :: cs)
      end
    end
  end.

(** What one iteration of the loop over [apiEntries] reads from the
    history: [ok], [fail], [streak] and [trend]. The rest of the iteration
    works on these and on [todayResults]. *)
Record Counters := mkCounters {
  c_ok : nat;
  c_fail : nat;
  c_streak : nat;
  c_trend : string
}.

Definition iteration (days : list json) (api : string) : Completion Counters :=
  match tally api days 0 0 with
  | Thrown m => Thrown m
  | Returned (ok, fail) =>
    match streak_loop days api (length days) 0 with
    | Thrown m => Thrown m
    | Returned streak =>
      match cells api (Obj.slice_last 7 days) with
      | Thrown m => Thrown m
      | Returned cs => Returned (mkCounters ok fail streak (join "" cs))
      end
    end
  end.

(** [for (const { name, api, detail, disabled } of apiEntries) { ... }] *)
Fixpoint loop (days : list json) (entries : list CheckApi.Entry)
    : Completion (list Counters) :=
  match entries with
  | [] => Returned []
  | e :: rest =>
    match iteration days (CheckApi.e_api e) with
    | Thrown m => Thrown m
    | Returned c =>
      match loop days rest with
      | Thrown m => Thrown m
      | Returned cs => Returned (c :: cs)
      end
    end
  end.

(** [if (history.length > MAX_DAYS) history = history.slice(-MAX_DAYS)] *)
Definition window (days : list json) : list json :=
  if CheckApi.MAX_DAYS <? length days
  then Obj.slice_last CheckApi.MAX_DAYS days
  else days.

(** The main function from [history.push] to the end of the statistics
    loop, for the history as loaded and the day's record: the history that
    goes into the report, and the counters of each entry. *)
Definition run (history : json) (today : Day) (entries : list CheckApi.Entry)
    : Completion (list json * list Counters) :=
  match Loaded.push history (CheckApi.day_json today) with
  | Thrown m => Thrown m
  | Returned pushed =>
    match loop (window pushed) entries with
    | Thrown m => Thrown m
    | Returned counters => Returned (window pushed, counters)
    end
  end.

End CheckApiRun.

(** *** The first sibling variant *)
Module Part000Run.
Import JS IO.

(** The streak loop: it stops at the first record, from the latest back,
    that holds a success for the endpoint. *)
Fixpoint streak_loop (days : list json) (api : string) (n streak : nat)
    : Completion nat :=
  match n with
  | 0 => Returned streak
  | S i =>
    match days !! i with
    | None => Returned streak
    | Some day =>
      match Loaded.day_find api day with
      | Thrown m => Thrown m
      | Returned (Some r) =>
        if Loaded.success r then Returned streak          (* r && r.success : break *)
        else streak_loop days api i (S streak)
      | Returned None => streak_loop days api i (S streak)
      end
    end
  end.

(** [apiEntries.map(s => { ... })], for what it reads from the history. *)
Fixpoint loop (days : list json) (entries : list Part000.Entry)
    : Completion (list nat) :=
  match entries with
  | [] => Returned []
  | s :: rest =>
    match streak_loop days (Part000.e_api s) (length days) 0 with
    | Thrown m => Thrown m
    | Returned streak =>
      match loop days rest with
      | Thrown m => Thrown m
      | Returned streaks => Returned (streak :: streaks)
      end
    end
  end.

(** [if (history.length > MAX_DAYS) history.shift()] *)
Definition window (days : list json) : list json :=
  if Part000.MAX_DAYS <? length days then drop 1 days else days.

(** From [history.push] to the rows: the history that goes into the report
    and the streak of each entry. *)
Definition run (history : json) (today : Day) (entries : list Part000.Entry)
    : Completion (list json * list nat) :=
  match Loaded.push history (CheckApi.day_json today) with
  | Thrown m => Thrown m
  | Returned pushed =>
    match loop (window pushed) entries with
    | Thrown m => Thrown m
    | Returned streaks => Returned (window pushed, streaks)
    end
  end.

End Part000Run.

(** The counters of [check_api.js] for a history of day records. *)
Definition counters (history : History) (api : string) : CheckApiRun.Counters :=
  CheckApiRun.mkCounters (CheckApi.count_ok history api)
                         (CheckApi.count_fail history api)
                         (CheckApi.streak history api)
                         (CheckApiStats.trend history api).

(** The lookup of an endpoint in that record goes through. *)
Definition searchable (api : string) (day : JS.json) : Prop :=
  exists r, Loaded.day_find api day = IO.Returned r.


(** * Properties *)

(** ** The history window *)

Lemma count_while_le {A} (p : A -> bool) l : count_while p l <= length l.
Proof. induction l as [|x l IH]; simpl; [lia|]. destruct (p x); simpl; lia. Qed.

Lemma reverse_take_S {A} (l : list A) i x :
  l !! i = Some x -> reverse (take (S i) l) = x :: reverse (take i l).
Proof.
  intros H. rewrite (take_S_r _ _ _ H), reverse_app. reflexivity.
Qed.

Lemma checkapi_streak_loop history api n acc :
  n <= length history ->
  CheckApi.streak_loop history api n acc
  = acc + count_while (failed api) (reverse (take n history)).
Proof.
  revert acc. induction n as [|i IH]; intros acc Hn.
  - simpl. lia.
  - destruct (lookup_lt_is_Some_2 history i ltac:(lia)) as [day Hday].
    cbn [CheckApi.streak_loop].
    rewrite Hday, (reverse_take_S _ _ _ Hday). cbn [count_while].
    unfold failed at 1.
    destruct (find_api api (results day)) as [r|]; [|lia].
    destruct (r_success r); cbn [negb]; [lia|].
    rewrite IH by lia. lia.
Qed.

Lemma part000_streak_loop history api n acc :
  n <= length history ->
  Part000.streak_loop history api n acc
  = acc + count_while (fun day => negb (succeeded api day)) (reverse (take n history)).
Proof.
  revert acc. induction n as [|i IH]; intros acc Hn.
  - simpl. lia.
  - destruct (lookup_lt_is_Some_2 history i ltac:(lia)) as [day Hday].
    cbn [Part000.streak_loop].
    rewrite Hday, (reverse_take_S _ _ _ Hday). cbn [count_while].
    unfold succeeded at 1.
    destruct (find_api api (results day)) as [r|]; cbn [opt_success negb].
    + destruct (r_success r); cbn [negb]; [lia|]. rewrite IH by lia. lia.
    + rewrite IH by lia. lia.
Qed.

Lemma checkapi_streak_eq history api :
  CheckApi.streak history api = count_while (failed api) (reverse history).
Proof.
  unfold CheckApi.streak. rewrite checkapi_streak_loop by lia.
  rewrite firstn_all. reflexivity.
Qed.

Lemma part000_streak_eq history api :
  Part000.streak history api = streak_spec history api.
Proof.
  unfold Part000.streak, streak_spec. rewrite part000_streak_loop by lia.
  rewrite firstn_all. reflexivity.
Qed.

(** C1, as amended: the sibling variant counts a record without an outcome
    for the endpoint, as the specification says; [check_api.js] counts only
    recorded failures and stops at the first record that has a successful
    outcome or no outcome for the endpoint. *)
Theorem streak_walks_back_from_latest (history : History) (api : string) :
  Part000.streak history api
    = count_while (fun day => negb (succeeded api day)) (reverse history)
  /\ CheckApi.streak history api
    = count_while (failed api) (reverse history).
Proof.
  split; [apply part000_streak_eq | apply checkapi_streak_eq].
Qed.

(** C1, counterexample: one record that does not mention the endpoint. The
    specification's streak is 1, [check_api.js] computes 0. *)
Lemma streak_missing_record_breaks :
  let history := [mkDay "2024-01-01" []] in
  streak_spec history "http://a" = 1
  /\ CheckApi.streak history "http://a" = 0.
Proof. split; reflexivity. Qed.

Lemma checkapi_append_window (history : History) (day : Day) :
  CheckApi.append history day
    = drop (length history + 1 - CheckApi.MAX_DAYS) (history ++ [day])
  /\ last (CheckApi.append history day) = Some day
  /\ length (CheckApi.append history day)
     = Nat.min (length history + 1) CheckApi.MAX_DAYS.
Proof.
  assert (Hlen : length (history ++ [day]) = length history + 1)
    by (rewrite length_app; reflexivity).
  assert (Heq : CheckApi.append history day
    = drop (length history + 1 - CheckApi.MAX_DAYS) (history ++ [day])).
  { unfold CheckApi.append. cbv zeta. rewrite Hlen.
    destruct (Nat.ltb_spec CheckApi.MAX_DAYS (length history + 1)) as [H|H].
    - reflexivity.
    - replace (length history + 1 - CheckApi.MAX_DAYS) with 0 by lia.
      reflexivity. }
  split; [exact Heq|]. split.
  - rewrite Heq, drop_app_le by (unfold CheckApi.MAX_DAYS; lia).
    apply last_snoc.
  - rewrite Heq, length_drop, Hlen. unfold CheckApi.MAX_DAYS. lia.
Qed.

(** The sibling variant drops one record per run: the same window whenever
    the stored history respects the bound. *)
Lemma part000_append_agrees (history : History) (day : Day) :
  length history <= Part000.MAX_DAYS ->
  Part000.append history day = CheckApi.append history day.
Proof.
  intros Hle. unfold Part000.append, CheckApi.append. cbv zeta.
  rewrite length_app. cbn [length].
  change Part000.MAX_DAYS with CheckApi.MAX_DAYS in *.
  destruct (Nat.ltb_spec CheckApi.MAX_DAYS (length history + 1)) as [H|H];
    [|reflexivity].
  replace (length history + 1 - CheckApi.MAX_DAYS) with 1 by lia.
  reflexivity.
Qed.

Lemma part000_append_window (history : History) (day : Day) :
  Part000.append history day
    = drop (Nat.min 1 (length history + 1 - Part000.MAX_DAYS)) (history ++ [day])
  /\ last (Part000.append history day) = Some day
  /\ length (Part000.append history day)
     = Nat.max (length history) (Nat.min (length history + 1) Part000.MAX_DAYS).
Proof.
  assert (Hlen : length (history ++ [day]) = length history + 1)
    by (rewrite length_app; reflexivity).
  assert (Heq : Part000.append history day
    = drop (Nat.min 1 (length history + 1 - Part000.MAX_DAYS)) (history ++ [day])).
  { unfold Part000.append. cbv zeta. rewrite Hlen.
    destruct (Nat.ltb_spec Part000.MAX_DAYS (length history + 1)) as [H|H].
    - replace (Nat.min 1 (length history + 1 - Part000.MAX_DAYS)) with 1 by lia.
      reflexivity.
    - replace (Nat.min 1 (length history + 1 - Part000.MAX_DAYS)) with 0 by lia.
      reflexivity. }
  split; [exact Heq|]. split.
  - rewrite Heq, drop_app_le by (unfold Part000.MAX_DAYS; lia).
    apply last_snoc.
  - rewrite Heq, length_drop, Hlen. unfold Part000.MAX_DAYS. lia.
Qed.

(** C4, as amended: both scripts put the day's record at the end. Then
    [check_api.js] keeps the last [MAX_DAYS] records, whatever the length of
    the stored history, and so never holds more than [MAX_DAYS]. The
    sibling variant drops the oldest record, one and no more, when the
    length exceeds [MAX_DAYS]: it holds the same window as [check_api.js],
    and at most [MAX_DAYS] records, exactly when the stored history had at
    most [MAX_DAYS] records; a longer stored history keeps its length. *)
Theorem append_keeps_last_max_days (history : History) (day : Day) :
  (CheckApi.append history day
     = drop (length history + 1 - CheckApi.MAX_DAYS) (history ++ [day])
   /\ last (CheckApi.append history day) = Some day
   /\ length (CheckApi.append history day)
      = Nat.min (length history + 1) CheckApi.MAX_DAYS
   /\ length (CheckApi.append history day) <= CheckApi.MAX_DAYS)
  /\ (Part000.append history day
        = drop (Nat.min 1 (length history + 1 - Part000.MAX_DAYS))
               (history ++ [day])
      /\ last (Part000.append history day) = Some day
      /\ length (Part000.append history day)
         = Nat.max (length history)
                   (Nat.min (length history + 1) Part000.MAX_DAYS)
      /\ (length (Part000.append history day) <= Part000.MAX_DAYS
          <-> length history <= Part000.MAX_DAYS)
      /\ (Part000.append history day = CheckApi.append history day
          <-> length history <= Part000.MAX_DAYS)).
Proof.
  destruct (checkapi_append_window history day) as (Heq & Hlast & Hlen).
  destruct (part000_append_window history day) as (Heq' & Hlast' & Hlen').
  split; [|split; [|split; [|split; [|split]]]].
  - split; [exact Heq|]. split; [exact Hlast|]. split; [exact Hlen|]. lia.
  - exact Heq'.
  - exact Hlast'.
  - exact Hlen'.
  - rewrite Hlen'. unfold Part000.MAX_DAYS. lia.
  - split; [|apply part000_append_agrees].
    intros H. apply (f_equal length) in H. rewrite Hlen, Hlen' in H.
    unfold Part000.MAX_DAYS, CheckApi.MAX_DAYS in *. lia.
Qed.

(** C4, counterexample: a stored history of 31 records. After the run the
    sibling variant still holds 31 records, one more than [MAX_DAYS], where
    [check_api.js] holds 30. *)
Lemma shift_leaves_long_history_long :
  let history := replicate 31 (mkDay "2024-01-01" []) in
  let day := mkDay "2024-02-01" [] in
  length (Part000.append history day) = 31
  /\ Part000.MAX_DAYS = 30
  /\ length (CheckApi.append history day) = 30.
Proof. repeat split; reflexivity. Qed.

(** ** The classifier *)

(** C5: both scripts assign the status by the specification's priority
    list, with [WARN_STREAK = 3]. A source configured with [enabled: false]
    is [DISABLED] whatever else holds; any other source is [CRITICAL] when
    the streak is [WARN_STREAK] or more, whatever today's outcome; below
    that it is [HEALTHY] when the latest outcome is there and is a success,
    and [DOWN] when the latest outcome is a failure or is missing. *)
Theorem classify_follows_priority
    (s : Source) (latest : option Result) (streak : nat) :
  (CheckApi.WARN_STREAK = 3 /\ Part000.WARN_STREAK = 3)
  /\ (s_enabled s = Some false ->
      CheckApi.classify (CheckApi.e_disabled (CheckApi.apiEntry s)) latest streak
        = DISABLED
      /\ Part000.classify (Part000.e_disabled (Part000.apiEntry s)) latest streak
        = DISABLED)
  /\ (s_enabled s <> Some false -> CheckApi.WARN_STREAK <= streak ->
      CheckApi.classify (CheckApi.e_disabled (CheckApi.apiEntry s)) latest streak
        = CRITICAL
      /\ Part000.classify (Part000.e_disabled (Part000.apiEntry s)) latest streak
        = CRITICAL)
  /\ (s_enabled s <> Some false -> streak < CheckApi.WARN_STREAK ->
      (exists r, latest = Some r /\ r_success r = true) ->
      CheckApi.classify (CheckApi.e_disabled (CheckApi.apiEntry s)) latest streak
        = HEALTHY
      /\ Part000.classify (Part000.e_disabled (Part000.apiEntry s)) latest streak
        = HEALTHY)
  /\ (s_enabled s <> Some false -> streak < CheckApi.WARN_STREAK ->
      (latest = None \/ exists r, latest = Some r /\ r_success r = false) ->
      CheckApi.classify (CheckApi.e_disabled (CheckApi.apiEntry s)) latest streak
        = DOWN
      /\ Part000.classify (Part000.e_disabled (Part000.apiEntry s)) latest streak
        = DOWN).
Proof.
  unfold CheckApi.classify, Part000.classify,
    CheckApi.WARN_STREAK, Part000.WARN_STREAK.
  cbn [CheckApi.e_disabled CheckApi.apiEntry Part000.e_disabled Part000.apiEntry].
  split; [split; reflexivity|].
  split; [intros ->; split; reflexivity|].
  assert (Hen : s_enabled s <> Some false ->
                match s_enabled s with Some false => true | _ => false end
                = false)
    by (destruct (s_enabled s) as [[|]|]; congruence).
  split; [|split].
  - intros H Hs. rewrite (Hen H).
    destruct (Nat.leb_spec 3 streak); [split; reflexivity | lia].
  - intros H Hs (r & -> & Hr). rewrite (Hen H).
    destruct (Nat.leb_spec 3 streak); [lia|].
    cbn [opt_success]. rewrite Hr. split; reflexivity.
  - intros H Hs Hl. rewrite (Hen H).
    destruct (Nat.leb_spec 3 streak); [lia|].
    destruct Hl as [->|(r & -> & Hr)]; cbn [opt_success]; rewrite ?Hr;
      split; reflexivity.
Qed.

Lemma classify_follows_priority_witness :
  let s := mkSource (Some "a") (Some "A") "http://a" None None in
  let reached := mkResult (Some "A") "http://a" true "-" in
  s_enabled s <> Some false
  /\ 2 < CheckApi.WARN_STREAK
  /\ CheckApi.classify (CheckApi.e_disabled (CheckApi.apiEntry s))
                       (Some reached) 2 = HEALTHY
  /\ Part000.classify (Part000.e_disabled (Part000.apiEntry s))
                      (Some reached) 2 = HEALTHY.
Proof.
  split; [discriminate|]. split; [unfold CheckApi.WARN_STREAK; lia|].
  apply (proj1 (proj2 (proj2 (proj2
           (classify_follows_priority
              (mkSource (Some "a") (Some "A") "http://a" None None)
              (Some (mkResult (Some "A") "http://a" true "-")) 2))))).
  - discriminate.
  - unfold CheckApi.WARN_STREAK. lia.
  - eexists. split; reflexivity.
Defined.

(** ** Probing *)

Section Probe.
Import IO.

Lemma requests_get (log : Log) url reply :
  requests (log ++ [Get url reply]) = S (requests log).
Proof.
  unfold requests. rewrite List.filter_app, length_app. simpl. lia.
Qed.

Lemma requests_delay (log : Log) ms :
  requests (log ++ [Delay ms]) = requests log.
Proof.
  unfold requests. rewrite List.filter_app, length_app. simpl. lia.
Qed.

Lemma bind_get {B} url (k : Reply -> Async B) net log :
  bind (axios_get url) k net log
  = k (net log url) net (log ++ [Get url (net log url)]).
Proof. reflexivity. Qed.

Lemma bind_delay {B} ms (k : unit -> Async B) net log :
  bind (delay ms) k net log = k tt net (log ++ [Delay ms]).
Proof. reflexivity. Qed.

Lemma bind_run {A B} (m : Async A) (k : A -> Async B) net log :
  bind m k net log = k (fst (m net log)) net (snd (m net log)).
Proof. unfold bind. destruct (m net log). reflexivity. Qed.

Lemma bind_ret {A B} (a : A) (k : A -> Async B) net log :
  bind (ret a) k net log = k a net log.
Proof. reflexivity. Qed.

Lemma checkapi_safeGet_rejected net url :
  all_rejected net ->
  forall fuel attempt log,
    attempt + fuel = S CheckApi.MAX_RETRY ->
    fst (CheckApi.safeGet_loop fuel attempt url net log) = false
    /\ requests (snd (CheckApi.safeGet_loop fuel attempt url net log))
       = requests log + fuel.
Proof.
  intros Hnet. induction fuel as [|fuel IH]; intros attempt log Hsum.
  - simpl. split; [reflexivity | lia].
  - cbn [CheckApi.safeGet_loop].
    replace (attempt <=? CheckApi.MAX_RETRY) with true
      by (symmetry; apply Nat.leb_le; lia).
    rewrite bind_get.
    destruct (Hnet log url) as [m ->].
    destruct (Nat.ltb_spec attempt CheckApi.MAX_RETRY) as [Hlt|Hge].
    + rewrite bind_delay.
      destruct (IH (S attempt)
        ((log ++ [Get url (Rejected m)]) ++ [Delay CheckApi.RETRY_DELAY_MS])
        ltac:(lia)) as [H1 H2].
      split; [exact H1|].
      rewrite H2, requests_delay, requests_get. lia.
    + assert (fuel = 0) by lia. subst fuel. unfold ret. simpl.
      split; [reflexivity|]. rewrite requests_get. lia.
Qed.

Lemma checkapi_testSearch_rejected net api keyword :
  all_rejected net ->
  forall fuel attempt log,
    attempt + fuel = S CheckApi.MAX_RETRY ->
    fst (CheckApi.testSearch_loop fuel attempt api keyword net log) = "❌"%string
    /\ requests (snd (CheckApi.testSearch_loop fuel attempt api keyword net log))
       = requests log + fuel.
Proof.
  intros Hnet. induction fuel as [|fuel IH]; intros attempt log Hsum.
  - simpl. split; [reflexivity | lia].
  - cbn [CheckApi.testSearch_loop].
    replace (attempt <=? CheckApi.MAX_RETRY) with true
      by (symmetry; apply Nat.leb_le; lia).
    rewrite bind_get.
    destruct (Hnet log (api +:+ "?wd=" +:+ encodeURIComponent keyword)) as [m ->].
    destruct (Nat.ltb_spec attempt CheckApi.MAX_RETRY) as [Hlt|Hge].
    + rewrite bind_delay.
      match goal with
      | |- context [CheckApi.testSearch_loop fuel (S attempt) api keyword net ?l] =>
        destruct (IH (S attempt) l ltac:(lia)) as [H1 H2]
      end.
      split; [exact H1|].
      rewrite H2, requests_delay, requests_get. lia.
    + assert (fuel = 0) by lia. subst fuel. unfold ret. simpl.
      split; [reflexivity|]. rewrite requests_get. lia.
Qed.

Lemma part000_safeGet_rejected net url :
  all_rejected net ->
  forall fuel i log,
    i + fuel = S Part000.MAX_RETRY ->
    fst (Part000.safeGet_loop fuel i url net log) = false
    /\ requests (snd (Part000.safeGet_loop fuel i url net log))
       = requests log + fuel.
Proof.
  intros Hnet. induction fuel as [|fuel IH]; intros i log Hsum.
  - simpl. split; [reflexivity | lia].
  - cbn [Part000.safeGet_loop].
    replace (i <=? Part000.MAX_RETRY) with true
      by (symmetry; apply Nat.leb_le; lia).
    rewrite bind_get.
    destruct (Hnet log url) as [m ->].
    destruct (Nat.ltb_spec i Part000.MAX_RETRY) as [Hlt|Hge];
      [rewrite bind_delay | rewrite bind_ret].
    + match goal with
      | |- context [Part000.safeGet_loop fuel (S i) url net ?l] =>
        destruct (IH (S i) l ltac:(lia)) as [H1 H2]
      end.
      split; [exact H1|].
      rewrite H2, requests_delay, requests_get. lia.
    + match goal with
      | |- context [Part000.safeGet_loop fuel (S i) url net ?l] =>
        destruct (IH (S i) l ltac:(lia)) as [H1 H2]
      end.
      split; [exact H1|].
      rewrite H2, requests_get. lia.
Qed.

Lemma part001_attempt_rejected net keyword url reason log :
  all_rejected net ->
  exists m,
    Part001.attempt keyword url reason net log
    = (Thrown m, log ++ [Get url (Rejected m)]).
Proof.
  intros Hnet. unfold Part001.attempt. rewrite bind_get.
  destruct (Hnet log url) as [m Hm]. exists m. rewrite Hm. reflexivity.
Qed.

Lemma part001_testSource_rejected net keyword url :
  all_rejected net ->
  forall fuel n reason log,
    n + fuel = S Part001.MAX_RETRY ->
    Part001.success (fst (Part001.testSource_loop fuel n keyword url reason net log))
      = false
    /\ requests (snd (Part001.testSource_loop fuel n keyword url reason net log))
       = requests log + fuel.
Proof.
  intros Hnet. induction fuel as [|fuel IH]; intros n reason log Hsum.
  - simpl. split; [reflexivity | lia].
  - cbn [Part001.testSource_loop].
    replace (n <=? Part001.MAX_RETRY) with true
      by (symmetry; apply Nat.leb_le; lia).
    rewrite bind_run.
    destruct (part001_attempt_rejected net keyword url reason log Hnet) as [m ->].
    cbn [fst snd].
    destruct (n <? Part001.MAX_RETRY); [rewrite bind_delay | rewrite bind_ret];
      match goal with
      | |- context [Part001.testSource_loop fuel (S n) keyword url m net ?l] =>
        destruct (IH (S n) m l ltac:(lia)) as [H1 H2]
      end;
      (split; [exact H1|]);
      rewrite H2, ?requests_delay, requests_get; lia.
Qed.

(** An attempt of the quality scan starts with a request to the URL it is
    given, and the retry loop only ever adds to the log. *)
Lemma part001_attempt_log net keyword url reason log :
  exists rest,
    snd (Part001.attempt keyword url reason net log)
    = log ++ Get url (net log url) :: rest.
Proof.
  unfold Part001.attempt. rewrite bind_get.
  destruct (net log url) as [m|status data].
  - exists []. reflexivity.
  - destruct (negb (status =? 200)%Z); [exists []; reflexivity|].
    rewrite bind_get.
    match goal with
    | |- context [Get ?u (net ?l ?u)] =>
      exists [Get u (net l u)]; destruct (net l u) as [m|status' data']
    end.
    + cbn [ret snd]. rewrite <- app_assoc. reflexivity.
    + destruct (Part001.inspect data' reason) as [reason'|m];
        [destruct (negb (JS.is_empty reason'))|];
        cbn [ret snd]; rewrite <- app_assoc; reflexivity.
Qed.

Lemma part001_testSource_loop_log net keyword url :
  forall fuel n reason log,
    exists rest,
      snd (Part001.testSource_loop fuel n keyword url reason net log)
      = log ++ rest.
Proof.
  induction fuel as [|fuel IH]; intros n reason log.
  - exists []. cbn. rewrite app_nil_r. reflexivity.
  - cbn [Part001.testSource_loop].
    destruct (n <=? Part001.MAX_RETRY);
      [|exists []; cbn; rewrite app_nil_r; reflexivity].
    rewrite bind_run.
    destruct (part001_attempt_log net keyword url reason log) as [r1 H1].
    rewrite H1.
    destruct (fst (Part001.attempt keyword url reason net log)) as [v|m].
    + eexists. reflexivity.
    + destruct (n <? Part001.MAX_RETRY); [rewrite bind_delay | rewrite bind_ret];
        match goal with
        | |- context [Part001.testSource_loop fuel (S n) keyword url m net ?l] =>
          destruct (IH (S n) m l) as [r2 H2]; rewrite H2
        end; rewrite <- ?app_assoc; eexists; reflexivity.
Qed.

Lemma part001_testSource_loop_first net keyword url :
  forall fuel n reason log,
    n <= Part001.MAX_RETRY ->
    exists rest,
      snd (Part001.testSource_loop (S fuel) n keyword url reason net log)
      = log ++ Get url (net log url) :: rest.
Proof.
  intros fuel n reason log Hn.
  cbn [Part001.testSource_loop].
  replace (n <=? Part001.MAX_RETRY) with true
    by (symmetry; apply Nat.leb_le; exact Hn).
  rewrite bind_run.
  destruct (part001_attempt_log net keyword url reason log) as [r1 H1].
  rewrite H1.
  destruct (fst (Part001.attempt keyword url reason net log)) as [v|m].
  - eexists. reflexivity.
  - destruct (n <? Part001.MAX_RETRY); [rewrite bind_delay | rewrite bind_ret];
      match goal with
      | |- context [Part001.testSource_loop fuel (S n) keyword url m net ?l] =>
        destruct (part001_testSource_loop_log net keyword url fuel (S n) m l)
          as [r2 H2]; rewrite H2
      end; rewrite <- !app_assoc; eexists; reflexivity.
Qed.

Lemma part001_testSource_first_request keyword (s : Source) net log :
  exists rest,
    snd (Part001.testSource keyword s net log)
    = log ++ Get (s_baseUrl s) (net log (s_baseUrl s)) :: rest.
Proof.
  unfold Part001.testSource.
  change Part001.MAX_RETRY with (S 1) at 1.
  apply part001_testSource_loop_first. unfold Part001.MAX_RETRY. lia.
Qed.

End Probe.

(** C2, as amended: for a source configured with [enabled: false], the
    task of [check_api.js] and the task of its first sibling return at once,
    with [success: false] and the search status ["禁用"], and leave the log
    as it was: no request, no delay. The quality scan has no such gate:
    [testSource] reads nothing but the URL of the source, so it probes a
    disabled source as it would probe the same source enabled, starting
    with a request to its URL. *)
Theorem disabled_source_is_not_probed
    (keyword : string) (s : Source) (net : IO.Network) (log : IO.Log) :
  s_enabled s = Some false ->
  CheckApi.task keyword (CheckApi.apiEntry s) net log
    = (mkResult (s_name s) (s_baseUrl s) false "禁用", log)
  /\ Part000.task keyword (Part000.apiEntry s) net log
    = (mkResult None (s_baseUrl s) false "禁用", log)
  /\ (exists rest,
        snd (Part001.testSource keyword s net log)
        = log ++ IO.Get (s_baseUrl s) (net log (s_baseUrl s)) :: rest)
  /\ (forall s' : Source,
        s_baseUrl s' = s_baseUrl s ->
        Part001.testSource keyword s' net log
        = Part001.testSource keyword s net log).
Proof.
  intros Hen. split; [|split; [|split]].
  - unfold CheckApi.task. simpl. rewrite Hen. reflexivity.
  - unfold Part000.task. simpl. rewrite Hen. reflexivity.
  - apply part001_testSource_first_request.
  - intros s' Hs. unfold Part001.testSource. rewrite Hs. reflexivity.
Qed.

Lemma disabled_source_is_not_probed_witness :
  let s := mkSource (Some "a") (Some "A") "http://a" None (Some false) in
  let net : IO.Network := fun _ _ => IO.Response 200 JS.JNull in
  s_enabled s = Some false
  /\ CheckApi.task "k" (CheckApi.apiEntry s) net []
    = (mkResult (Some "A") "http://a" false "禁用", [])
  /\ Part000.task "k" (Part000.apiEntry s) net []
    = (mkResult None "http://a" false "禁用", []).
Proof.
  split; [reflexivity|].
  pose proof (disabled_source_is_not_probed "k"
           (mkSource (Some "a") (Some "A") "http://a" None (Some false))
           (fun _ _ => IO.Response 200 JS.JNull) [] eq_refl)
    as (H1 & H2 & _).
  split; [exact H1 | exact H2].
Defined.

(** C2, counterexample: a source configured with [enabled: false] that
    answers every request with a clean listing. The quality scan sends it
    two requests and passes it. *)
Lemma scan_probes_disabled_source :
  let s := mkSource (Some "a") (Some "A") "http://a" None (Some false) in
  let listing :=
    JS.JObj [("list"%string,
              JS.JArr [JS.JObj [("vod_name"%string, JS.JStr "film")]])] in
  let net : IO.Network := fun _ _ => IO.Response 200 listing in
  s_enabled s = Some false
  /\ Part001.testSource "k" s net []
     = (Part001.mkVerdict true "正常",
        [IO.Get "http://a" (IO.Response 200 listing);
         IO.Get "http://a?ac=detail&wd=k" (IO.Response 200 listing)])
  /\ IO.requests (snd (Part001.testSource "k" s net [])) = 2.
Proof. repeat split; reflexivity. Qed.

(** C3, as amended: when every request is rejected, each retry loop makes
    exactly [MAX_RETRY] requests and the outcome is a failure; the task of
    [check_api.js] runs the connectivity loop and then the search loop,
    [2 * MAX_RETRY] requests in all, while the two sibling variants stop
    after [MAX_RETRY]. *)
Theorem rejected_probe_request_count
    (keyword : string) (s : Source) (net : IO.Network) (log : IO.Log) :
  all_rejected net ->
  s_enabled s <> Some false ->
  (fst (CheckApi.safeGet (s_baseUrl s) net log) = false
   /\ IO.requests (snd (CheckApi.safeGet (s_baseUrl s) net log))
      = IO.requests log + CheckApi.MAX_RETRY)
  /\ (r_success (fst (CheckApi.task keyword (CheckApi.apiEntry s) net log)) = false
      /\ IO.requests (snd (CheckApi.task keyword (CheckApi.apiEntry s) net log))
         = IO.requests log + 2 * CheckApi.MAX_RETRY)
  /\ (r_success (fst (Part000.task keyword (Part000.apiEntry s) net log)) = false
      /\ IO.requests (snd (Part000.task keyword (Part000.apiEntry s) net log))
         = IO.requests log + Part000.MAX_RETRY)
  /\ (Part001.success (fst (Part001.testSource keyword s net log)) = false
      /\ IO.requests (snd (Part001.testSource keyword s net log))
         = IO.requests log + Part001.MAX_RETRY).
Proof.
  intros Hnet Hen.
  assert (Hc : CheckApi.e_disabled (CheckApi.apiEntry s) = false).
  { simpl. destruct (s_enabled s) as [[|]|]; congruence. }
  assert (Hp : Part000.e_disabled (Part000.apiEntry s) = false).
  { simpl. destruct (s_enabled s) as [[|]|]; congruence. }
  pose proof (checkapi_safeGet_rejected net (s_baseUrl s) Hnet
                CheckApi.MAX_RETRY 1 log ltac:(lia)) as [Hg1 Hg2].
  split; [split; assumption|].
  split; [|split].
  - pose proof (checkapi_testSearch_rejected net (s_baseUrl s) keyword Hnet
                  CheckApi.MAX_RETRY 1
                  (snd (CheckApi.safeGet (s_baseUrl s) net log))
                  ltac:(lia)) as [_ Hs2].
    unfold CheckApi.task. rewrite Hc, !bind_run.
    change (CheckApi.e_api (CheckApi.apiEntry s)) with (s_baseUrl s).
    unfold IO.ret. cbn [fst snd r_success CheckApi.ENABLE_SEARCH_TEST].
    split; [exact Hg1|].
    unfold CheckApi.testSearch. rewrite Hs2. unfold CheckApi.safeGet.
    rewrite Hg2. lia.
  - pose proof (part000_safeGet_rejected net (s_baseUrl s) Hnet
                  Part000.MAX_RETRY 1 log ltac:(lia)) as [H1 H2].
    unfold Part000.task. rewrite Hp, !bind_run.
    change (Part000.e_api (Part000.apiEntry s)) with (s_baseUrl s).
    unfold Part000.safeGet. rewrite H1.
    unfold IO.ret. cbn [fst snd r_success andb].
    split; [reflexivity | exact H2].
  - unfold Part001.testSource.
    apply (part001_testSource_rejected net keyword (s_baseUrl s) Hnet);
      reflexivity.
Qed.

Lemma rejected_probe_request_count_witness :
  let s := mkSource (Some "a") (Some "A") "http://a" None None in
  let net : IO.Network := fun _ _ => IO.Rejected "timeout" in
  IO.requests (snd (CheckApi.task "k" (CheckApi.apiEntry s) net []))
    = 0 + 2 * CheckApi.MAX_RETRY
  /\ IO.requests (snd (Part001.testSource "k" s net []))
    = 0 + Part001.MAX_RETRY.
Proof.
  pose proof (rejected_probe_request_count "k"
    (mkSource (Some "a") (Some "A") "http://a" None None)
    (fun _ _ => IO.Rejected "timeout") []
    (fun _ _ => ex_intro _ "timeout"%string eq_refl)
    ltac:(discriminate)) as (_ & (_ & H2) & _ & (_ & H4)).
  split; [exact H2 | exact H4].
Defined.

(** C3, counterexample: an enabled source whose every request times out.
    The task of [check_api.js] makes six requests, not [MAX_RETRY = 3]. *)
Lemma rejected_probe_makes_six_requests :
  let s := mkSource (Some "a") (Some "A") "http://a" None None in
  let net : IO.Network := fun _ _ => IO.Rejected "timeout" in
  all_rejected net
  /\ r_success (fst (CheckApi.task "k" (CheckApi.apiEntry s) net [])) = false
  /\ IO.requests (snd (CheckApi.task "k" (CheckApi.apiEntry s) net [])) = 6
  /\ CheckApi.MAX_RETRY = 3.
Proof.
  split; [intros log url; exists "timeout"%string; reflexivity|].
  repeat split; reflexivity.
Qed.

(** ** The pollution check of the quality scan *)

Lemma string_length_append (s t : string) :
  String.length (s +:+ t) = String.length s + String.length t.
Proof. induction s as [|c s IH]; simpl; [reflexivity | rewrite IH; reflexivity]. Qed.

Lemma string_append_ne (s t : string) : t <> EmptyString -> s <> s +:+ t.
Proof.
  intros Ht Heq. apply (f_equal String.length) in Heq.
  rewrite string_length_append in Heq.
  destruct t; [congruence | simpl in Heq; lia].
Qed.

Lemma search_url_ne keyword item : s_baseUrl item <> search_url keyword item.
Proof. apply string_append_ne. discriminate. Qed.

Lemma includes_marker_nonempty name :
  existsb (fun k => JS.includes name k) Part001.POLLUTED_KEYWORDS = true ->
  JS.is_empty name = false.
Proof. destruct name; [discriminate | reflexivity]. Qed.

Lemma inspect_first_item_polluted data reason :
  first_item_polluted data = true ->
  Part001.inspect data reason = IO.Returned POLLUTED_REASON.
Proof.
  unfold first_item_polluted, polluted_name. intros H.
  destruct data as [| | | |fields]; try discriminate.
  unfold Part001.inspect. cbn [JS.truthy].
  destruct (JS.prop "list" (JS.JObj fields)) as [[| | |[|item items]|]|];
    try discriminate.
  cbn [JS.truthy negb Part001.length_is_zero Part001.first_item].
  destruct item as [| | | |ifields]; try discriminate.
  unfold Part001.sample_name.
  destruct (JS.prop "vod_name" (JS.JObj ifields)) as [[| |name| |]|];
    try discriminate.
  pose proof (includes_marker_nonempty name H) as Hne.
  destruct name as [|c name]; [discriminate|].
  cbn [JS.truthy String.eqb negb Part001.polluted].
  rewrite H. reflexivity.
Qed.

(** Once [errorReason] is set, the checks of a later attempt cannot clear
    it. *)
Lemma inspect_keeps_reason data reason r :
  JS.is_empty reason = false ->
  Part001.inspect data reason = IO.Returned r ->
  JS.is_empty r = false.
Proof.
  intros Hne. unfold Part001.inspect.
  repeat case_match; intros [= <-]; first [reflexivity | exact Hne].
Qed.

Section Attempt.
Import IO.
Variables (keyword : string) (item : Source) (net : Network).

Abbreviation url := (s_baseUrl item).
Abbreviation surl := (search_url keyword item).

Lemma attempt_runs reason log :
  attempt_run keyword item reason log
    (fst (Part001.attempt keyword url reason net log))
    (snd (Part001.attempt keyword url reason net log)).
Proof.
  unfold Part001.attempt. rewrite bind_get.
  destruct (net log url) as [m|status d]; [apply run_ping_rejected|].
  destruct (Z.eqb_spec status 200) as [->|Hne]; cbn [negb].
  - rewrite bind_get. fold (search_url keyword item).
    destruct (net (log ++ [Get url (Response 200 d)]) surl) as [m|st data].
    + apply run_search_rejected.
    + pose proof (run_search_response keyword item reason log d st data) as H.
      destruct (Part001.inspect data reason) as [r|m]; [|exact H].
      destruct (JS.is_empty r); exact H.
  - apply run_ping_status. apply Z.eqb_neq. exact Hne.
Qed.

End Attempt.

(** The two attempts of [testSource], spelled out. *)
Lemma testSource_unfold keyword item net log :
  Part001.testSource keyword item net log =
  let a1 := Part001.attempt keyword (s_baseUrl item) EmptyString net log in
  match fst a1 with
  | IO.Returned v => (v, snd a1)
  | IO.Thrown m1 =>
    let a2 := Part001.attempt keyword (s_baseUrl item) m1 net
                (snd a1 ++ [IO.Delay 1000]) in
    match fst a2 with
    | IO.Returned v => (v, snd a2)
    | IO.Thrown m2 => (Part001.mkVerdict false m2, snd a2)
    end
  end.
Proof.
  unfold Part001.testSource. cbn [Part001.testSource_loop Part001.MAX_RETRY
    Nat.leb Nat.ltb].
  rewrite bind_run. cbv zeta.
  destruct (fst (Part001.attempt keyword (s_baseUrl item) EmptyString net log))
    as [v|m1]; [reflexivity|].
  rewrite bind_delay, bind_run.
  destruct (fst (Part001.attempt keyword (s_baseUrl item) m1 net _))
    as [v|m2]; reflexivity.
Qed.

(** A request to the base URL is not the search request. *)
Ltac not_search_event :=
  match goal with
  | H : IO.Get (s_baseUrl ?item) _ = IO.Get (search_url ?k ?item) _ |- _ =>
    exfalso; injection H as H _; exact (search_url_ne k item H)
  | H : IO.Delay _ = IO.Get _ _ |- _ => discriminate H
  | H : IO.Get _ (IO.Rejected _) = IO.Get _ (IO.Response _ _) |- _ =>
    discriminate H
  | H : False |- _ => destruct H
  end.

(** What the second, last attempt leaves behind. *)
Lemma second_attempt keyword item net m1 (l1 : IO.Log) status data :
  let a2 := Part001.attempt keyword (s_baseUrl item) m1 net
              (l1 ++ [IO.Delay 1000]) in
  let final := match fst a2 with
               | IO.Returned v => (v, snd a2)
               | IO.Thrown m2 => (Part001.mkVerdict false m2, snd a2)
               end in
  let target := IO.Get (search_url keyword item) (IO.Response status data) in
  first_item_polluted data = true ->
  (JS.is_empty m1 = false -> Part001.success (fst final) = false)
  /\ (In target (snd final) -> ~ In target l1 ->
      fst final = Part001.mkVerdict false POLLUTED_REASON)
  /\ (last (snd final) = Some target ->
      fst final = Part001.mkVerdict false POLLUTED_REASON).
Proof.
  intros a2 final target Hp. subst a2 final target.
  pose proof (attempt_runs keyword item net m1 (l1 ++ [IO.Delay 1000])) as R2.
  destruct R2 as [m2|st2 d2 Hst2|d2 m2|d2 st2 data2].
  1-3: cbn [fst snd Part001.success]; split; [reflexivity|];
       rewrite ?last_snoc; split;
       [ intros Hin Hnot;
         repeat (apply in_app_or in Hin; destruct Hin as [Hin|Hin]);
         try contradiction; cbn [In] in Hin;
         destruct Hin as [Hin|Hin]; not_search_event
       | intros Hl; apply (inj Some) in Hl; not_search_event ].
  assert (Hsame : forall st, IO.Get (search_url keyword item) (IO.Response st2 data2)
            = IO.Get (search_url keyword item) (IO.Response st data) ->
          match Part001.inspect data2 m1 with
          | IO.Returned r =>
            if negb (JS.is_empty r) then IO.Thrown r
            else IO.Returned (Part001.mkVerdict true "正常")
          | IO.Thrown m => IO.Thrown m
          end = IO.Thrown (A := Part001.Verdict) POLLUTED_REASON).
  { intros st [= _ ->]. rewrite (inspect_first_item_polluted _ _ Hp).
    reflexivity. }
  split; [|split].
  - intros Hm1. destruct (Part001.inspect data2 m1) as [r|m] eqn:E2;
      [|reflexivity].
    rewrite (inspect_keeps_reason _ _ _ Hm1 E2). reflexivity.
  - intros Hin Hnot.
    assert (Heq : IO.Get (search_url keyword item) (IO.Response st2 data2)
                  = IO.Get (search_url keyword item) (IO.Response status data)).
    { destruct (Part001.inspect data2 m1) as [r|m]; [destruct (JS.is_empty r)|];
        cbn [fst snd negb] in Hin;
        repeat (apply in_app_or in Hin; destruct Hin as [Hin|Hin]);
        try contradiction; cbn [In] in Hin;
        destruct Hin as [Hin|Hin]; first [exact Hin | not_search_event]. }
    rewrite (Hsame _ Heq). reflexivity.
  - intros Hl.
    assert (Heq : IO.Get (search_url keyword item) (IO.Response st2 data2)
                  = IO.Get (search_url keyword item) (IO.Response status data)).
    { destruct (Part001.inspect data2 m1) as [r|m]; [destruct (JS.is_empty r)|];
        cbn [fst snd negb] in Hl; rewrite last_snoc in Hl;
        apply (inj Some) in Hl; exact Hl. }
    rewrite (Hsame _ Heq). reflexivity.
Qed.

(** C6, as amended: whenever a search request of the scan is answered with a
    non-empty list whose first item's display name contains a pollution
    marker, the verdict is a failure; when that answer is the last thing the
    scan saw, its reason is the pollution reason. *)
Theorem polluted_first_item_fails
    (keyword : string) (item : Source) (net : IO.Network)
    (status : Z) (data : JS.json) :
  first_item_polluted data = true ->
  In (IO.Get (search_url keyword item) (IO.Response status data))
     (snd (Part001.testSource keyword item net [])) ->
  Part001.success (fst (Part001.testSource keyword item net [])) = false
  /\ (last (snd (Part001.testSource keyword item net []))
        = Some (IO.Get (search_url keyword item) (IO.Response status data)) ->
      Part001.reason (fst (Part001.testSource keyword item net []))
        = POLLUTED_REASON).
Proof.
  intros Hp. rewrite testSource_unfold. cbv zeta.
  pose proof (attempt_runs keyword item net EmptyString []) as R1.
  destruct R1 as [m1|st1 d1 Hst1|d1 m1|d1 st1 data1].
  1-3: cbn [fst snd];
       match goal with
       | Hp : first_item_polluted ?data = true
         |- context [IO.Response ?status ?data] =>
         match goal with
         | |- context [Part001.attempt ?k (s_baseUrl ?it) ?m ?net (?l ++ [IO.Delay 1000])] =>
           destruct (second_attempt k it net m l status data Hp)
             as (_ & H2 & H3)
         end
       end;
       intros Hin; split; [|intros Hl; rewrite (H3 Hl); reflexivity];
       rewrite H2; [reflexivity | exact Hin |];
       cbn [In app]; intros Hl1;
       repeat (destruct Hl1 as [Hl1|Hl1]; try not_search_event).
  destruct (first_item_polluted data1) eqn:Hp1.
  - (* the first answer is polluted: the reason sticks *)
    rewrite (inspect_first_item_polluted _ _ Hp1).
    cbn [negb JS.is_empty POLLUTED_REASON fst snd].
    match goal with
    | |- context [Part001.attempt _ _ ?m _ (?l ++ [IO.Delay 1000])] =>
      destruct (second_attempt keyword item net m l status data Hp)
        as (H1 & _ & H3)
    end.
    intros _. split; [apply H1; reflexivity | intros Hl; rewrite (H3 Hl); reflexivity].
  - destruct (Part001.inspect data1 EmptyString) as [r1|m1] eqn:E1;
      [destruct (JS.is_empty r1) eqn:Er1|]; cbn [negb fst snd].
    + (* the first attempt passed: its answer was not polluted *)
      cbn [In last app]. intros [H|[H|[]]]; [not_search_event|].
      injection H as _ ->. congruence.
    + match goal with
      | |- context [Part001.attempt _ _ ?m _ (?l ++ [IO.Delay 1000])] =>
        destruct (second_attempt keyword item net m l status data Hp)
          as (_ & H2 & H3)
      end.
      intros Hin; split; [|intros Hl; rewrite (H3 Hl); reflexivity].
      rewrite H2; [reflexivity | exact Hin |].
      cbn [In app]. intros [H|[H|[]]]; [not_search_event|].
      injection H as _ ->. congruence.
    + match goal with
      | |- context [Part001.attempt _ _ ?m _ (?l ++ [IO.Delay 1000])] =>
        destruct (second_attempt keyword item net m l status data Hp)
          as (_ & H2 & H3)
      end.
      intros Hin; split; [|intros Hl; rewrite (H3 Hl); reflexivity].
      rewrite H2; [reflexivity | exact Hin |].
      cbn [In app]. intros [H|[H|[]]]; [not_search_event|].
      injection H as _ ->. congruence.
Qed.

Lemma polluted_first_item_fails_witness :
  let net : IO.Network := fun _ _ => IO.Response 200 polluted_listing in
  first_item_polluted polluted_listing = true
  /\ Part001.success (fst (Part001.testSource "斗罗大陆" sample_source net []))
     = false.
Proof.
  split; [reflexivity|].
  refine (proj1 (polluted_first_item_fails "斗罗大陆" sample_source
                   (fun _ _ => IO.Response 200 polluted_listing)
                   200 polluted_listing _ _)).
  - reflexivity.
  - vm_compute. right. left. reflexivity.
Defined.

(** C6, counterexample: the list contains a polluted item, but not in first
    place. The scan passes the source. *)
Lemma polluted_later_item_passes :
  let data :=
    JS.JObj [("list"%string,
              JS.JArr [JS.JObj [("vod_name"%string, JS.JStr "斗罗大陆")];
                       JS.JObj [("vod_name"%string, JS.JStr "澳门博彩 注册送礼")]])] in
  let net : IO.Network := fun _ _ => IO.Response 200 data in
  some_item_polluted data = true
  /\ fst (Part001.testSource "斗罗大陆" sample_source net [])
     = Part001.mkVerdict true "正常".
Proof. split; reflexivity. Qed.

(** ** The scheduler of [check_api.js] *)

Section QueueRunProofs.
Import CheckApi.
Context {A : Type}.
Variables (tasks : list A) (limit : nat).

Abbreviation Q := (@Queue A).
Abbreviation Step := (@step A tasks limit).
Abbreviation Reachable := (@reachable A tasks limit).
Abbreviation Next := (@next A tasks limit).
Abbreviation Fill := (@fill A tasks limit).
Abbreviation Work := (@work A tasks).
Abbreviation PreQ := (@Pre A tasks).
Abbreviation PostQ := (@Post A tasks limit).

Lemma in_remove i j l : In j (remove i l) <-> In j l /\ j <> i.
Proof.
  unfold remove. rewrite filter_In, Bool.negb_true_iff, Nat.eqb_neq. tauto.
Qed.

Lemma nodup_remove i l : NoDup l -> NoDup (remove i l).
Proof.
  induction 1 as [|x l Hx Hl IH]; simpl; [constructor|].
  destruct (x =? i); simpl; [exact IH|].
  constructor; [|exact IH].
  rewrite list_elem_of_In, in_remove, <- list_elem_of_In. tauto.
Qed.

Lemma remove_absent i l : ~ In i l -> remove i l = l.
Proof.
  induction l as [|x l IH]; simpl; [reflexivity|]. intros Hn.
  destruct (Nat.eqb_spec x i) as [->|Hne]; simpl; [tauto|].
  rewrite IH; tauto.
Qed.

Lemma length_remove i l :
  NoDup l -> In i l -> S (length (remove i l)) = length l.
Proof.
  induction 1 as [|x l Hx Hl IH]; simpl; [tauto|]. intros [->|Hi].
  - rewrite Nat.eqb_refl. simpl. rewrite remove_absent; [reflexivity|].
    rewrite <- list_elem_of_In. exact Hx.
  - destruct (Nat.eqb_spec x i) as [->|Hne]; simpl.
    + rewrite list_elem_of_In in Hx. tauto.
    + rewrite IH; [reflexivity | exact Hi].
Qed.

Lemma lookup_map {B C} (f : B -> C) (l : list B) i :
  map f l !! i = f <$> (l !! i).
Proof.
  revert i. induction l as [|x l IH]; intros [|i]; simpl; auto.
Qed.

Lemma store_lookup_eq i (v : A) rs : store i v rs !! i = Some (Some v).
Proof.
  unfold store. destruct (Nat.ltb_spec i (length rs)) as [Hlt|Hge].
  - apply list_lookup_insert_eq. exact Hlt.
  - rewrite app_assoc. apply list_lookup_middle.
    rewrite length_app, length_replicate. lia.
Qed.

Lemma store_lookup_ne i j (v : A) rs w :
  i <> j -> rs !! j = Some w -> store i v rs !! j = Some w.
Proof.
  intros Hne Hj. unfold store.
  destruct (Nat.ltb_spec i (length rs)) as [Hlt|Hge].
  - rewrite list_lookup_insert_ne; assumption.
  - apply lookup_app_l_Some. exact Hj.
Qed.

Lemma store_length i (v : A) rs :
  length (store i v rs) = Nat.max (length rs) (S i).
Proof.
  unfold store. destruct (Nat.ltb_spec i (length rs)) as [Hlt|Hge].
  - rewrite length_insert. lia.
  - rewrite !length_app, length_replicate. simpl. lia.
Qed.

Lemma fill_spec fuel q :
  PreQ q ->
  PreQ (Fill fuel q)
  /\ Work (Fill fuel q) = Work q
  /\ resolved (Fill fuel q) = resolved q
  /\ (length tasks - index q <= fuel ->
      limit <= active (Fill fuel q) \/ length tasks <= index (Fill fuel q)).
Proof.
  revert q. induction fuel as [|fuel IH]; intros q HP.
  - simpl. split; [exact HP|]. split; [reflexivity|]. split; [reflexivity|].
    intros; lia.
  - simpl.
    destruct (Nat.ltb_spec (active q) limit) as [Ha|Ha];
      destruct (Nat.ltb_spec (index q) (length tasks)) as [Hi|Hi]; simpl;
      try (split; [exact HP|]; split; [reflexivity|]; split; [reflexivity|];
           intros; lia).
    destruct HP as [P1 P2 P3 P4 P5 P6 P7].
    set (q1 := {| index := S (index q); active := S (active q);
                  q_results := q_results q;
                  pending := pending q ++ [index q];
                  settling := settling q; resolved := resolved q |}).
    assert (HP1 : PreQ q1).
    { constructor; simpl.
      - lia.
      - rewrite length_app. simpl. lia.
      - rewrite <- app_assoc. simpl.
        apply NoDup_app in P3 as (N1 & N2 & N3).
        apply NoDup_app. split; [exact N1|]. split.
        + intros x Hx [->|Hin]%elem_of_cons.
          * rewrite list_elem_of_In in Hx.
            specialize (P4 (index q) ltac:(apply in_or_app; tauto)). lia.
          * exact (N2 x Hx Hin).
        + constructor; [|exact N3].
          rewrite list_elem_of_In. intros Hin.
          specialize (P4 (index q) ltac:(apply in_or_app; tauto)). lia.
      - intros i Hin. rewrite <- app_assoc in Hin.
        apply in_app_or in Hin as [Hin|[->|Hin]].
        + specialize (P4 i ltac:(apply in_or_app; tauto)). lia.
        + lia.
        + specialize (P4 i ltac:(apply in_or_app; tauto)). lia.
      - intros i Hi' Hn. apply P5.
        + assert (i <> index q)
            by (intros ->; apply Hn, in_or_app; simpl; tauto).
          lia.
        + intros Hin. apply Hn, in_or_app. tauto.
      - lia.
      - intros rs Hrs. destruct (P7 rs Hrs) as (_ & Hge & _). lia. }
    destruct (IH q1 HP1) as (I1 & I2 & I3 & I4).
    split; [exact I1|]. split; [|split; [exact I3|]].
    + rewrite I2. unfold work. simpl. rewrite length_app. simpl. lia.
    + intros Hf. apply I4. simpl. lia.
Qed.

Lemma next_spec q :
  PreQ q -> PreQ (Next q) /\ PostQ (Next q) /\ Work (Next q) = Work q.
Proof.
  intros HP. unfold next.
  destruct (fill_spec (length tasks) q HP) as (I1 & I2 & I3 & I4).
  specialize (I4 ltac:(lia)).
  set (q' := Fill (length tasks) q) in *.
  destruct (Nat.leb_spec (length tasks) (index q')) as [Hi|Hi];
    destruct (Nat.eqb_spec (active q') 0) as [Ha|Ha]; simpl;
    try (split; [exact I1|]; split; [|exact I2];
         constructor; [exact I4 | intros; lia]).
  unfold resolve. destruct (resolved q') as [rs|] eqn:Hr.
  - split; [exact I1|]. split; [|exact I2].
    constructor; [exact I4 | congruence].
  - destruct I1 as [P1 P2 P3 P4 P5 P6 P7].
    split; [|split; [|exact I2]].
    + constructor; simpl; try assumption.
      intros rs [= <-]. auto.
    + constructor; simpl; [exact I4 | discriminate].
Qed.

Lemma reachable_inv q : Reachable q -> PreQ q /\ PostQ q.
Proof.
  induction 1 as [|q q' Hreach [HP HQ] Hstep].
  - unfold start.
    destruct (next_spec {| index := 0; active := 0; q_results := [];
                           pending := []; settling := []; resolved := None |})
      as (H1 & H2 & _); [|tauto].
    constructor; simpl.
    + lia.
    + reflexivity.
    + constructor.
    + intros i [].
    + intros i Hi. lia.
    + lia.
    + discriminate.
  - destruct HP as [P1 P2 P3 P4 P5 P6 P7], HQ as [Q1 Q2].
    destruct Hstep as [q i res Hin Hres|q i Hin].
    + assert (Hnone : resolved q = None).
      { destruct (resolved q) as [rs|] eqn:Hr; [|reflexivity].
        destruct (P7 rs eq_refl) as (_ & _ & Ha).
        destruct (pending q); [destruct Hin | simpl in P2; lia]. }
      apply NoDup_app in P3 as (N1 & N2 & N3).
      unfold on_then.
      split; constructor; simpl; try assumption.
      * rewrite length_app. simpl.
        pose proof (length_remove i _ N1 Hin). lia.
      * apply NoDup_app. split; [apply nodup_remove; exact N1|]. split.
        -- intros x Hx. rewrite list_elem_of_In, in_remove in Hx.
           destruct Hx as [Hx Hne].
           intros [Hs| ->%list_elem_of_singleton]%elem_of_app; [|tauto].
           apply (N2 x); [rewrite list_elem_of_In|]; assumption.
        -- apply NoDup_app. split; [exact N3|]. split.
           ++ intros x Hx ->%list_elem_of_singleton.
              apply (N2 i); [rewrite list_elem_of_In|]; assumption.
           ++ apply NoDup_singleton.
      * intros j Hj. apply P4.
        apply in_app_or in Hj as [Hj|Hj]; apply in_or_app.
        -- apply in_remove in Hj. tauto.
        -- apply in_app_or in Hj as [Hj|[->|[]]]; tauto.
      * intros j Hj Hn. destruct (Nat.eq_dec i j) as [->|Hne].
        -- exists res. split; [exact Hres | apply store_lookup_eq].
        -- destruct (P5 j Hj) as (v & Hv1 & Hv2).
           ++ intros Hp. apply Hn, in_remove. split; [exact Hp | lia].
           ++ exists v. split; [exact Hv1|].
              apply store_lookup_ne; assumption.
      * rewrite store_length.
        specialize (P4 i ltac:(apply in_or_app; tauto)). lia.
      * intros rs Hrs. congruence.
    + assert (Hnone : resolved q = None).
      { destruct (resolved q) as [rs|] eqn:Hr; [|reflexivity].
        destruct (P7 rs eq_refl) as (_ & _ & Ha).
        destruct (settling q); [destruct Hin | simpl in P2; lia]. }
      apply NoDup_app in P3 as (N1 & N2 & N3).
      pose proof (length_remove i _ N3 Hin) as Hlen.
      unfold on_finally.
      match goal with
      | |- PreQ (next _ _ ?q1) /\ _ =>
        destruct (next_spec q1) as (H1 & H2 & _); [|tauto]
      end.
      constructor; simpl; try assumption.
      * lia.
      * apply NoDup_app. split; [exact N1|]. split; [|apply nodup_remove; exact N3].
        intros x Hx Hs. rewrite list_elem_of_In, in_remove in Hs.
        apply (N2 x Hx). rewrite list_elem_of_In. tauto.
      * intros j Hj. apply P4.
        apply in_app_or in Hj as [Hj|Hj]; apply in_or_app; [tauto|].
        apply in_remove in Hj. tauto.
      * intros rs Hrs. congruence.
Qed.


End QueueRunProofs.



(** Without tasks the promise is resolved at once, with the empty array. *)
Example queueRun_no_tasks :
  CheckApi.resolved (CheckApi.start (@nil string) 10) = Some [].
Proof. reflexivity. Qed.

(** A limit of zero admits nothing: the promise is never resolved. *)
Example queueRun_limit_zero_hangs :
  let q := CheckApi.start ["a"; "b"]%string 0 in
  CheckApi.resolved q = None /\ CheckApi.pending q = []
  /\ CheckApi.settling q = [].
Proof. repeat split. Qed.

(** One run in full: two slots, three tasks, the second task done first. *)
Example queueRun_out_of_order :
  let tasks := ["a"; "b"; "c"]%string in
  let q0 := CheckApi.start tasks 2 in
  let q1 := CheckApi.on_then 1 "b"%string q0 in
  let q2 := CheckApi.on_finally tasks 2 1 q1 in
  let q3 := CheckApi.on_then 2 "c"%string q2 in
  let q4 := CheckApi.on_then 0 "a"%string q3 in
  let q5 := CheckApi.on_finally tasks 2 2 q4 in
  let q6 := CheckApi.on_finally tasks 2 0 q5 in
  CheckApi.step tasks 2 q0 q1 /\ CheckApi.step tasks 2 q1 q2
  /\ CheckApi.step tasks 2 q2 q3 /\ CheckApi.step tasks 2 q3 q4
  /\ CheckApi.step tasks 2 q4 q5 /\ CheckApi.step tasks 2 q5 q6
  /\ CheckApi.q_results q1 = [None; Some "b"]%string
  /\ CheckApi.resolved q5 = None
  /\ CheckApi.resolved q6 = Some [Some "a"; Some "b"; Some "c"]%string.
Proof.
  cbv zeta.
  split; [apply CheckApi.step_then; [right; left|]; reflexivity|].
  split; [apply CheckApi.step_finally; left; reflexivity|].
  split; [apply CheckApi.step_then; [right; left|]; reflexivity|].
  split; [apply CheckApi.step_then; [left|]; reflexivity|].
  split; [apply CheckApi.step_finally; left; reflexivity|].
  split; [apply CheckApi.step_finally; left; reflexivity|].
  repeat split.
Qed.

(** ** [JSON.stringify] and [JSON.parse] *)

Section Strings.
Import JS.

Lemma append_cons x (a b : string) : String x a +:+ b = String x (a +:+ b).
Proof. reflexivity. Qed.

Lemma append_nil_l (b : string) : EmptyString +:+ b = b.
Proof. reflexivity. Qed.

Lemma append_assoc (a b c : string) : (a +:+ b) +:+ c = a +:+ (b +:+ c).
Proof.
  induction a as [|x a IH]; [reflexivity|].
  rewrite !append_cons, IH. reflexivity.
Qed.

Lemma append_nil_r (a : string) : a +:+ EmptyString = a.
Proof.
  induction a as [|x a IH]; [reflexivity|]. rewrite append_cons, IH. reflexivity.
Qed.

Lemma strip_prefix_append (p s : string) : strip_prefix p (p +:+ s) = Some s.
Proof.
  induction p as [|x p IH]; [reflexivity|].
  rewrite append_cons. cbn [strip_prefix]. rewrite Ascii.eqb_refl. exact IH.
Qed.

Lemma all_ws_append a b : all_ws a = true -> all_ws b = true -> all_ws (a +:+ b) = true.
Proof.
  induction a as [|x a IH]; [auto|]. rewrite append_cons. cbn [all_ws].
  intros [Hx Ha]%andb_prop Hb. rewrite Hx, IH; auto.
Qed.

Lemma skip_ws_append w s : all_ws w = true -> skip_ws (w +:+ s) = skip_ws s.
Proof.
  induction w as [|x w IH]; [reflexivity|]. rewrite append_cons.
  cbn [all_ws skip_ws]. intros [Hx Hw]%andb_prop. rewrite Hx. auto.
Qed.

Lemma parse_chars_escape_char c s :
  parse_chars (escape_char c +:+ s) = prepend (str1 c) (parse_chars s).
Proof.
  destruct c as [[] [] [] [] [] [] [] []]; reflexivity.
Qed.

Lemma parse_chars_escape s rest :
  parse_chars (escape s +:+ String DQUOTE rest) = Some (s, rest).
Proof.
  induction s as [|c s IH]; [reflexivity|].
  cbn [escape]. rewrite append_assoc, parse_chars_escape_char, IH.
  reflexivity.
Qed.

Lemma parse_chars_quote s rest :
  parse_chars (escape s +:+ str1 DQUOTE +:+ rest) = Some (s, rest).
Proof. apply parse_chars_escape. Qed.

End Strings.

Section JsonInduction.
Import JS.
Variable P : json -> Prop.
Hypothesis Hnull : P JNull.
Hypothesis Hbool : forall b, P (JBool b).
Hypothesis Hstr : forall s, P (JStr s).
Hypothesis Harr : forall items, Forall P items -> P (JArr items).
Hypothesis Hobj :
  forall fields, Forall (fun kv => P (snd kv)) fields -> P (JObj fields).

Lemma json_induction (v : json) : P v.
Proof.
  revert v. fix IH 1. intros [| b | s | items | fields].
  - exact Hnull.
  - exact (Hbool b).
  - exact (Hstr s).
  - apply Harr. induction items as [|x items IHl]; constructor.
    + apply IH.
    + exact IHl.
  - apply Hobj. induction fields as [|[k x] fields IHl]; constructor.
    + apply IH.
    + exact IHl.
Qed.
End JsonInduction.

Section Serialize.
Import JS.

Lemma serialize_head gap indent v :
  exists c s, serialize gap indent v = String c s /\ opens_value c = true.
Proof.
  destruct v as [| [|] | s | items | fields]; cbn [serialize];
    try (eexists _, _; split; reflexivity).
  - destruct (map _ items); eexists _, _; split; reflexivity.
  - destruct (map _ fields); eexists _, _; split; reflexivity.
Qed.

End Serialize.

Section RoundTrip.
Import JS.
Variable gap : string.
Hypothesis gap_ws : all_ws gap = true.

Lemma newline_ws indent : all_ws indent = true -> all_ws (newline gap indent) = true.
Proof.
  intros Hi. unfold newline. destruct (is_empty gap); [reflexivity|].
  cbn [all_ws]. rewrite Hi. reflexivity.
Qed.

Lemma colon_spec s : exists w, all_ws w = true /\ colon gap +:+ s = String ":" (w +:+ s).
Proof.
  unfold colon. destruct (is_empty gap).
  - exists EmptyString. split; reflexivity.
  - exists " "%string. split; reflexivity.
Qed.

Lemma opens_value_not_ws c : opens_value c = true -> is_ws c = false.
Proof. destruct c as [[] [] [] [] [] [] [] []]; try discriminate; reflexivity. Qed.

Lemma opens_value_not_close c close :
  opens_value c = true -> close = "]"%char \/ close = "}"%char ->
  Ascii.eqb close c = false.
Proof.
  intros Hc [-> | ->];
    destruct c as [[] [] [] [] [] [] [] []]; try discriminate; reflexivity.
Qed.

Lemma skip_ws_value indent v rest :
  skip_ws (serialize gap indent v +:+ rest) = serialize gap indent v +:+ rest.
Proof.
  destruct (serialize_head gap indent v) as (c & s & -> & Hc).
  rewrite append_cons. cbn [skip_ws]. rewrite (opens_value_not_ws c Hc).
  reflexivity.
Qed.

Lemma parse_value_skip fuel w s :
  all_ws w = true -> parse_value fuel (w +:+ s) = parse_value fuel s.
Proof.
  intros Hw. destruct fuel as [|fuel]; [reflexivity|].
  cbn [parse_value]. rewrite (skip_ws_append w s Hw). reflexivity.
Qed.

Lemma parse_elements_skip fuel w s :
  all_ws w = true -> parse_elements fuel (w +:+ s) = parse_elements fuel s.
Proof.
  intros Hw. destruct fuel as [|fuel]; [reflexivity|].
  cbn [parse_elements]. rewrite (parse_value_skip fuel w s Hw). reflexivity.
Qed.

Lemma parse_members_skip fuel w s :
  all_ws w = true -> parse_members fuel (w +:+ s) = parse_members fuel s.
Proof.
  intros Hw. destruct fuel as [|fuel]; [reflexivity|].
  cbn [parse_members]. rewrite (skip_ws_append w s Hw). reflexivity.
Qed.

Lemma join_cons sep p q ps :
  join sep (p :: q :: ps) = p +:+ sep +:+ join sep (q :: ps).
Proof. reflexivity. Qed.

Lemma skip_ws_punct c s :
  is_ws c = false -> skip_ws (String c s) = String c s.
Proof. intros H. cbn [skip_ws]. rewrite H. reflexivity. Qed.

Lemma parse_elements_back items :
  Forall (parses_back gap) items -> Forall wf items -> items <> [] ->
  forall fuel inner close rest,
    all_ws inner = true -> all_ws close = true ->
    elements_size items <= fuel ->
    parse_elements fuel
      (join ("," +:+ newline gap inner) (map (serialize gap inner) items)
       +:+ close +:+ String "]" rest)
    = Some (items, rest).
Proof.
  induction 1 as [|x items Hx Hitems IH]; [congruence|].
  intros Hwf _ fuel inner close rest Hin Hclose Hfuel.
  apply Forall_cons in Hwf as [Hwx Hwitems].
  destruct fuel as [|fuel]; [cbn [elements_size fold_right] in Hfuel; lia|].
  cbn [elements_size fold_right] in Hfuel. fold (elements_size items) in Hfuel.
  cbn [parse_elements].
  destruct items as [|y items].
  - cbn [map join]. rewrite (Hx Hwx fuel inner _ Hin ltac:(lia)).
    rewrite (skip_ws_append close _ Hclose).
    rewrite skip_ws_punct by reflexivity. reflexivity.
  - cbn [map]. rewrite join_cons, !append_assoc.
    rewrite (Hx Hwx fuel inner _ Hin ltac:(lia)).
    rewrite append_cons, append_nil_l.
    rewrite skip_ws_punct by reflexivity.
    change (Ascii.eqb "," ",") with true. cbv iota.
    rewrite (parse_elements_skip fuel _ _ (newline_ws inner Hin)).
    rewrite <- !append_assoc.
    change (serialize gap inner y :: map (serialize gap inner) items)
      with (map (serialize gap inner) (y :: items)).
    rewrite append_assoc.
    rewrite (IH Hwitems ltac:(discriminate) fuel inner close rest Hin Hclose
               ltac:(lia)).
    reflexivity.
Qed.

Lemma parse_members_back fields :
  Forall (fun kv => parses_back gap (snd kv)) fields ->
  Forall (fun kv => wf (snd kv)) fields -> fields <> [] ->
  forall fuel inner close rest,
    all_ws inner = true -> all_ws close = true ->
    members_size fields <= fuel ->
    parse_members fuel
      (join ("," +:+ newline gap inner) (map (member gap inner) fields)
       +:+ close +:+ String "}" rest)
    = Some (fields, rest).
Proof.
  induction 1 as [|[k x] fields Hx Hfields IH]; [congruence|].
  intros Hwf _ fuel inner close rest Hin Hclose Hfuel.
  apply Forall_cons in Hwf as [Hwx Hwfields].
  cbn [snd] in Hx, Hwx.
  destruct fuel as [|fuel]; [cbn [members_size fold_right] in Hfuel; lia|].
  cbn [members_size fold_right snd] in Hfuel.
  fold (members_size fields) in Hfuel.
  cbn [parse_members].
  assert (Hkey : forall more,
    match strip_prefix (str1 DQUOTE)
            (skip_ws (member gap inner (k, x) +:+ more)) with
    | Some s1 =>
      match parse_chars s1 with
      | Some (k', s2) =>
        match strip_prefix ":" (skip_ws s2) with
        | Some s3 => Some (k', parse_value fuel s3)
        | None => None
        end
      | None => None
      end
    | None => None
    end = Some (k, Some (x, more))).
  { intros more. unfold member, quote. cbn [fst snd].
    rewrite !append_cons, skip_ws_punct by reflexivity.
    cbn [strip_prefix str1]. rewrite Ascii.eqb_refl.
    rewrite !append_assoc. change (str1 DQUOTE +:+ ?s) with (String DQUOTE s).
    rewrite parse_chars_escape.
    destruct (colon_spec (serialize gap inner x +:+ more)) as (w & Hw & ->).
    rewrite skip_ws_punct by reflexivity.
    cbn [strip_prefix]. change (Ascii.eqb ":" ":") with true. cbv iota.
    rewrite (parse_value_skip fuel w _ Hw).
    rewrite (Hx Hwx fuel inner more Hin ltac:(lia)). reflexivity. }
  destruct fields as [|kv fields].
  - cbn [map join]. specialize (Hkey (close +:+ String "}" rest)).
    destruct (strip_prefix (str1 DQUOTE) _) as [s1|]; [|discriminate].
    destruct (parse_chars s1) as [[k' s2]|]; [|discriminate].
    destruct (strip_prefix ":" (skip_ws s2)) as [s3|]; [|discriminate].
    injection Hkey as -> ->.
    rewrite (skip_ws_append close _ Hclose).
    rewrite skip_ws_punct by reflexivity. reflexivity.
  - cbn [map]. rewrite join_cons, !append_assoc.
    match goal with
    | |- context [member gap inner (k, x) +:+ ?more] => specialize (Hkey more)
    end.
    destruct (strip_prefix (str1 DQUOTE) _) as [s1|]; [|discriminate].
    destruct (parse_chars s1) as [[k' s2]|]; [|discriminate].
    destruct (strip_prefix ":" (skip_ws s2)) as [s3|]; [|discriminate].
    injection Hkey as -> ->.
    rewrite append_cons, append_nil_l.
    rewrite skip_ws_punct by reflexivity.
    change (Ascii.eqb "," ",") with true. cbv iota.
    rewrite (parse_members_skip fuel _ _ (newline_ws inner Hin)).
    change (parse_members fuel _)
      with (parse_members fuel
              (join ("," +:+ newline gap inner) (map (member gap inner) (kv :: fields))
               +:+ close +:+ String "}" rest)).
    rewrite (IH Hwfields ltac:(discriminate) fuel inner close rest Hin Hclose
               ltac:(lia)).
    reflexivity.
Qed.

Lemma obj_set_fresh k v fields :
  ~ In k (map fst fields) -> obj_set k v fields = fields ++ [(k, v)].
Proof.
  induction fields as [|[k' v'] fields IH]; [reflexivity|].
  cbn [map fst In obj_set app]. intros Hn.
  destruct (String.eqb_spec k' k) as [->|Hne]; [tauto|].
  rewrite IH; tauto.
Qed.

Lemma fold_obj_set members acc :
  NoDup (map fst (acc ++ members)) ->
  fold_left (fun fields kv => obj_set (fst kv) (snd kv) fields) members acc
  = acc ++ members.
Proof.
  revert acc. induction members as [|[k v] members IH]; intros acc Hnd.
  - cbn [fold_left]. rewrite app_nil_r. reflexivity.
  - cbn [fold_left fst snd]. rewrite obj_set_fresh.
    + rewrite IH; rewrite <- app_assoc; [reflexivity | exact Hnd].
    + rewrite map_app in Hnd. cbn [map fst] in Hnd.
      apply NoDup_app in Hnd as (_ & Hd & _).
      intros Hin. apply (Hd k); [rewrite list_elem_of_In; exact Hin | left].
Qed.

Lemma parse_value_string fuel s :
  parse_value (S fuel) (String DQUOTE s)
  = match parse_chars s with
    | Some (str, rest) => Some (JStr str, rest)
    | None => None
    end.
Proof. reflexivity. Qed.

Lemma parse_value_array fuel s :
  parse_value (S fuel) (String "[" s)
  = match strip_prefix "]" (skip_ws s) with
    | Some rest => Some (JArr [], rest)
    | None =>
      match parse_elements fuel s with
      | Some (items, rest) => Some (JArr items, rest)
      | None => None
      end
    end.
Proof. reflexivity. Qed.

Lemma parse_value_object fuel s :
  parse_value (S fuel) (String "{" s)
  = match strip_prefix "}" (skip_ws s) with
    | Some rest => Some (JObj [], rest)
    | None =>
      match parse_members fuel s with
      | Some (members, rest) =>
        Some (JObj (fold_left (fun fields kv => obj_set (fst kv) (snd kv) fields)
                              members []), rest)
      | None => None
      end
    end.
Proof. reflexivity. Qed.

Lemma join_head sep p ps t :
  exists t', join sep (p :: ps) +:+ t = p +:+ t'.
Proof.
  destruct ps as [|q ps].
  - exists t. reflexivity.
  - rewrite join_cons, append_assoc. eexists. reflexivity.
Qed.

Lemma not_closed_after_newline indent close p ps t :
  all_ws indent = true ->
  (exists c s, p = String c s /\ opens_value c = true) ->
  close = "]"%char \/ close = "}"%char ->
  strip_prefix (String close EmptyString)
    (skip_ws (newline gap indent +:+ join ("," +:+ newline gap indent) (p :: ps) +:+ t))
  = None.
Proof.
  intros Hi (c & s & -> & Hc) Hclose.
  rewrite (skip_ws_append _ _ (newline_ws indent Hi)).
  destruct (join_head ("," +:+ newline gap indent) (String c s) ps t) as [t' ->].
  rewrite append_cons, skip_ws_punct by (apply opens_value_not_ws; exact Hc).
  cbn [strip_prefix]. rewrite (opens_value_not_close c close Hc Hclose).
  reflexivity.
Qed.

Lemma serialize_parses_back v : parses_back gap v.
Proof.
  induction v as [| b | s | items IH | fields IH] using json_induction;
    intros Hwf fuel indent rest Hi Hfuel;
    (destruct fuel as [|fuel]; [cbn [size] in Hfuel; lia|]).
  - reflexivity.
  - destruct b; reflexivity.
  - cbn [serialize]. unfold quote.
    rewrite append_cons, parse_value_string, append_assoc.
    rewrite parse_chars_quote. reflexivity.
  - inversion Hwf as [| | |items' Hwitems|]; subst.
    destruct items as [|x items]; [reflexivity|].
    cbn [serialize map]. cbv zeta.
    rewrite !append_assoc, append_cons, append_nil_l, parse_value_array.
    rewrite not_closed_after_newline;
      [| apply all_ws_append; assumption
       | destruct (serialize_head gap (indent +:+ gap) x) as (c & s & ? & ?);
         eauto
       | left; reflexivity].
    rewrite (parse_elements_skip fuel _ _
               (newline_ws _ (all_ws_append _ _ Hi gap_ws))).
    change (serialize gap (indent +:+ gap) x
            :: map (serialize gap (indent +:+ gap)) items)
      with (map (serialize gap (indent +:+ gap)) (x :: items)).
    change ("]" +:+ rest)%string with (String "]" rest).
    rewrite (parse_elements_back (x :: items) IH Hwitems ltac:(discriminate)
               fuel (indent +:+ gap) (newline gap indent) rest).
    + reflexivity.
    + apply all_ws_append; assumption.
    + apply newline_ws. exact Hi.
    + cbn [size] in Hfuel. unfold elements_size. lia.
  - inversion Hwf as [| | | |fields' Hnd Hwfields]; subst.
    destruct fields as [|kv fields]; [reflexivity|].
    cbn [serialize map]. cbv zeta.
    change (quote (fst kv) +:+ colon gap +:+ serialize gap (indent +:+ gap) (snd kv))
      with (member gap (indent +:+ gap) kv).
    change (map (fun kv0 => quote (fst kv0) +:+ colon gap
                            +:+ serialize gap (indent +:+ gap) (snd kv0)) fields)
      with (map (member gap (indent +:+ gap)) fields).
    rewrite !append_assoc, append_cons, append_nil_l, parse_value_object.
    rewrite not_closed_after_newline;
      [| apply all_ws_append; assumption
       | unfold member, quote; rewrite append_cons; eexists _, _;
         split; reflexivity
       | right; reflexivity].
    rewrite (parse_members_skip fuel _ _
               (newline_ws _ (all_ws_append _ _ Hi gap_ws))).
    change (member gap (indent +:+ gap) kv :: map (member gap (indent +:+ gap)) fields)
      with (map (member gap (indent +:+ gap)) (kv :: fields)).
    change ("}" +:+ rest)%string with (String "}" rest).
    rewrite (parse_members_back (kv :: fields) IH Hwfields ltac:(discriminate)
               fuel (indent +:+ gap) (newline gap indent) rest).
    + rewrite (fold_obj_set (kv :: fields) []); [reflexivity | exact Hnd].
    + apply all_ws_append; assumption.
    + apply newline_ws. exact Hi.
    + cbn [size] in Hfuel. unfold members_size. lia.
Qed.

Lemma join_size {B} (sz : B -> nat) (txt : B -> string) sep (l : list B) :
  1 <= String.length sep ->
  Forall (fun b => sz b <= String.length (txt b)) l ->
  fold_right (fun b n => S (sz b + n)) 0 l
  <= String.length (join sep (map txt l)) + 1.
Proof.
  intros Hsep. induction 1 as [|x l Hx Hl IH]; [simpl; lia|].
  destruct l as [|y l].
  - cbn [fold_right map join]. lia.
  - cbn [map]. rewrite join_cons, !string_length_append.
    cbn [fold_right] in IH |- *. cbn [map] in IH. lia.
Qed.

Lemma size_le_length indent v :
  size v <= String.length (serialize gap indent v).
Proof.
  revert indent.
  induction v as [| b | s | items IH | fields IH] using json_induction;
    intros indent.
  - cbn. lia.
  - destruct b; cbn; lia.
  - cbn [size serialize]. unfold quote. cbn [String.length]. lia.
  - cbn [size serialize]. cbv zeta.
    destruct items as [|x items]; [cbn; lia|].
    pose proof (join_size size (serialize gap (indent +:+ gap))
                  ("," +:+ newline gap (indent +:+ gap)) (x :: items)) as Hj.
    cbn [map] in Hj |- *.
    rewrite !string_length_append. cbn [String.length].
    rewrite string_length_append in Hj. cbn [String.length] in Hj.
    specialize (Hj ltac:(lia)).
    assert (Hall : Forall (fun b => size b <= String.length
                             (serialize gap (indent +:+ gap) b)) (x :: items)).
    { eapply Forall_impl; [exact IH|]. intros y Hy. apply Hy. }
    specialize (Hj Hall). cbn [fold_right] in Hj |- *. lia.
  - cbn [size serialize]. cbv zeta.
    destruct fields as [|kv fields]; [cbn; lia|].
    pose proof (join_size (fun kv => size (snd kv)) (member gap (indent +:+ gap))
                  ("," +:+ newline gap (indent +:+ gap)) (kv :: fields)) as Hj.
    change (fun kv0 => quote (fst kv0) +:+ colon gap
                       +:+ serialize gap (indent +:+ gap) (snd kv0))
      with (member gap (indent +:+ gap)).
    cbn [map] in Hj |- *.
    rewrite !string_length_append. cbn [String.length].
    rewrite string_length_append in Hj. cbn [String.length] in Hj.
    specialize (Hj ltac:(lia)).
    assert (Hall : Forall (fun b => size (snd b) <= String.length
                             (member gap (indent +:+ gap) b)) (kv :: fields)).
    { eapply Forall_impl; [exact IH|]. intros y Hy. cbv beta in Hy.
      unfold member. rewrite !string_length_append.
      specialize (Hy (indent +:+ gap)). lia. }
    specialize (Hj Hall). cbn [fold_right] in Hj |- *. lia.
Qed.

(** Parsing what was printed gives the value back. *)
Lemma parse_serialize v :
  wf v -> JSON_parse (serialize gap EmptyString v) = Some v.
Proof.
  intros Hwf. unfold JSON_parse.
  pose proof (size_le_length EmptyString v) as Hsize.
  rewrite <- (append_nil_r (serialize gap EmptyString v)) at 2.
  rewrite (serialize_parses_back v Hwf
             (2 * String.length (serialize gap EmptyString v) + 2)
             EmptyString EmptyString eq_refl ltac:(lia)).
  reflexivity.
Qed.

End RoundTrip.

(** ** The history block of the report *)

Section Block.
Import JS.

Lemma lf_tick_append b s t :
  lf_tick b (s +:+ t)
  = match lf_tick b s with
    | Some b' => lf_tick b' t
    | None => None
    end.
Proof.
  revert b. induction s as [|c s IH]; intros b; [reflexivity|].
  rewrite append_cons. cbn [lf_tick].
  destruct (b && Ascii.eqb c TICK); [reflexivity | apply IH].
Qed.

Lemma lf_tick_escape_char c : lf_tick false (escape_char c) = Some false.
Proof. destruct c as [[] [] [] [] [] [] [] []]; reflexivity. Qed.

Lemma lf_tick_escape s : lf_tick false (escape s) = Some false.
Proof.
  induction s as [|c s IH]; [reflexivity|].
  cbn [escape]. rewrite lf_tick_append, lf_tick_escape_char. exact IH.
Qed.

Lemma lf_tick_quote b s : lf_tick b (quote s) = Some false.
Proof.
  unfold quote. cbn [lf_tick].
  replace (b && Ascii.eqb DQUOTE TICK) with false by (destruct b; reflexivity).
  change (Ascii.eqb DQUOTE LF) with false.
  rewrite lf_tick_append, lf_tick_escape. reflexivity.
Qed.

Lemma blank_append a b : blank a = true -> blank b = true -> blank (a +:+ b) = true.
Proof.
  induction a as [|x a IH]; [auto|]. rewrite append_cons. cbn [blank].
  intros [Hx Ha]%andb_prop Hb. rewrite Hx, IH; auto.
Qed.

Lemma blank_all_ws s : blank s = true -> all_ws s = true.
Proof.
  induction s as [|c s IH]; [reflexivity|]. cbn [blank all_ws].
  intros [Hc Hs]%andb_prop. apply Ascii.eqb_eq in Hc as ->.
  rewrite (IH Hs). reflexivity.
Qed.

Lemma lf_tick_blank b s : blank s = true -> exists b', lf_tick b s = Some b'.
Proof.
  revert b. induction s as [|c s IH]; intros b; [eauto|].
  cbn [blank lf_tick]. intros [Hc Hs]%andb_prop.
  apply Ascii.eqb_eq in Hc as ->.
  change (Ascii.eqb " " TICK) with false. rewrite andb_false_r.
  apply IH, Hs.
Qed.

Section Gap.
Variable gap : string.
Hypothesis gap_blank : blank gap = true.

Lemma lf_tick_newline b indent :
  blank indent = true -> exists b', lf_tick b (newline gap indent) = Some b'.
Proof.
  intros Hi. unfold newline. destruct (is_empty gap); [cbn; eauto|].
  cbn [lf_tick]. change (Ascii.eqb LF TICK) with false. rewrite andb_false_r.
  apply lf_tick_blank, Hi.
Qed.

Lemma lf_tick_join sep parts :
  (forall b, exists b', lf_tick b sep = Some b') ->
  Forall (fun p => forall b, lf_tick b p = Some false) parts ->
  parts <> [] ->
  forall b, lf_tick b (join sep parts) = Some false.
Proof.
  intros Hsep. induction 1 as [|p parts Hp Hparts IH]; [congruence|].
  intros _ b. destruct parts as [|q parts]; [apply Hp|].
  rewrite join_cons, lf_tick_append, Hp, lf_tick_append.
  destruct (Hsep false) as [b' ->]. apply IH. discriminate.
Qed.

Lemma lf_tick_serialize v :
  forall indent b, blank indent = true ->
  lf_tick b (serialize gap indent v) = Some false.
Proof.
  induction v as [| b0 | s | items IH | fields IH] using json_induction;
    intros indent b Hi.
  - destruct b; reflexivity.
  - destruct b, b0; reflexivity.
  - apply lf_tick_quote.
  - cbn [serialize]. cbv zeta.
    destruct items as [|x items]; [destruct b; reflexivity|].
    assert (Hinner : blank (indent +:+ gap) = true)
      by (apply blank_append; assumption).
    remember (x :: items) as l eqn:Hl.
    assert (Hne : map (serialize gap (indent +:+ gap)) l <> [])
      by (subst l; discriminate).
    destruct (map (serialize gap (indent +:+ gap)) l) as [|p parts] eqn:Hm;
      [congruence|]. rewrite <- Hm.
    rewrite lf_tick_append.
    replace (lf_tick b "[") with (Some false) by (destruct b; reflexivity).
    rewrite lf_tick_append.
    destruct (lf_tick_newline false _ Hinner) as [b1 ->].
    rewrite lf_tick_append, lf_tick_join.
    + rewrite lf_tick_append.
      destruct (lf_tick_newline false _ Hi) as [b2 ->]. destruct b2; reflexivity.
    + intros b'. rewrite lf_tick_append.
      replace (lf_tick b' ",") with (Some false) by (destruct b'; reflexivity).
      apply lf_tick_newline, Hinner.
    + apply Forall_map. eapply Forall_impl; [exact IH|].
      intros y Hy b'. apply Hy, Hinner.
    + rewrite Hm. discriminate.
  - cbn [serialize]. cbv zeta.
    destruct fields as [|kv fields]; [destruct b; reflexivity|].
    assert (Hinner : blank (indent +:+ gap) = true)
      by (apply blank_append; assumption).
    remember (kv :: fields) as l eqn:Hl.
    set (f := fun kv0 : string * json =>
                quote (fst kv0) +:+ colon gap
                +:+ serialize gap (indent +:+ gap) (snd kv0)).
    assert (Hne : map f l <> []) by (subst l; discriminate).
    destruct (map f l) as [|p parts] eqn:Hm; [congruence|]. rewrite <- Hm.
    rewrite lf_tick_append.
    replace (lf_tick b "{") with (Some false) by (destruct b; reflexivity).
    rewrite lf_tick_append.
    destruct (lf_tick_newline false _ Hinner) as [b1 ->].
    rewrite lf_tick_append, lf_tick_join.
    + rewrite lf_tick_append.
      destruct (lf_tick_newline false _ Hi) as [b2 ->]. destruct b2; reflexivity.
    + intros b'. rewrite lf_tick_append.
      replace (lf_tick b' ",") with (Some false) by (destruct b'; reflexivity).
      apply lf_tick_newline, Hinner.
    + apply Forall_map. eapply Forall_impl; [exact IH|].
      intros y Hy b'. unfold f. rewrite lf_tick_append, lf_tick_quote.
      rewrite lf_tick_append.
      replace (lf_tick false (colon gap)) with (Some false)
        by (unfold colon; destruct (is_empty gap); reflexivity).
      apply Hy, Hinner.
    + rewrite Hm. discriminate.
Qed.

End Gap.
End Block.

Section Match.
Import JS CheckApi.

Lemma lazy_until_exact s :
  forall b tail,
    (exists b', lf_tick b s = Some b') ->
    lazy_until FENCE_CLOSE (s +:+ FENCE_CLOSE +:+ tail) = Some s.
Proof.
  induction s as [|c s IH]; intros b tail [b' Hb].
  - reflexivity.
  - cbn [lf_tick] in Hb.
    destruct (b && Ascii.eqb c TICK); [discriminate|].
    rewrite append_cons. cbn [lazy_until].
    rewrite (IH (Ascii.eqb c LF) tail (ex_intro _ b' Hb)).
    assert (Hhere : strip_prefix FENCE_CLOSE
                      (String c (s +:+ FENCE_CLOSE +:+ tail)) = None).
    { change FENCE_CLOSE with (String LF "```") at 1. cbn [strip_prefix].
      destruct (Ascii.eqb LF c) eqn:Hc; [|reflexivity].
      apply Ascii.eqb_eq in Hc as <-.
      destruct s as [|d s]; [reflexivity|].
      cbn [lf_tick] in Hb. rewrite Ascii.eqb_refl in Hb. cbn [andb] in Hb.
      rewrite append_cons. cbn [strip_prefix].
      rewrite Ascii.eqb_sym. fold TICK.
      destruct (Ascii.eqb d TICK); [discriminate | reflexivity]. }
    rewrite Hhere. reflexivity.
Qed.

Lemma capture_exact s tail :
  s <> EmptyString ->
  (exists b', lf_tick false s = Some b') ->
  capture (s +:+ FENCE_CLOSE +:+ tail) = Some s.
Proof.
  destruct s as [|c s]; [congruence|]. intros _ [b' Hb].
  rewrite append_cons. cbn [capture].
  cbn [lf_tick andb] in Hb.
  rewrite (lazy_until_exact s _ tail (ex_intro _ b' Hb)). reflexivity.
Qed.

Lemma match_json_block_eq old :
  match_json_block old
  = match
      match strip_prefix FENCE_OPEN old with
      | Some rest => capture rest
      | None => None
      end
    with
    | Some m => Some m
    | None =>
      match old with
      | EmptyString => None
      | String _ old' => match_json_block old'
      end
    end.
Proof. destruct old; reflexivity. Qed.

Lemma strip_prefix_straddle p :
  forall s c rest q,
    starts_with s p = false ->
    all_chars (fun a => negb (Ascii.eqb a c)) p = true ->
    strip_prefix (p +:+ q) (s +:+ String c rest) = None.
Proof.
  induction p as [|a p IH]; intros s c rest q Hs Hp.
  - destruct s; discriminate.
  - cbn [all_chars] in Hp. apply andb_prop in Hp as [Ha Hp].
    rewrite append_cons. destruct s as [|b s].
    + rewrite append_nil_l. cbn [strip_prefix].
      apply Bool.negb_true_iff in Ha. rewrite Ha. reflexivity.
    + rewrite append_cons. cbn [strip_prefix].
      unfold starts_with in Hs. cbn [strip_prefix] in Hs.
      destruct (Ascii.eqb a b); [|reflexivity].
      apply IH; [exact Hs | exact Hp].
Qed.

(** Scanning over text that does not contain the opening fence. *)
Lemma scan_without_fence md rest :
  includes md "```json" = false ->
  match_json_block (md +:+ String LF rest) = match_json_block (String LF rest).
Proof.
  induction md as [|c md IH]; [reflexivity|].
  cbn [includes]. intros [Hhere Hrest]%orb_false_elim.
  rewrite append_cons, match_json_block_eq.
  change (String c (md +:+ String LF rest))
    with (String c md +:+ String LF rest) at 1.
  change FENCE_OPEN with ("```json" +:+ str1 LF)%string.
  rewrite (strip_prefix_straddle "```json" (String c md) LF rest (str1 LF)
             Hhere eq_refl).
  apply IH, Hrest.
Qed.

Lemma scan_without_tick s rest :
  all_chars (fun a => negb (Ascii.eqb a TICK)) s = true ->
  match_json_block (s +:+ rest) = match_json_block rest.
Proof.
  induction s as [|c s IH]; [reflexivity|].
  cbn [all_chars]. intros [Hc Hs]%andb_prop.
  rewrite append_cons, match_json_block_eq.
  change FENCE_OPEN with (String TICK ("``json" +:+ str1 LF)).
  cbn [strip_prefix]. rewrite Ascii.eqb_sym.
  apply Bool.negb_true_iff in Hc. rewrite Hc. apply IH, Hs.
Qed.

Lemma reportFileContent_eq md history :
  reportFileContent md history
  = md +:+ DETAILS_OPEN +:+ FENCE_OPEN +:+ JSON_stringify_2 history
       +:+ FENCE_CLOSE +:+ DETAILS_CLOSE.
Proof. reflexivity. Qed.

(** The block that the next run finds is the text that was printed. *)
Lemma match_json_block_report md history :
  includes md "```json" = false ->
  match_json_block (reportFileContent md history)
  = Some (JSON_stringify_2 history).
Proof.
  intros Hmd. rewrite reportFileContent_eq.
  unfold DETAILS_OPEN at 1. rewrite append_cons.
  rewrite (scan_without_fence md _ Hmd).
  change (String LF ?h +:+ ?r) with ((String LF h) +:+ r).
  rewrite <- append_cons.
  rewrite scan_without_tick by reflexivity.
  rewrite match_json_block_eq, strip_prefix_append.
  rewrite capture_exact; [reflexivity | |].
  - unfold JSON_stringify_2.
    destruct (serialize_head "  " EmptyString history) as (c & s & -> & _).
    discriminate.
  - exists false. apply lf_tick_serialize; reflexivity.
Qed.

End Match.

Section History.
Import JS CheckApi.

Lemma wf_result_json r : wf (result_json r).
Proof.
  unfold result_json. constructor.
  - destruct (r_name r); cbn [map fst app];
      repeat (constructor;
              [rewrite list_elem_of_In; cbn [In]; intuition discriminate|]);
      constructor.
  - destruct (r_name r); cbn [app]; repeat constructor.
Qed.

Lemma wf_day_json d : wf (day_json d).
Proof.
  unfold day_json. constructor.
  - cbn [map fst].
    repeat (constructor;
            [rewrite list_elem_of_In; cbn [In]; intuition discriminate|]);
    constructor.
  - constructor; [apply wf_str|].
    constructor; [|constructor].
    cbn [snd]. apply wf_arr.
    apply Forall_map, Forall_forall. intros r _. apply wf_result_json.
Qed.

Lemma wf_history_json h : wf (history_json h).
Proof.
  constructor. apply Forall_map, Forall_forall. intros d _. apply wf_day_json.
Qed.

Lemma json_result_json r : json_result (result_json r) = Some r.
Proof. destruct r as [[n|] api success st]; reflexivity. Qed.

Lemma all_some_map {B C} (f : B -> C) (g : C -> option B) l :
  (forall x, g (f x) = Some x) -> all_some (map g (map f l)) = Some l.
Proof.
  intros Hfg. induction l as [|x l IH]; [reflexivity|].
  cbn [map all_some]. rewrite Hfg, IH. reflexivity.
Qed.

Lemma json_day_json d : json_day (day_json d) = Some d.
Proof.
  destruct d as [dt rs]. unfold day_json, json_day. cbn [date results].
  change (prop "date" _) with (Some (JStr dt)).
  change (prop "results" _) with (Some (JArr (map result_json rs))).
  cbv iota. rewrite (all_some_map result_json json_result rs json_result_json).
  reflexivity.
Qed.

Lemma json_history_json h : json_history (history_json h) = Some h.
Proof.
  unfold history_json, json_history.
  apply all_some_map, json_day_json.
Qed.

End History.

(** C8, as amended: as long as the report text before the history block
    does not itself contain the opening fence, the next run reads back
    exactly the value that was printed; for a history, the same records in
    the same order. *)
Theorem history_round_trip (md : string) :
  JS.includes md "```json" = false ->
  (forall v, wf v ->
     CheckApi.load_history (Some (CheckApi.reportFileContent md v)) = v)
  /\ (forall h : History,
       CheckApi.json_history
         (CheckApi.load_history
            (Some (CheckApi.reportFileContent md (CheckApi.history_json h))))
       = Some h).
Proof.
  intros Hmd.
  assert (Hload : forall v, wf v ->
            CheckApi.load_history (Some (CheckApi.reportFileContent md v)) = v).
  { intros v Hwf.
    unfold CheckApi.load_history, CheckApi.load_history_with.
    rewrite (match_json_block_report md _ Hmd).
    unfold JS.JSON_stringify_2.
    rewrite (parse_serialize "  " eq_refl _ Hwf).
    reflexivity. }
  split; [exact Hload|].
  intros h. rewrite (Hload _ (wf_history_json h)). apply json_history_json.
Qed.

Lemma history_round_trip_witness :
  JS.includes "# API 健康报告" "```json" = false
  /\ CheckApi.json_history
       (CheckApi.load_history
          (Some (CheckApi.reportFileContent "# API 健康报告"
                   (CheckApi.history_json [sample_day; sample_day]))))
     = Some [sample_day; sample_day].
Proof.
  split; [reflexivity|].
  apply (history_round_trip "# API 健康报告"). reflexivity.
Defined.

(** C8, counterexample: a search keyword (or an endpoint name) that carries
    a fenced block of its own. The next run reads that block, not the
    history. *)
Lemma history_round_trip_fails_after_fence :
  let md := ("**检测关键词:** ```json" +:+ JS.str1 JS.LF +:+ "[]"
             +:+ JS.str1 JS.LF +:+ "```" +:+ JS.str1 JS.LF)%string in
  CheckApi.json_history
    (CheckApi.load_history
       (Some (CheckApi.reportFileContent md (CheckApi.history_json [sample_day]))))
  = Some []
  /\ Some [] <> Some [sample_day].
Proof. split; [vm_compute; reflexivity | discriminate]. Qed.

(** ** The run on the loaded history *)

Section Run.
Import JS IO CheckApi.

Lemma api_is_result api r :
  Loaded.api_is api (result_json r) = Returned (String.eqb (r_api r) api).
Proof. destruct r as [[n|] a success st]; reflexivity. Qed.


Lemma find_results api rs :
  Loaded.find api (map result_json rs)
  = Returned (option_map result_json (find_api api rs)).
Proof.
  unfold find_api. induction rs as [|r rs IH]; [reflexivity|].
  cbn [map Loaded.find List.find]. rewrite api_is_result.
  destruct (String.eqb (r_api r) api); [reflexivity | exact IH].
Qed.

Lemma day_find_day api d :
  Loaded.day_find api (day_json d)
  = Returned (option_map result_json (find_api api (results d))).
Proof. apply find_results. Qed.

Lemma searchable_day api d : searchable api (day_json d).
Proof. eexists. apply day_find_day. Qed.






















End Run.




(** ** One run of [check_api.js] and the statistics of a disabled endpoint *)

Section Run.
Import IO CheckApi.

Lemma task_api keyword e net log :
  r_api (fst (task keyword e net log)) = e_api e.
Proof.
  unfold task. destruct (e_disabled e); [reflexivity|].
  rewrite !bind_run. reflexivity.
Qed.

Lemma task_disabled keyword e net log :
  e_disabled e = true -> r_success (fst (task keyword e net log)) = false.
Proof. unfold task. intros ->. reflexivity. Qed.

Lemma find_api_imap api (g : nat -> Entry -> Result) entries :
  (forall i e, r_api (g i e) = e_api e) ->
  (forall e, In e entries -> e_api e = api -> forall i, r_success (g i e) = false) ->
  (exists e, In e entries /\ e_api e = api) ->
  exists r, find_api api (imap g entries) = Some r /\ r_success r = false.
Proof.
  revert g. induction entries as [|x entries IH]; intros g Hapi Hfail (e & Hin & He).
  - destruct Hin.
  - rewrite imap_cons. unfold find_api. cbn [List.find].
    rewrite Hapi. destruct (String.eqb_spec (e_api x) api) as [Hx|Hx].
    + eexists. split; [reflexivity|]. apply Hfail; [left; reflexivity | exact Hx].
    + apply IH.
      * intros i e'. apply Hapi.
      * intros e' Hin' He' i. apply Hfail; [right; exact Hin' | exact He'].
      * destruct Hin as [->|Hin]; [congruence|]. eauto.
Qed.

Lemma count_while_app_true {B} (p : B -> bool) x l :
  p x = true -> count_while p (x :: l) = S (count_while p l).
Proof. intros H. cbn [count_while]. rewrite H. reflexivity. Qed.

Lemma count_while_take {B} (p : B -> bool) n l :
  count_while p (take n l) = Nat.min n (count_while p l).
Proof.
  revert n. induction l as [|x l IH]; intros [|n]; cbn [take count_while];
    try reflexivity.
  destruct (p x); [rewrite IH|]; reflexivity.
Qed.

Lemma count_fail_filter history api :
  count_fail history api = length (List.filter (failed api) history).
Proof.
  unfold count_fail.
  assert (H : forall n, fold_left (fun fail day =>
      match find_api api (results day) with
      | Some rec => if r_success rec then fail else S fail
      | None => fail
      end) history n = n + length (List.filter (failed api) history)).
  { induction history as [|d history IH]; intros n; cbn [fold_left List.filter].
    - simpl. lia.
    - rewrite IH. unfold failed at 2.
      destruct (find_api api (results d)) as [r|]; [|reflexivity].
      destruct (r_success r); cbn [negb length]; lia. }
  apply H.
Qed.

End Run.

(** C10, as amended: the day's record holds one outcome per configured
    endpoint, in configuration order, disabled ones included, and a disabled
    endpoint's outcome has [success: false]. For a URL that is configured
    on disabled entries only, a run raises the failure streak by one up to
    the window bound, and raises the in-window fail count by one while the
    window is not yet full: in a full window the oldest record makes room,
    and neither number goes above [MAX_DAYS]. *)
Theorem disabled_endpoint_accumulates_failures
    (keyword : string) (nets : nat -> IO.Network)
    (entries : list CheckApi.Entry) (history : History) (date : string)
    (e : CheckApi.Entry) :
  In e entries ->
  CheckApi.e_disabled e = true ->
  (forall e', In e' entries -> CheckApi.e_api e' = CheckApi.e_api e ->
              CheckApi.e_disabled e' = true) ->
  let today := mkDay date (CheckApi.todayResults keyword nets entries) in
  let history' := CheckApi.append history today in
  let api := CheckApi.e_api e in
  length (results today) = length entries
  /\ (forall i e', entries !! i = Some e' ->
        exists r, results today !! i = Some r
                  /\ r_api r = CheckApi.e_api e'
                  /\ (CheckApi.e_disabled e' = true -> r_success r = false))
  /\ CheckApi.streak history' api
     = Nat.min CheckApi.MAX_DAYS (CheckApi.streak history api + 1)
  /\ CheckApi.count_fail history' api
     = CheckApi.count_fail
         (drop (length history + 1 - CheckApi.MAX_DAYS) history) api + 1
  /\ (length history < CheckApi.MAX_DAYS ->
      CheckApi.count_fail history' api = CheckApi.count_fail history api + 1)
  /\ CheckApi.count_fail history' api <= CheckApi.MAX_DAYS.
Proof.
  intros Hin Hdis Hall today history' api.
  assert (Hfailed : failed api today = true).
  { unfold failed, today. cbn [results]. unfold CheckApi.todayResults.
    destruct (find_api_imap api
                (fun i e0 => fst (CheckApi.task keyword e0 (nets i) []))
                entries) as (r & -> & Hr).
    - intros i e0. apply task_api.
    - intros e0 Hin0 He0 i. apply task_disabled. apply Hall; assumption.
    - exists e. split; [exact Hin | reflexivity].
    - rewrite Hr. reflexivity. }
  destruct (checkapi_append_window history today) as (Heq & _ & Hlen).
  fold history' in Heq, Hlen.
  assert (Hdrop : length history + 1 - CheckApi.MAX_DAYS <= length history)
    by (unfold CheckApi.MAX_DAYS; lia).
  assert (Hcount : CheckApi.count_fail history' api
     = CheckApi.count_fail
         (drop (length history + 1 - CheckApi.MAX_DAYS) history) api + 1).
  { rewrite Heq, drop_app_le by exact Hdrop.
    rewrite !count_fail_filter, List.filter_app, length_app.
    cbn [List.filter]. rewrite Hfailed. reflexivity. }
  split; [|split; [|split; [|split; [exact Hcount|split]]]].
  - unfold today. cbn [results]. unfold CheckApi.todayResults.
    apply length_imap.
  - intros i e' He'. unfold today. cbn [results]. unfold CheckApi.todayResults.
    rewrite list_lookup_imap, He'. cbn [fmap option_fmap option_map].
    eexists. split; [reflexivity|]. split; [apply task_api|].
    apply task_disabled.
  - rewrite !checkapi_streak_eq, Heq, reverse_drop, count_while_take.
    rewrite reverse_snoc, (count_while_app_true _ _ _ Hfailed).
    rewrite length_app. cbn [length].
    pose proof (count_while_le (failed api) (reverse history)) as Hb.
    rewrite length_reverse in Hb. unfold CheckApi.MAX_DAYS. lia.
  - intros Hlt. rewrite Hcount.
    replace (length history + 1 - CheckApi.MAX_DAYS) with 0 by lia.
    reflexivity.
  - rewrite count_fail_filter.
    pose proof (filter_length_le (failed api) history'). lia.
Qed.

Lemma disabled_endpoint_accumulates_failures_witness :
  let history' :=
    CheckApi.append [failing_day; failing_day]
      (mkDay "2024-05-03"
         (CheckApi.todayResults "k" (fun _ _ _ => IO.Rejected "timeout")
            [disabled_entry])) in
  CheckApi.e_disabled disabled_entry = true
  /\ CheckApi.streak history' "http://a/api.php"
     = Nat.min CheckApi.MAX_DAYS
         (CheckApi.streak [failing_day; failing_day] "http://a/api.php" + 1).
Proof.
  split; [reflexivity|].
  refine (proj1 (proj2 (proj2
    (disabled_endpoint_accumulates_failures "k"
       (fun _ _ _ => IO.Rejected "timeout") [disabled_entry]
       [failing_day; failing_day] "2024-05-03" disabled_entry _ _ _)))).
  - left. reflexivity.
  - reflexivity.
  - intros e' [<-|[]] _. reflexivity.
Defined.

(** C10, counterexample: a window that is already full of the disabled
    endpoint's failures. After one more run the fail count and the streak
    are what they were: thirty. *)
Lemma disabled_endpoint_counts_stop_at_window :
  let history := replicate 30 failing_day in
  let history' :=
    CheckApi.append history
      (mkDay "2024-06-01"
         (CheckApi.todayResults "k" (fun _ _ _ => IO.Rejected "timeout")
            [disabled_entry])) in
  CheckApi.count_fail history "http://a/api.php" = 30
  /\ CheckApi.count_fail history' "http://a/api.php" = 30
  /\ CheckApi.streak history "http://a/api.php" = 30
  /\ CheckApi.streak history' "http://a/api.php" = 30.
Proof. repeat split; vm_compute; reflexivity. Qed.
(** ** The retry loops, for any network *)

Section Retry.
Import IO.

Lemma rejected_attempts_step (log : Log) url ms m messages (last : Event) :
  ((log ++ [Get url (Rejected m)]) ++ [Delay ms])
    ++ rejected_attempts url ms messages ++ [last]
  = log ++ rejected_attempts url ms (m :: messages) ++ [last].
Proof. rewrite <- !app_assoc. reflexivity. Qed.

Lemma requests_app (l1 l2 : Log) : requests (l1 ++ l2) = requests l1 + requests l2.
Proof. unfold requests. rewrite List.filter_app, length_app. reflexivity. Qed.

Lemma delays_app (l1 l2 : Log) : delays (l1 ++ l2) = delays l1 + delays l2.
Proof. unfold delays. rewrite List.filter_app, length_app. reflexivity. Qed.

Lemma requests_rejected_attempts url ms messages :
  requests (rejected_attempts url ms messages) = length messages.
Proof.
  induction messages as [|m messages IH]; [reflexivity|].
  change (rejected_attempts url ms (m :: messages))
    with ([Get url (Rejected m); Delay ms] ++ rejected_attempts url ms messages).
  rewrite requests_app, IH. reflexivity.
Qed.

Lemma delays_rejected_attempts url ms messages :
  delays (rejected_attempts url ms messages) = length messages.
Proof.
  induction messages as [|m messages IH]; [reflexivity|].
  change (rejected_attempts url ms (m :: messages))
    with ([Get url (Rejected m); Delay ms] ++ rejected_attempts url ms messages).
  rewrite delays_app, IH. reflexivity.
Qed.

(** Any loop that sends a request, returns on a response, and on a
    rejection pauses and tries again while attempts are left. *)
Section RetryLoop.
Context {A : Type}.
Variables (loop : nat -> nat -> Async A) (answer : Reply -> A).
Variables (url : string) (ms : Z) (budget : nat).

Hypothesis loop_step : forall fuel attempt net log,
  attempt + S fuel = S budget ->
  loop (S fuel) attempt net log
  = match net log url with
    | Response status data =>
      (answer (Response status data), log ++ [Get url (Response status data)])
    | Rejected m =>
      if attempt <? budget
      then loop fuel (S attempt) net ((log ++ [Get url (Rejected m)]) ++ [Delay ms])
      else (answer (Rejected m), log ++ [Get url (Rejected m)])
    end.

Lemma retry_loop_run net :
  forall fuel attempt log,
    attempt + fuel = S budget -> 0 < fuel ->
    retry_run (loop fuel attempt net log) answer url ms log fuel.
Proof.
  induction fuel as [|fuel IH]; intros attempt log Hsum Hpos; [lia|].
  rewrite loop_step by exact Hsum.
  destruct (net log url) as [m|status data].
  - destruct (Nat.ltb_spec attempt budget) as [Hlt|Hge].
    + destruct (IH (S attempt)
                  ((log ++ [Get url (Rejected m)]) ++ [Delay ms])
                  ltac:(lia) ltac:(lia))
        as (messages & last & Heq & Hlen & Hrej).
      exists (m :: messages), last. rewrite Heq.
      split; [f_equal; apply rejected_attempts_step|].
      split; [cbn [length]; lia|].
      intros m' Hm'. cbn [length]. rewrite (Hrej m' Hm'). reflexivity.
    + exists [], (Rejected m).
      split; [reflexivity|]. split; [cbn [length]; lia|].
      intros _ _. cbn [length]. lia.
  - exists [], (Response status data).
    split; [reflexivity|]. split; [cbn [length]; lia|].
    intros m' Hm'. discriminate Hm'.
Qed.

End RetryLoop.

Ltac retry_loop_eq :=
  intros fuel attempt net' log Hsum;
  cbn [CheckApi.safeGet_loop CheckApi.testSearch_loop
       Part000.safeGet_loop Part000.testSearch_loop];
  match goal with
  | |- context [?a <=? ?b] =>
    replace (a <=? b) with true by (symmetry; apply Nat.leb_le; lia)
  end;
  rewrite bind_get;
  match goal with
  | |- context [net' log ?url] => destruct (net' log url); [|reflexivity]
  end;
  match goal with
  | |- context [?a <? ?b] => destruct (Nat.ltb_spec a b)
  end;
  [ reflexivity
  | rewrite ?bind_ret; destruct fuel; [reflexivity | exfalso; lia] ].

Lemma checkapi_safeGet_loop_run net url : forall fuel attempt log,
  attempt + fuel = S CheckApi.MAX_RETRY -> 0 < fuel ->
  retry_run (CheckApi.safeGet_loop fuel attempt url net log)
    (fun last => match last with
                 | Response status _ => (status =? 200)%Z
                 | Rejected _ => false
                 end)
    url CheckApi.RETRY_DELAY_MS log fuel.
Proof.
  apply (retry_loop_run (fun fuel attempt => CheckApi.safeGet_loop fuel attempt url)).
  retry_loop_eq.
Qed.

Lemma part000_safeGet_loop_run net url : forall fuel attempt log,
  attempt + fuel = S Part000.MAX_RETRY -> 0 < fuel ->
  retry_run (Part000.safeGet_loop fuel attempt url net log)
    (fun last => match last with
                 | Response status _ => (status =? 200)%Z
                 | Rejected _ => false
                 end)
    url Part000.RETRY_DELAY_MS log fuel.
Proof.
  apply (retry_loop_run (fun fuel attempt => Part000.safeGet_loop fuel attempt url)).
  retry_loop_eq.
Qed.

Lemma checkapi_testSearch_loop_run net api keyword : forall fuel attempt log,
  attempt + fuel = S CheckApi.MAX_RETRY -> 0 < fuel ->
  retry_run (CheckApi.testSearch_loop fuel attempt api keyword net log)
    (fun last => match last with
                 | Response status data =>
                   CheckApi.search_verdict keyword status data
                 | Rejected _ => "❌"%string
                 end)
    (api +:+ "?wd=" +:+ encodeURIComponent keyword)
    CheckApi.RETRY_DELAY_MS log fuel.
Proof.
  apply (retry_loop_run
           (fun fuel attempt => CheckApi.testSearch_loop fuel attempt api keyword)).
  retry_loop_eq.
Qed.

Lemma part000_testSearch_loop_run net api keyword : forall fuel attempt log,
  attempt + fuel = S Part000.MAX_RETRY -> 0 < fuel ->
  retry_run (Part000.testSearch_loop fuel attempt api keyword net log)
    (fun last => match last with
                 | Response status data => Part000.search_verdict status data
                 | Rejected _ => "❌"%string
                 end)
    (api +:+ "?wd=" +:+ encodeURIComponent keyword)
    Part000.RETRY_DELAY_MS log fuel.
Proof.
  apply (retry_loop_run
           (fun fuel attempt => Part000.testSearch_loop fuel attempt api keyword)).
  retry_loop_eq.
Qed.

End Retry.

Section RetryCounts.
Import IO.

Lemma retry_run_counts {A} (run : A * Log) answer url ms log budget :
  retry_run run answer url ms log budget ->
  exists n, 1 <= n <= budget
    /\ requests (snd run) = requests log + n
    /\ delays (snd run) + 1 = delays log + n.
Proof.
  intros (messages & last & -> & Hlen & _).
  exists (S (length messages)). split; [lia|]. cbn [snd].
  rewrite !requests_app, !delays_app, requests_rejected_attempts,
    delays_rejected_attempts.
  unfold requests, delays. cbn. lia.
Qed.

Lemma checkapi_verdict_range keyword status data :
  In (CheckApi.search_verdict keyword status data)
     ["❌"; "无结果"; "✅"; "不匹配"]%string.
Proof.
  unfold CheckApi.search_verdict. cbn [In].
  repeat match goal with
         | |- context [if ?b then _ else _] => destruct b
         end; tauto.
Qed.

Lemma part000_verdict_range status data :
  In (Part000.search_verdict status data) ["❌"; "无结果"; "✅"]%string.
Proof.
  unfold Part000.search_verdict. cbn [In].
  destruct (_ || _); [tauto|].
  destruct (JS.prop "list" data) as [l|]; [|tauto].
  destruct (CheckApi.has_length l); tauto.
Qed.

End RetryCounts.

(** X1: for any network, [safeGet] tries again only after a rejection, pauses
    [RETRY_DELAY_MS] after each rejected attempt but the last, and sends at
    most [MAX_RETRY] requests, all to the given URL. The first response ends
    it, whatever its status; the answer is [true] exactly for a response
    with status 200. The sibling variant's [safeGet] does the same. *)
Theorem safeGet_stops_at_first_response
    (url : string) (net : IO.Network) (log : IO.Log) :
  retry_run (CheckApi.safeGet url net log)
    (fun last => match last with
                 | IO.Response status _ => (status =? 200)%Z
                 | IO.Rejected _ => false
                 end)
    url CheckApi.RETRY_DELAY_MS log CheckApi.MAX_RETRY
  /\ (exists n, 1 <= n <= CheckApi.MAX_RETRY
        /\ IO.requests (snd (CheckApi.safeGet url net log)) = IO.requests log + n
        /\ delays (snd (CheckApi.safeGet url net log)) + 1 = delays log + n)
  /\ Part000.safeGet url net log = CheckApi.safeGet url net log.
Proof.
  pose proof (checkapi_safeGet_loop_run net url CheckApi.MAX_RETRY 1 log
                eq_refl ltac:(unfold CheckApi.MAX_RETRY; lia)) as Hrun.
  split; [exact Hrun|]. split; [exact (retry_run_counts _ _ _ _ _ _ Hrun)|].
  reflexivity.
Qed.

(** X2: [testSearch] keeps to the same discipline on the search URL
    [api?wd=keyword], the keyword percent-encoded: the first response decides
    the verdict, and a rejection of the last attempt gives the cross.
    [check_api.js] answers one of four marks, the sibling variant one of
    three. *)
Theorem testSearch_verdict_of_first_response
    (api keyword : string) (net : IO.Network) (log : IO.Log) :
  let url := api +:+ "?wd=" +:+ IO.encodeURIComponent keyword in
  retry_run (CheckApi.testSearch api keyword net log)
    (fun last => match last with
                 | IO.Response status data =>
                   CheckApi.search_verdict keyword status data
                 | IO.Rejected _ => "❌"%string
                 end)
    url CheckApi.RETRY_DELAY_MS log CheckApi.MAX_RETRY
  /\ retry_run (Part000.testSearch api keyword net log)
    (fun last => match last with
                 | IO.Response status data => Part000.search_verdict status data
                 | IO.Rejected _ => "❌"%string
                 end)
    url Part000.RETRY_DELAY_MS log Part000.MAX_RETRY
  /\ In (fst (CheckApi.testSearch api keyword net log))
        ["❌"; "无结果"; "✅"; "不匹配"]%string
  /\ In (fst (Part000.testSearch api keyword net log))
        ["❌"; "无结果"; "✅"]%string.
Proof.
  intros url.
  pose proof (checkapi_testSearch_loop_run net api keyword CheckApi.MAX_RETRY 1
                log eq_refl ltac:(unfold CheckApi.MAX_RETRY; lia)) as H1.
  pose proof (part000_testSearch_loop_run net api keyword Part000.MAX_RETRY 1
                log eq_refl ltac:(unfold Part000.MAX_RETRY; lia)) as H2.
  split; [exact H1|]. split; [exact H2|].
  destruct H1 as (ms1 & last1 & Heq1 & _ & _).
  destruct H2 as (ms2 & last2 & Heq2 & _ & _).
  unfold CheckApi.testSearch, Part000.testSearch. rewrite Heq1, Heq2.
  cbn [fst]. split.
  - destruct last1; [cbn [In]; tauto | apply checkapi_verdict_range].
  - destruct last2; [cbn [In]; tauto | apply part000_verdict_range].
Qed.

Section ProbeCounts.
Import IO.

Lemma safeGet_counts_checkapi url net log :
  exists n, 1 <= n <= CheckApi.MAX_RETRY
    /\ requests (snd (CheckApi.safeGet url net log)) = requests log + n
    /\ delays (snd (CheckApi.safeGet url net log)) + 1 = delays log + n.
Proof.
  eapply retry_run_counts.
  apply (checkapi_safeGet_loop_run net url CheckApi.MAX_RETRY 1 log eq_refl).
  unfold CheckApi.MAX_RETRY. lia.
Qed.

Lemma safeGet_counts_part000 url net log :
  exists n, 1 <= n <= Part000.MAX_RETRY
    /\ requests (snd (Part000.safeGet url net log)) = requests log + n
    /\ delays (snd (Part000.safeGet url net log)) + 1 = delays log + n.
Proof.
  eapply retry_run_counts.
  apply (part000_safeGet_loop_run net url Part000.MAX_RETRY 1 log eq_refl).
  unfold Part000.MAX_RETRY. lia.
Qed.

Lemma testSearch_counts_checkapi api keyword net log :
  exists n, 1 <= n <= CheckApi.MAX_RETRY
    /\ requests (snd (CheckApi.testSearch api keyword net log)) = requests log + n
    /\ In (fst (CheckApi.testSearch api keyword net log))
          ["❌"; "无结果"; "✅"; "不匹配"]%string.
Proof.
  pose proof (checkapi_testSearch_loop_run net api keyword CheckApi.MAX_RETRY 1
                log eq_refl ltac:(unfold CheckApi.MAX_RETRY; lia)) as H.
  destruct (retry_run_counts _ _ _ _ _ _ H) as (n & Hn & Hr & _).
  exists n. split; [exact Hn|]. split; [exact Hr|].
  destruct H as (ms & last & Heq & _ & _).
  unfold CheckApi.testSearch. rewrite Heq. cbn [fst].
  destruct last; [cbn [In]; tauto | apply checkapi_verdict_range].
Qed.

Lemma testSearch_counts_part000 api keyword net log :
  exists n, 1 <= n <= Part000.MAX_RETRY
    /\ requests (snd (Part000.testSearch api keyword net log)) = requests log + n
    /\ In (fst (Part000.testSearch api keyword net log))
          ["❌"; "无结果"; "✅"]%string.
Proof.
  pose proof (part000_testSearch_loop_run net api keyword Part000.MAX_RETRY 1
                log eq_refl ltac:(unfold Part000.MAX_RETRY; lia)) as H.
  destruct (retry_run_counts _ _ _ _ _ _ H) as (n & Hn & Hr & _).
  exists n. split; [exact Hn|]. split; [exact Hr|].
  destruct H as (ms & last & Heq & _ & _).
  unfold Part000.testSearch. rewrite Heq. cbn [fst].
  destruct last; [cbn [In]; tauto | apply part000_verdict_range].
Qed.

End ProbeCounts.

Section Tasks.
Import IO.

Lemma checkapi_task_enabled keyword e net log :
  CheckApi.e_disabled e = false ->
  CheckApi.task keyword e net log
  = let ping := CheckApi.safeGet (CheckApi.e_api e) net log in
    let search := CheckApi.testSearch (CheckApi.e_api e) keyword net (snd ping) in
    (mkResult (CheckApi.e_name e) (CheckApi.e_api e) (fst ping) (fst search),
     snd search).
Proof.
  intros He. unfold CheckApi.task. rewrite He.
  cbn [CheckApi.ENABLE_SEARCH_TEST]. rewrite !bind_run. reflexivity.
Qed.

Lemma part000_task_enabled keyword e net log :
  Part000.e_disabled e = false ->
  Part000.task keyword e net log
  = let ping := Part000.safeGet (Part000.e_api e) net log in
    if fst ping
    then
      let search := Part000.testSearch (Part000.e_api e) keyword net (snd ping) in
      (mkResult None (Part000.e_api e) true (fst search), snd search)
    else (mkResult None (Part000.e_api e) false "-", snd ping).
Proof.
  intros He. unfold Part000.task. rewrite He. rewrite bind_run. cbv zeta.
  destruct (fst (Part000.safeGet (Part000.e_api e) net log));
    cbn [andb Part000.ENABLE_SEARCH_TEST]; [rewrite bind_run|]; reflexivity.
Qed.

End Tasks.

(** X3: what the task of an enabled source stores. In [check_api.js] the
    [success] flag is the answer of the connectivity check alone, the search
    runs whatever that answer was, and [searchStatus] is one of the four
    marks of [testSearch], so a task sends between 2 and [2 * MAX_RETRY]
    requests. In the sibling variant the search runs only after a
    successful check: a failure is stored with [searchStatus] ["-"] after at
    most [MAX_RETRY] requests, a success with one of the three marks. *)
Theorem task_outcome_of_enabled_source
    (keyword : string) (s : Source) (net : IO.Network) (log : IO.Log) :
  enabled s = true ->
  (let run := CheckApi.task keyword (CheckApi.apiEntry s) net log in
   r_api (fst run) = s_baseUrl s
   /\ r_success (fst run) = fst (CheckApi.safeGet (s_baseUrl s) net log)
   /\ In (r_searchStatus (fst run)) ["❌"; "无结果"; "✅"; "不匹配"]%string
   /\ IO.requests log + 2 <= IO.requests (snd run)
       <= IO.requests log + 2 * CheckApi.MAX_RETRY)
  /\ (let run := Part000.task keyword (Part000.apiEntry s) net log in
      r_api (fst run) = s_baseUrl s
      /\ r_success (fst run) = fst (Part000.safeGet (s_baseUrl s) net log)
      /\ (if r_success (fst run)
          then In (r_searchStatus (fst run)) ["❌"; "无结果"; "✅"]%string
               /\ IO.requests log + 2 <= IO.requests (snd run)
                   <= IO.requests log + 2 * Part000.MAX_RETRY
          else r_searchStatus (fst run) = "-"%string
               /\ IO.requests log + 1 <= IO.requests (snd run)
                   <= IO.requests log + Part000.MAX_RETRY)).
Proof.
  intros Hen.
  assert (Hc : CheckApi.e_disabled (CheckApi.apiEntry s) = false).
  { unfold enabled in Hen. cbn [CheckApi.apiEntry CheckApi.e_disabled].
    destruct (s_enabled s) as [[|]|]; [reflexivity | discriminate | reflexivity]. }
  assert (Hp : Part000.e_disabled (Part000.apiEntry s) = false).
  { unfold enabled in Hen. cbn [Part000.apiEntry Part000.e_disabled].
    destruct (s_enabled s) as [[|]|]; [reflexivity | discriminate | reflexivity]. }
  split.
  - cbv zeta. rewrite (checkapi_task_enabled _ _ _ _ Hc). cbv zeta.
    cbn [fst snd r_api r_success r_searchStatus CheckApi.apiEntry CheckApi.e_api].
    destruct (safeGet_counts_checkapi (s_baseUrl s) net log) as (n & Hn & Hr & _).
    destruct (testSearch_counts_checkapi (s_baseUrl s) keyword net
                (snd (CheckApi.safeGet (s_baseUrl s) net log)))
      as (n' & Hn' & Hr' & Hin).
    split; [reflexivity|]. split; [reflexivity|]. split; [exact Hin|].
    unfold CheckApi.MAX_RETRY in *. lia.
  - cbv zeta. rewrite (part000_task_enabled _ _ _ _ Hp). cbv zeta.
    cbn [Part000.apiEntry Part000.e_api].
    destruct (safeGet_counts_part000 (s_baseUrl s) net log) as (n & Hn & Hr & _).
    destruct (fst (Part000.safeGet (s_baseUrl s) net log)) eqn:Hok;
      cbn [fst snd r_api r_success r_searchStatus].
    + destruct (testSearch_counts_part000 (s_baseUrl s) keyword net
                  (snd (Part000.safeGet (s_baseUrl s) net log)))
        as (n' & Hn' & Hr' & Hin).
      split; [reflexivity|]. split; [reflexivity|]. split; [exact Hin|].
      unfold Part000.MAX_RETRY in *. lia.
    + split; [reflexivity|]. split; [reflexivity|]. split; [reflexivity|].
      unfold Part000.MAX_RETRY in *. lia.
Qed.

Lemma task_outcome_of_enabled_source_witness :
  let net : IO.Network := fun _ _ => IO.Rejected "timeout" in
  enabled sample_source = true
  /\ r_success (fst (CheckApi.task "k" (CheckApi.apiEntry sample_source) net []))
     = fst (CheckApi.safeGet (s_baseUrl sample_source) net []).
Proof.
  split; [reflexivity|].
  exact (proj1 (proj2 (proj1
    (task_outcome_of_enabled_source "k" sample_source
       (fun _ _ => IO.Rejected "timeout") [] eq_refl)))).
Defined.
(** ** The quality scan and the files it writes *)

Section Scan.
Import IO.

Lemma inspect_thrown_nonempty data reason m :
  Part001.inspect data reason = Thrown m -> m <> EmptyString.
Proof.
  unfold Part001.inspect.
  destruct (if JS.truthy (Some data) then JS.prop "list" data else None)
    as [list|]; [|discriminate].
  destruct (negb (JS.truthy (Some list))); [discriminate|].
  destruct (Part001.length_is_zero list); [discriminate|].
  destruct (Part001.sample_name (Part001.first_item list)) as [name|m'] eqn:Hs.
  - destruct (Part001.polluted name) as [[|]|m''] eqn:Hp; try discriminate.
    intros [= <-]. unfold Part001.polluted in Hp.
    destruct name; try discriminate Hp; injection Hp as <-; discriminate.
  - intros [= <-]. unfold Part001.sample_name in Hs.
    destruct (Part001.first_item list) as [v|];
      [|injection Hs as <-; discriminate].
    destruct v; try (injection Hs as <-; discriminate);
      destruct (JS.prop "vod_name" _) as [x|]; try discriminate Hs;
      destruct (JS.truthy (Some x)); discriminate Hs.
Qed.

(** One attempt: it throws a message that is there, or it returns the
    passing verdict after two answered requests, and then only with no
    [errorReason] carried in. *)
Lemma attempt_outcome keyword item net reason log :
  rejections_have_messages net ->
  let a := Part001.attempt keyword (s_baseUrl item) reason net log in
  IO.requests log + 1 <= IO.requests (snd a) <= IO.requests log + 2
  /\ delays (snd a) = delays log
  /\ match fst a with
     | Thrown m => m <> EmptyString
     | Returned v =>
       v = Part001.mkVerdict true "正常"
       /\ reason = EmptyString
       /\ exists d status data,
            snd a = log ++ [Get (s_baseUrl item) (Response 200 d);
                            Get (search_url keyword item) (Response status data)]
     end.
Proof.
  intros Hnet. cbv zeta. unfold Part001.attempt. rewrite bind_get.
  destruct (net log (s_baseUrl item)) as [m|status d] eqn:Hping.
  - cbn [ret fst snd]. rewrite requests_get, delays_app.
    split; [lia|]. split; [cbn; lia|]. exact (Hnet _ _ _ Hping).
  - destruct (Z.eqb_spec status 200) as [->|Hne]; cbn [negb].
    + rewrite bind_get. fold (search_url keyword item).
      destruct (net (log ++ [Get (s_baseUrl item) (Response 200 d)])
                    (search_url keyword item)) as [m|st data] eqn:Hsearch.
      * cbn [ret fst snd]. rewrite !requests_get, !delays_app.
        split; [lia|]. split; [cbn; lia|]. exact (Hnet _ _ _ Hsearch).
      * assert (Hcount :
          requests log + 1
          <= requests ((log ++ [Get (s_baseUrl item) (Response 200 d)])
                         ++ [Get (search_url keyword item) (Response st data)])
          <= requests log + 2
          /\ delays ((log ++ [Get (s_baseUrl item) (Response 200 d)])
                       ++ [Get (search_url keyword item) (Response st data)])
             = delays log).
        { rewrite !requests_get, !delays_app. split; [lia | cbn; lia]. }
        destruct Hcount as [Hreq Hdel].
        destruct (Part001.inspect data reason) as [r|m] eqn:Hins.
        -- destruct (JS.is_empty r) eqn:Hr; cbn [negb ret fst snd].
           ++ split; [exact Hreq|]. split; [exact Hdel|].
              split; [reflexivity|]. split.
              ** destruct reason as [|c reason]; [reflexivity|].
                 pose proof (inspect_keeps_reason data (String c reason) r
                               eq_refl Hins) as Hkeep.
                 congruence.
              ** exists d, st, data. rewrite <- app_assoc. reflexivity.
           ++ split; [exact Hreq|]. split; [exact Hdel|].
              destruct r; [discriminate Hr | discriminate].
        -- cbn [ret fst snd]. split; [exact Hreq|]. split; [exact Hdel|].
           exact (inspect_thrown_nonempty _ _ _ Hins).
    + cbn [ret fst snd]. rewrite requests_get, delays_app.
      split; [lia|]. split; [cbn; lia|]. discriminate.
Qed.

End Scan.

(** X4: in the quality scan the second attempt cannot save a source. Over a
    network whose rejections carry a message, a passing verdict comes from
    the first attempt alone: two answered requests, no pause, reason
    ["正常"]. Whatever fails in the first attempt leaves its message in
    [errorReason], and the second attempt throws it again; the failing
    verdict always has a reason. A scan sends at most [2 * MAX_RETRY]
    requests and pauses at most once. *)
Theorem testSource_first_failure_is_final
    (keyword : string) (item : Source) (net : IO.Network) (log : IO.Log) :
  rejections_have_messages net ->
  let run := Part001.testSource keyword item net log in
  (if Part001.success (fst run)
   then fst run = Part001.mkVerdict true "正常"
        /\ exists d status data,
             snd run
             = log ++ [IO.Get (s_baseUrl item) (IO.Response 200 d);
                       IO.Get (search_url keyword item) (IO.Response status data)]
   else Part001.reason (fst run) <> EmptyString)
  /\ IO.requests log + 1 <= IO.requests (snd run)
     <= IO.requests log + 2 * Part001.MAX_RETRY
  /\ delays log <= delays (snd run) <= delays log + 1.
Proof.
  intros Hnet. cbv zeta. rewrite testSource_unfold. cbv zeta.
  destruct (attempt_outcome keyword item net EmptyString log Hnet)
    as (Hreq1 & Hdel1 & Hout1).
  destruct (fst (Part001.attempt keyword (s_baseUrl item) EmptyString net log))
    as [v|m1].
  - destruct Hout1 as (-> & _ & Hlog). cbn [fst snd Part001.success].
    split; [split; [reflexivity | exact Hlog]|].
    unfold Part001.MAX_RETRY. lia.
  - match goal with
    | |- context [Part001.attempt keyword (s_baseUrl item) m1 net ?l] =>
      destruct (attempt_outcome keyword item net m1 l Hnet)
        as (Hreq2 & Hdel2 & Hout2);
      destruct (fst (Part001.attempt keyword (s_baseUrl item) m1 net l))
        as [v|m2]
    end.
    + destruct Hout2 as (_ & Hm1 & _). congruence.
    + cbn [fst snd Part001.success Part001.reason].
      rewrite requests_delay in Hreq2. rewrite delays_app in Hdel2.
      split; [exact Hout2|]. unfold Part001.MAX_RETRY.
      change (delays [IO.Delay 1000]) with 1 in Hdel2. lia.
Qed.

Lemma testSource_first_failure_is_final_witness :
  let data :=
    JS.JObj [("list"%string,
              JS.JArr [JS.JObj [("vod_name"%string, JS.JStr "斗罗大陆")]])] in
  let net : IO.Network := fun _ _ => IO.Response 200 data in
  rejections_have_messages net
  /\ fst (Part001.testSource "斗罗大陆" sample_source net [])
     = Part001.mkVerdict true "正常".
Proof.
  assert (Hnet : rejections_have_messages
                   (fun _ _ => IO.Response 200
                      (JS.JObj [("list"%string,
                         JS.JArr [JS.JObj [("vod_name"%string,
                                            JS.JStr "斗罗大陆")]])]))).
  { intros log url m H. discriminate H. }
  split; [exact Hnet|].
  exact (proj1 (proj1
    (testSource_first_failure_is_final "斗罗大陆" sample_source _ [] Hnet))).
Defined.

Section Files.
Import Part001Files.

Lemma finalItem_kept (r : Scanned) :
  (let item := finalItem r in
   negb (String.eqb (f_group item) "adult")
   && negb (negb (f_enabled item)
            || match f_comment item with
               | Some c => negb (JS.is_empty c)
               | None => false
               end)) = passes r.
Proof.
  unfold finalItem, passes, enabled. cbv zeta.
  destruct (sc_success r); cbn [negb andb];
    destruct (s_enabled (sc_item r)) as [[|]|];
    cbn [f_group f_enabled f_comment negb orb andb];
    rewrite ?Bool.andb_false_r, ?Bool.andb_true_r; try reflexivity;
    destruct (s_group (sc_item r)) as [[|c g]|]; reflexivity.
Qed.

End Files.

(** X5: the two files of the scan. [adult.json] keeps every configured
    source, in order, enabled exactly when the configuration did not disable
    it and its scan passed, and with a [_comment] exactly when the scan
    failed. [lite.json] holds, in the same order, exactly the entries of the
    sources that passed, were not disabled and are not of group ["adult"];
    each of them is enabled and carries no [_comment]. *)
Theorem lite_keeps_passing_sources (rawResults : list Part001Files.Scanned) :
  let adult := Part001Files.adultData rawResults in
  let lite := Part001Files.liteData adult in
  map Part001Files.f_baseUrl adult
    = map (fun r => s_baseUrl (Part001Files.sc_item r)) rawResults
  /\ (forall r,
        Part001Files.f_enabled (Part001Files.finalItem r)
          = Part001Files.sc_success r && enabled (Part001Files.sc_item r)
        /\ (Part001Files.f_comment (Part001Files.finalItem r) = None
            <-> Part001Files.sc_success r = true))
  /\ lite = map Part001Files.finalItem (List.filter passes rawResults)
  /\ (forall item, In item lite ->
        Part001Files.f_enabled item = true
        /\ Part001Files.f_comment item = None
        /\ Part001Files.f_group item <> "adult"%string).
Proof.
  cbv zeta.
  assert (Hlite : Part001Files.liteData (Part001Files.adultData rawResults)
                  = map Part001Files.finalItem (List.filter passes rawResults)).
  { unfold Part001Files.liteData, Part001Files.adultData.
    induction rawResults as [|r raw IH]; [reflexivity|].
    cbn [map List.filter]. rewrite IH. cbv zeta.
    pose proof (finalItem_kept r) as Hk. cbv zeta in Hk. rewrite Hk.
    destruct (passes r); reflexivity. }
  split; [|split; [|split; [exact Hlite|]]].
  - unfold Part001Files.adultData. rewrite map_map. apply map_ext.
    intros r. unfold Part001Files.finalItem.
    destruct (Part001Files.sc_success r); reflexivity.
  - intros r. unfold Part001Files.finalItem, enabled.
    destruct (Part001Files.sc_success r); cbn [negb andb];
      cbn [Part001Files.f_enabled Part001Files.f_comment].
    + split; [reflexivity | tauto].
    + split; [reflexivity|]. split; discriminate.
  - rewrite Hlite. intros item Hin. apply in_map_iff in Hin as (r & <- & Hr).
    apply filter_In in Hr as [_ Hr]. unfold passes in Hr.
    apply andb_prop in Hr as [Hr Hg]. apply andb_prop in Hr as [Hs He].
    unfold Part001Files.finalItem. rewrite Hs. cbn [negb].
    cbn [Part001Files.f_enabled Part001Files.f_comment Part001Files.f_group].
    unfold enabled in He.
    split; [destruct (s_enabled (Part001Files.sc_item r)) as [[|]|];
            first [reflexivity | discriminate]|].
    split; [reflexivity|].
    destruct (s_group (Part001Files.sc_item r)) as [[|c g]|];
      cbn [JS.is_empty]; try discriminate.
    intros Heq. rewrite Heq in Hg. discriminate Hg.
Qed.
(** ** The window and the statistics after a run *)

Section Window.

Lemma count_while_le_filter {B} (p : B -> bool) l :
  count_while p l <= length (List.filter p l).
Proof.
  induction l as [|x l IH]; cbn [count_while List.filter]; [lia|].
  destruct (p x); cbn [length]; lia.
Qed.

Lemma length_filter_reverse {B} (p : B -> bool) (l : list B) :
  length (List.filter p (reverse l)) = length (List.filter p l).
Proof.
  induction l as [|x l IH]; [reflexivity|].
  rewrite reverse_cons, List.filter_app, length_app, IH.
  cbn [List.filter]. destruct (p x); cbn [length]; lia.
Qed.

Lemma count_ok_filter history api :
  CheckApi.count_ok history api = length (List.filter (succeeded api) history).
Proof.
  unfold CheckApi.count_ok.
  assert (H : forall n, fold_left (fun ok day =>
      match find_api api (results day) with
      | Some rec => if r_success rec then S ok else ok
      | None => ok
      end) history n = n + length (List.filter (succeeded api) history)).
  { induction history as [|d history IH]; intros n; cbn [fold_left List.filter].
    - simpl. lia.
    - rewrite IH. unfold succeeded at 2.
      destruct (find_api api (results d)) as [r|]; [|reflexivity].
      cbn [opt_success]. destruct (r_success r); cbn [length]; lia. }
  apply H.
Qed.

Lemma recorded_split api history :
  length (List.filter (succeeded api) history)
  + length (List.filter (failed api) history)
  = length (List.filter (recorded api) history).
Proof.
  induction history as [|d history IH]; [reflexivity|].
  cbn [List.filter]. unfold succeeded at 1, failed at 1, recorded at 1.
  destruct (find_api api (results d)) as [r|]; cbn [opt_success]; [|exact IH].
  destruct (r_success r); cbn [negb length]; lia.
Qed.

Lemma checkapi_streak_le history api :
  CheckApi.streak history api <= length history.
Proof.
  rewrite checkapi_streak_eq.
  etransitivity; [apply count_while_le|]. rewrite length_reverse. lia.
Qed.

Lemma part000_streak_le history api :
  Part000.streak history api <= length history.
Proof.
  rewrite part000_streak_eq. unfold streak_spec.
  etransitivity; [apply count_while_le|]. rewrite length_reverse. lia.
Qed.

Lemma checkapi_streak_snoc history day api :
  CheckApi.streak (history ++ [day]) api
  = if failed api day then S (CheckApi.streak history api) else 0.
Proof. rewrite !checkapi_streak_eq, reverse_snoc. reflexivity. Qed.

Lemma part000_streak_snoc history day api :
  Part000.streak (history ++ [day]) api
  = if succeeded api day then 0 else S (Part000.streak history api).
Proof.
  rewrite !part000_streak_eq. unfold streak_spec. rewrite reverse_snoc.
  cbn [count_while]. destruct (succeeded api day); reflexivity.
Qed.

Lemma checkapi_streak_drop k history api :
  CheckApi.streak (drop k history) api
  = Nat.min (length history - k) (CheckApi.streak history api).
Proof.
  rewrite !checkapi_streak_eq, reverse_drop, count_while_take. reflexivity.
Qed.

Lemma part000_streak_drop k history api :
  Part000.streak (drop k history) api
  = Nat.min (length history - k) (Part000.streak history api).
Proof.
  rewrite !part000_streak_eq. unfold streak_spec.
  rewrite reverse_drop, count_while_take. reflexivity.
Qed.

Lemma checkapi_streak_append history day api :
  CheckApi.streak (CheckApi.append history day) api
  = if failed api day
    then Nat.min (length (CheckApi.append history day))
                 (S (CheckApi.streak history api))
    else 0.
Proof.
  destruct (checkapi_append_window history day) as (Heq & _ & Hlen).
  rewrite Hlen, Heq.
  rewrite drop_app_le by (unfold CheckApi.MAX_DAYS; lia).
  rewrite checkapi_streak_snoc, checkapi_streak_drop.
  pose proof (checkapi_streak_le history api).
  destruct (failed api day); [|reflexivity].
  unfold CheckApi.MAX_DAYS. lia.
Qed.

Lemma part000_streak_append history day api :
  Part000.streak (Part000.append history day) api
  = if succeeded api day then 0
    else Nat.min (length (Part000.append history day))
                 (S (Part000.streak history api)).
Proof.
  pose proof (part000_streak_le history api) as Hle.
  unfold Part000.append. cbv zeta. rewrite length_app. cbn [length].
  destruct (Nat.ltb_spec Part000.MAX_DAYS (length history + 1)) as [H|H].
  - rewrite drop_app_le by (unfold Part000.MAX_DAYS in H; lia).
    rewrite part000_streak_snoc, part000_streak_drop, length_app, length_drop.
    cbn [length]. destruct (succeeded api day); [reflexivity|].
    unfold Part000.MAX_DAYS in H. lia.
  - rewrite part000_streak_snoc, length_app. cbn [length].
    destruct (succeeded api day); [reflexivity|]. lia.
Qed.



End Window.

(** X6: the counters of [check_api.js] over a window. [ok] and [fail]
    together count the records that hold an outcome for the URL, so their
    sum never exceeds the number of records; the streak counts failures that
    are in the window, so it never exceeds [fail]. *)
Theorem counters_stay_within_window (history : History) (api : string) :
  CheckApi.count_ok history api + CheckApi.count_fail history api
    = length (List.filter (recorded api) history)
  /\ CheckApi.count_ok history api + CheckApi.count_fail history api
     <= length history
  /\ CheckApi.streak history api <= CheckApi.count_fail history api.
Proof.
  rewrite count_ok_filter, count_fail_filter, recorded_split.
  split; [reflexivity|]. split.
  - apply List.filter_length_le.
  - rewrite checkapi_streak_eq, <- (length_filter_reverse (failed api)).
    apply count_while_le_filter.
Qed.

(** X7: what one run does to the streak of any URL. In [check_api.js] a day
    that records a failure for the URL makes the streak one longer, up to
    the length of the window that is kept; a day that records a success, or
    nothing at all, for the URL puts it back to 0. In the sibling variant a
    success puts it back to 0, and a failure or a missing outcome makes it
    one longer. *)
Theorem streak_after_run (history : History) (day : Day) (api : string) :
  CheckApi.streak (CheckApi.append history day) api
    = (if failed api day
       then Nat.min (length (CheckApi.append history day))
                    (S (CheckApi.streak history api))
       else 0)
  /\ Part000.streak (Part000.append history day) api
    = (if succeeded api day then 0
       else Nat.min (length (Part000.append history day))
                    (S (Part000.streak history api))).
Proof.
  split; [apply checkapi_streak_append | apply part000_streak_append].
Qed.


(** A success of the day puts the streak back to 0, so the alarm status,
    although it is tested first, never hides a success of the day: the
    statistics of an entry are healthy exactly when the entry is not
    disabled and its outcome of the day is a success. *)
Lemma checkapi_stat_healthy
    (history : History) (date : string) (todayResults : list Result)
    (e : CheckApi.Entry) :
  CheckApiStats.st_status
    (CheckApiStats.stat (CheckApi.append history (mkDay date todayResults))
                        todayResults e) = HEALTHY
  <-> CheckApi.e_disabled e = false
      /\ exists r, find_api (CheckApi.e_api e) todayResults = Some r
                   /\ r_success r = true.
Proof.
  cbn [CheckApiStats.stat CheckApiStats.st_status].
  rewrite checkapi_streak_append. unfold failed. cbn [results].
  unfold CheckApi.classify, CheckApi.WARN_STREAK.
  destruct (CheckApi.e_disabled e);
    [split; [discriminate | intros [? _]; discriminate]|].
  destruct (find_api (CheckApi.e_api e) todayResults) as [r|];
    cbn [opt_success].
  - destruct (r_success r) eqn:Hr; cbn [negb Nat.leb].
    + split; [eauto | reflexivity].
    + split; [|intros [_ (r' & [= <-] & ?)]; congruence].
      match goal with
      | |- context [if ?b then CRITICAL else _] => destruct b
      end; discriminate.
  - cbn [Nat.leb].
    split; [discriminate | intros [_ (r' & ? & _)]; discriminate].
Qed.

Lemma part000_stat_healthy
    (history : History) (date : string) (todayResults : list Result)
    (s : Part000.Entry) :
  Part000Report.st_status
    (Part000Report.stat (Part000.append history (mkDay date todayResults))
                        todayResults s) = HEALTHY
  <-> Part000.e_disabled s = false
      /\ exists r, find_api (Part000.e_api s) todayResults = Some r
                   /\ r_success r = true.
Proof.
  cbn [Part000Report.stat Part000Report.st_status].
  rewrite part000_streak_append. unfold succeeded. cbn [results].
  unfold Part000.classify, Part000.WARN_STREAK.
  destruct (Part000.e_disabled s);
    [split; [discriminate | intros [? _]; discriminate]|].
  destruct (find_api (Part000.e_api s) todayResults) as [r|];
    cbn [opt_success].
  - destruct (r_success r) eqn:Hr; cbn [negb Nat.leb].
    + split; [eauto | reflexivity].
    + split; [|intros [_ (r' & [= <-] & ?)]; congruence].
      match goal with
      | |- context [if ?b then CRITICAL else _] => destruct b
      end; discriminate.
  - cbn [negb Nat.leb].
    split; [|intros [_ (r' & ? & _)]; discriminate].
    match goal with
    | |- context [if ?b then CRITICAL else _] => destruct b
    end; discriminate.
Qed.

Section Trend.

Lemma reverse_map {B C} (f : B -> C) (l : list B) :
  reverse (map f l) = map f (reverse l).
Proof.
  induction l as [|x l IH]; [reflexivity|].
  cbn [map]. rewrite !reverse_cons, IH, map_app. reflexivity.
Qed.

Lemma count_while_map {B C} (p : C -> bool) (f : B -> C) (l : list B) :
  count_while p (map f l) = count_while (fun x => p (f x)) l.
Proof.
  induction l as [|x l IH]; [reflexivity|].
  cbn [map count_while]. rewrite IH. reflexivity.
Qed.

Lemma count_while_ext {B} (p q : B -> bool) (l : list B) :
  (forall x, p x = q x) -> count_while p l = count_while q l.
Proof.
  intros H. induction l as [|x l IH]; [reflexivity|].
  cbn [count_while]. rewrite H, IH. reflexivity.
Qed.

Lemma cross_cell api day :
  String.eqb "❌" (CheckApiStats.cell api day) = failed api day.
Proof.
  unfold CheckApiStats.cell, failed.
  destruct (find_api api (results day)) as [r|]; [|reflexivity].
  destruct (r_success r); reflexivity.
Qed.

End Trend.

(** X10: the seven-day trend of [check_api.js] has one cell for each of the
    last seven records of the window, fewer when the window is shorter, the
    latest last; and it ends with as many crosses as the streak counts, up
    to seven. *)
Theorem trend_ends_with_the_streak (history : History) (api : string) :
  let cells := map (CheckApiStats.cell api) (Obj.slice_last 7 history) in
  CheckApiStats.trend history api = JS.join "" cells
  /\ length cells = Nat.min 7 (length history)
  /\ count_while (String.eqb "❌") (reverse cells)
     = Nat.min 7 (CheckApi.streak history api).
Proof.
  cbv zeta. split; [reflexivity|]. unfold Obj.slice_last. split.
  - rewrite length_map, length_drop. lia.
  - rewrite reverse_map, count_while_map, reverse_drop, count_while_take.
    rewrite (count_while_ext _ (failed api)) by apply cross_cell.
    rewrite <- checkapi_streak_eq.
    pose proof (checkapi_streak_le history api). lia.
Qed.
(** ** The rows of the report table *)

Section Sort.
Context {V : Type}.
Variable rank : V -> Z.

Abbreviation by_rank := (fun a b : V => (rank a - rank b)%Z).
Abbreviation of_rank := (fun (k : Z) (y : V) => (rank y =? k)%Z).

Lemma insert_by_perm x l : Permutation (Obj.insert_by by_rank x l) (x :: l).
Proof.
  induction l as [|y l IH]; cbn [Obj.insert_by]; [reflexivity|].
  destruct (0 <? rank x - rank y)%Z; [|reflexivity].
  rewrite IH. apply perm_swap.
Qed.

Lemma sort_perm l : Permutation (Obj.sort by_rank l) l.
Proof.
  induction l as [|x l IH]; [reflexivity|].
  unfold Obj.sort in *. cbn [fold_right].
  rewrite insert_by_perm, IH. reflexivity.
Qed.

Lemma insert_by_sorted x l :
  StronglySorted (fun a b => (rank a <= rank b)%Z) l ->
  StronglySorted (fun a b => (rank a <= rank b)%Z) (Obj.insert_by by_rank x l).
Proof.
  induction 1 as [|y l Hl IH Hy]; cbn [Obj.insert_by].
  - repeat constructor.
  - destruct (Z.ltb_spec 0 (rank x - rank y)) as [Hgt|Hle].
    + constructor; [exact IH|].
      apply Forall_forall. intros z Hz.
      apply list_elem_of_In in Hz.
      apply (Permutation_in _ (insert_by_perm x l)) in Hz.
      destruct Hz as [<-|Hz]; [lia|].
      rewrite List.Forall_forall in Hy. apply Hy, Hz.
    + constructor; [constructor; assumption|].
      constructor; [lia|].
      rewrite List.Forall_forall in Hy. apply List.Forall_forall.
      intros z Hz. specialize (Hy z Hz). lia.
Qed.

Lemma sort_sorted l :
  StronglySorted (fun a b => (rank a <= rank b)%Z) (Obj.sort by_rank l).
Proof.
  induction l as [|x l IH]; [constructor|].
  unfold Obj.sort in *. cbn [fold_right]. apply insert_by_sorted, IH.
Qed.

Lemma insert_by_stable k x l :
  List.filter (of_rank k) (Obj.insert_by by_rank x l)
  = List.filter (of_rank k) (x :: l).
Proof.
  induction l as [|y l IH]; cbn [Obj.insert_by]; [reflexivity|].
  destruct (Z.ltb_spec 0 (rank x - rank y)) as [Hgt|Hle]; [|reflexivity].
  cbn [List.filter] in *. rewrite IH.
  destruct (Z.eqb_spec (rank x) k), (Z.eqb_spec (rank y) k);
    first [reflexivity | lia].
Qed.

Lemma sort_stable k l :
  List.filter (of_rank k) (Obj.sort by_rank l) = List.filter (of_rank k) l.
Proof.
  induction l as [|x l IH]; [reflexivity|].
  unfold Obj.sort in *. cbn [fold_right].
  rewrite insert_by_stable. cbn [List.filter]. rewrite IH. reflexivity.
Qed.

End Sort.

(** X11: the order of the rows. Both scripts sort the rows by status: alarm
    first, then down, healthy, disabled. The sorted rows are the rows that
    were computed, none lost and none added, in ascending rank, and the rows
    of one status keep the order they had before the sort. *)
Theorem rows_are_ordered_by_status
    (history : History) (todayResults : list Result) :
  (forall entries : list CheckApi.Entry,
     let rows := Obj.values (CheckApiStats.stats history todayResults entries) in
     let sorted := CheckApiStats.sorted history todayResults entries in
     Permutation sorted rows
     /\ StronglySorted (fun a b => (order (CheckApiStats.st_status a)
                                    <= order (CheckApiStats.st_status b))%Z)
                       sorted
     /\ forall k,
          List.filter (fun r => (order (CheckApiStats.st_status r) =? k)%Z) sorted
          = List.filter (fun r => (order (CheckApiStats.st_status r) =? k)%Z) rows)
  /\ (forall entries : list Part000.Entry,
        let rows := map (Part000Report.stat history todayResults) entries in
        let sorted := Part000Report.stats history todayResults entries in
        Permutation sorted rows
        /\ StronglySorted (fun a b => (order (Part000Report.st_status a)
                                       <= order (Part000Report.st_status b))%Z)
                          sorted
        /\ forall k,
             List.filter (fun r => (order (Part000Report.st_status r) =? k)%Z) sorted
             = List.filter (fun r => (order (Part000Report.st_status r) =? k)%Z) rows).
Proof.
  split; intros entries; cbv zeta.
  - unfold CheckApiStats.sorted.
    split; [apply (sort_perm (fun r => order (CheckApiStats.st_status r)))|].
    split; [apply (sort_sorted (fun r => order (CheckApiStats.st_status r)))|].
    intros k. apply (sort_stable (fun r => order (CheckApiStats.st_status r))).
  - unfold Part000Report.stats.
    split; [apply (sort_perm (fun r => order (Part000Report.st_status r)))|].
    split; [apply (sort_sorted (fun r => order (Part000Report.st_status r)))|].
    intros k. apply (sort_stable (fun r => order (Part000Report.st_status r))).
Qed.

Section Objects.
Context {V : Type}.

Lemma insert_index_perm n (v : V) l :
  Permutation (map snd (Obj.insert_index n v l)) (v :: map snd l).
Proof.
  induction l as [|[m w] l IH]; cbn [Obj.insert_index]; [reflexivity|].
  destruct (n <? m)%N; [reflexivity|].
  cbn [map snd]. rewrite IH. apply perm_swap.
Qed.

Lemma values_perm (o : list (string * V)) : Permutation (Obj.values o) (map snd o).
Proof.
  unfold Obj.values. induction o as [|[k v] o IH]; [reflexivity|].
  unfold Obj.index_entries, Obj.string_entries in *.
  cbn [fold_right List.filter fst snd map].
  destruct (Obj.array_index k) as [n|].
  - rewrite insert_index_perm. cbn [app]. rewrite IH. reflexivity.
  - cbn [map snd]. rewrite <- Permutation_middle, IH. reflexivity.
Qed.

Lemma set_key_keys k0 (v0 : V) o k :
  In k (map fst (Obj.set_key k0 v0 o)) <-> k = k0 \/ In k (map fst o).
Proof.
  induction o as [|[k' v'] o IH]; cbn [Obj.set_key map fst In].
  - intuition congruence.
  - destruct (String.eqb_spec k' k0) as [->|Hne]; cbn [map fst In].
    + intuition congruence.
    + rewrite IH. intuition congruence.
Qed.

Lemma set_key_nodup k0 (v0 : V) o :
  NoDup (map fst o) -> NoDup (map fst (Obj.set_key k0 v0 o)).
Proof.
  induction o as [|[k' v'] o IH]; cbn [Obj.set_key map fst]; intros Hnd.
  - repeat constructor. rewrite list_elem_of_In. intros [].
  - apply NoDup_cons in Hnd as [Hk Hnd]. rewrite list_elem_of_In in Hk.
    destruct (String.eqb_spec k' k0) as [->|Hne]; cbn [map fst];
      apply NoDup_cons; rewrite list_elem_of_In.
    + split; assumption.
    + split; [|apply IH, Hnd].
      rewrite set_key_keys. intuition congruence.
Qed.

Lemma set_key_spec k0 (v0 : V) o k v :
  NoDup (map fst o) ->
  In (k, v) (Obj.set_key k0 v0 o)
  <-> (k = k0 /\ v = v0) \/ (k <> k0 /\ In (k, v) o).
Proof.
  induction o as [|[k' v'] o IH]; cbn [Obj.set_key map fst In]; intros Hnd.
  - split; [intros [[= <- <-]|[]]; auto | intros [[-> ->]|[_ []]]; auto].
  - apply NoDup_cons in Hnd as [Hk Hnd]. rewrite list_elem_of_In in Hk.
    destruct (String.eqb_spec k' k0) as [->|Hne]; cbn [In].
    + split.
      * intros [[= <- <-]|Hin]; [auto|]. right. split; [|auto].
        intros ->. apply Hk. apply (in_map fst) in Hin. exact Hin.
      * intros [[-> ->]|[Hk' [[= <- <-]|Hin]]]; [auto | congruence | auto].
    + rewrite (IH Hnd). split.
      * intros [[= <- <-]|[H|H]]; [right; auto | auto | right; tauto].
      * intros [H|[Hk' [H|H]]]; [auto | auto | auto].
Qed.

End Objects.

Section Stats.
Import CheckApi CheckApiStats.
Variables (history : History) (todayResults : list Result).

Lemma last_entry_snoc api entries e :
  last_entry api (entries ++ [e])
  = if String.eqb (e_api e) api then Some e else last_entry api entries.
Proof. unfold last_entry. rewrite rev_unit. reflexivity. Qed.

Lemma last_entry_api api entries e :
  last_entry api entries = Some e -> e_api e = api /\ In e entries.
Proof.
  unfold last_entry. intros H. apply find_some in H as [Hin He].
  apply String.eqb_eq in He. split; [exact He|].
  apply in_rev. exact Hin.
Qed.

Lemma last_entry_some api entries :
  In api (map e_api entries) -> exists e, last_entry api entries = Some e.
Proof.
  intros Hin. apply in_map_iff in Hin as (e & He & Hin).
  unfold last_entry.
  destruct (List.find (fun e0 => String.eqb (e_api e0) api) (rev entries))
    as [e'|] eqn:Hf; [eauto|].
  apply in_rev in Hin. apply (find_none _ _ Hf e) in Hin.
  rewrite He, String.eqb_refl in Hin. discriminate.
Qed.

(** What the object [stats] holds once the entries [done] are through the
    loop. *)
Lemma stats_loop entries :
  forall done o,
    NoDup (map fst o) ->
    (forall k v, In (k, v) o
       <-> k <> Obj.PROTO
           /\ exists e, last_entry k done = Some e
                        /\ v = stat history todayResults e) ->
    let o' := fold_left (fun o e => Obj.assign (e_api e)
                                      (stat history todayResults e) o)
                        entries o in
    NoDup (map fst o')
    /\ forall k v, In (k, v) o'
         <-> k <> Obj.PROTO
             /\ exists e, last_entry k (done ++ entries) = Some e
                          /\ v = stat history todayResults e.
Proof.
  induction entries as [|e entries IH]; intros done o Hnd Hin; cbv zeta.
  - rewrite app_nil_r. split; assumption.
  - cbn [fold_left].
    replace (done ++ e :: entries) with ((done ++ [e]) ++ entries)
      by (rewrite <- app_assoc; reflexivity).
    destruct (String.eqb_spec (e_api e) Obj.PROTO) as [Hp|Hp].
    + replace (Obj.assign (e_api e) (stat history todayResults e) o) with o
        by (unfold Obj.assign; rewrite Hp; reflexivity).
      apply IH; [exact Hnd|].
      intros k v. rewrite Hin, last_entry_snoc.
      destruct (String.eqb_spec (e_api e) k) as [<-|Hne]; [|reflexivity].
      split; intros [Hk _]; congruence.
    + replace (Obj.assign (e_api e) (stat history todayResults e) o)
        with (Obj.set_key (e_api e) (stat history todayResults e) o)
        by (unfold Obj.assign;
            destruct (String.eqb_spec (e_api e) Obj.PROTO); congruence).
      apply IH; [apply set_key_nodup, Hnd|].
      intros k v. rewrite (set_key_spec _ _ _ _ _ Hnd), last_entry_snoc.
      destruct (String.eqb_spec (e_api e) k) as [<-|Hne].
      * split.
        -- intros [[_ ->]|[Hk _]]; [eauto | congruence].
        -- intros (_ & e' & [= <-] & ->). auto.
      * rewrite Hin. split.
        -- intros [[-> _]|[_ H]]; [congruence | exact H].
        -- intros H. right. split; [congruence | exact H].
Qed.

Lemma stats_spec entries :
  let o := stats history todayResults entries in
  NoDup (map fst o)
  /\ forall k v, In (k, v) o
       <-> k <> Obj.PROTO
           /\ exists e, last_entry k entries = Some e
                        /\ v = stat history todayResults e.
Proof.
  apply (stats_loop entries [] []).
  - constructor.
  - intros k v. split; [intros [] | intros (_ & e & He & _); discriminate He].
Qed.

Lemma stats_keys entries :
  map st_api (map snd (stats history todayResults entries))
  = map fst (stats history todayResults entries).
Proof.
  destruct (stats_spec entries) as [_ Hin]. cbv zeta in Hin.
  rewrite map_map. apply map_ext_in. intros [k v] Hkv.
  apply Hin in Hkv as (_ & e & He & ->).
  apply last_entry_api in He as [He _]. exact He.
Qed.

(** The keys of [stats] are the configured URLs, the prototype key apart. *)
Lemma stats_urls entries api :
  In api (map fst (stats history todayResults entries))
  <-> In api (map e_api entries) /\ api <> Obj.PROTO.
Proof.
  destruct (stats_spec entries) as [_ Hin]. cbv zeta in Hin. split.
  - intros H. apply in_map_iff in H as ([k v] & <- & Hkv).
    apply Hin in Hkv as (Hk & e & He & _).
    apply last_entry_api in He as [<- He]. cbn [fst] in *.
    split; [apply in_map; exact He | exact Hk].
  - intros [H Hk]. destruct (last_entry_some _ _ H) as (e & He).
    apply in_map_iff.
    exists (api, stat history todayResults e).
    split; [reflexivity|]. apply Hin. eauto.
Qed.

(** A row of the table is the statistics of the last entry configured with
    its URL. *)
Lemma row_of_last_entry entries row :
  In row (Obj.values (stats history todayResults entries)) ->
  exists e, last_entry (st_api row) entries = Some e
            /\ row = stat history todayResults e.
Proof.
  intros Hrow.
  apply (Permutation_in _ (values_perm _)) in Hrow.
  destruct (stats_spec entries) as [_ Hin]. cbv zeta in Hin.
  apply in_map_iff in Hrow as ([k v] & <- & Hkv). cbn [snd].
  apply Hin in Hkv as (_ & e & He & ->).
  exists e. split; [|reflexivity].
  apply last_entry_api in He as Hk. destruct Hk as [Hk _].
  cbn [stat st_api]. rewrite Hk. exact He.
Qed.

Lemma having_total (rows : list Stat) :
  Z.of_nat (length rows)
  = (having CRITICAL rows + having DOWN rows
     + having HEALTHY rows + having DISABLED rows)%Z.
Proof.
  unfold having. induction rows as [|r rows IH]; [reflexivity|].
  cbn [List.filter length].
  destruct (st_status r); cbn [status_eqb length]; lia.
Qed.

End Stats.

(** X12: one row per URL. The rows of [check_api.js] are the values of an
    object keyed by URL, so two configured entries with the same URL share
    one row, and an entry whose URL is the text [__proto__] gets none, since
    assigning to that key defines no property. The URLs of the rows are
    pairwise distinct, they are the configured URLs other than [__proto__],
    and each row carries the name, the note, the disabled flag and the
    statistics of the last entry configured with its URL. *)
Theorem report_has_one_row_per_url
    (history : History) (todayResults : list Result)
    (entries : list CheckApi.Entry) :
  let rows := Obj.values (CheckApiStats.stats history todayResults entries) in
  NoDup (map CheckApiStats.st_api rows)
  /\ (forall api, In api (map CheckApiStats.st_api rows)
                  <-> In api (map CheckApi.e_api entries) /\ api <> Obj.PROTO)
  /\ (forall row, In row rows ->
        exists e, last_entry (CheckApiStats.st_api row) entries = Some e
                  /\ row = CheckApiStats.stat history todayResults e)
  /\ length rows <= length entries.
Proof.
  cbv zeta.
  pose proof (values_perm (CheckApiStats.stats history todayResults entries))
    as Hperm.
  destruct (stats_spec history todayResults entries) as [Hnd _].
  cbv zeta in Hnd.
  assert (Hkeys : Permutation
            (map CheckApiStats.st_api
               (Obj.values (CheckApiStats.stats history todayResults entries)))
            (map fst (CheckApiStats.stats history todayResults entries))).
  { rewrite Hperm, stats_keys. reflexivity. }
  split; [|split; [|split]].
  - rewrite Hkeys. exact Hnd.
  - intros api. rewrite <- stats_urls. split; apply Permutation_in;
      [exact Hkeys | symmetry; exact Hkeys].
  - intros row. apply row_of_last_entry.
  - rewrite (Permutation_length Hperm), length_map.
    rewrite <- (length_map fst), <- (length_map CheckApi.e_api entries).
    apply NoDup_incl_length; [apply NoDup_ListNoDup, Hnd|].
    intros api H. apply stats_urls in H. tauto.
Qed.

(** X13: the summary counts of [check_api.js]. The number of failed APIs is
    what is left of the number of configured entries after the healthy and
    the disabled rows are taken off: it is the number of rows that are down
    or in alarm, plus one for every configured entry that has no row of its
    own, because it shares its URL with an earlier entry or because its URL
    is the text [__proto__]. With pairwise distinct URLs, none of them
    [__proto__], every entry has its row and the number is that of the rows
    that are down or in alarm. *)
Theorem failCount_counts_down_rows_and_duplicates
    (history : History) (todayResults : list Result)
    (entries : list CheckApi.Entry) :
  let rows := Obj.values (CheckApiStats.stats history todayResults entries) in
  CheckApiStats.failCount history todayResults entries
    = (CheckApiStats.having DOWN rows + CheckApiStats.having CRITICAL rows
       + (Z.of_nat (length entries) - Z.of_nat (length rows)))%Z
  /\ (0 <= Z.of_nat (length entries) - Z.of_nat (length rows))%Z
  /\ (NoDup (map CheckApi.e_api entries) ->
      ~ In Obj.PROTO (map CheckApi.e_api entries) ->
      length rows = length entries
      /\ CheckApiStats.failCount history todayResults entries
         = (CheckApiStats.having DOWN rows + CheckApiStats.having CRITICAL rows)%Z).
Proof.
  cbv zeta.
  pose proof (values_perm (CheckApiStats.stats history todayResults entries))
    as Hperm.
  destruct (stats_spec history todayResults entries) as [Hnd _].
  cbv zeta in Hnd.
  set (rows := Obj.values (CheckApiStats.stats history todayResults entries)) in *.
  assert (Hfail : CheckApiStats.failCount history todayResults entries
            = (CheckApiStats.having DOWN rows + CheckApiStats.having CRITICAL rows
               + (Z.of_nat (length entries) - Z.of_nat (length rows)))%Z).
  { unfold CheckApiStats.failCount, CheckApiStats.successCount,
      CheckApiStats.totalCount. fold rows.
    rewrite (having_total rows). lia. }
  assert (Hlen : length (map fst (CheckApiStats.stats history todayResults entries))
                 = length rows).
  { rewrite (Permutation_length Hperm), !length_map. reflexivity. }
  assert (Hle : length rows <= length entries).
  { rewrite <- Hlen, <- (length_map CheckApi.e_api entries).
    apply NoDup_incl_length; [apply NoDup_ListNoDup, Hnd|].
    intros api H. apply stats_urls in H. tauto. }
  split; [exact Hfail|]. split; [lia|].
  intros Hdistinct Hproto.
  assert (Hge : length entries <= length rows).
  { rewrite <- Hlen, <- (length_map CheckApi.e_api entries).
    apply NoDup_incl_length; [apply NoDup_ListNoDup, Hdistinct|].
    intros api H. apply stats_urls. split; [exact H|].
    intros ->. exact (Hproto H). }
  split; [lia|]. rewrite Hfail. lia.
Qed.

Lemma failCount_counts_down_rows_and_duplicates_witness :
  let entries := [CheckApi.mkEntry (Some "A") "http://a/api.php" "-" false;
                  CheckApi.mkEntry (Some "B") "http://b/api.php" "-" true] in
  let rows := Obj.values (CheckApiStats.stats [failing_day] (results failing_day)
                                              entries) in
  NoDup (map CheckApi.e_api entries)
  /\ ~ In Obj.PROTO (map CheckApi.e_api entries)
  /\ length rows = 2
  /\ CheckApiStats.failCount [failing_day] (results failing_day) entries
     = (CheckApiStats.having DOWN rows + CheckApiStats.having CRITICAL rows)%Z.
Proof.
  assert (Hnd : NoDup (map CheckApi.e_api
            [CheckApi.mkEntry (Some "A") "http://a/api.php" "-" false;
             CheckApi.mkEntry (Some "B") "http://b/api.php" "-" true])).
  { apply NoDup_cons. split; [|apply NoDup_singleton].
    intros H. apply list_elem_of_In in H. destruct H as [H|[]]. discriminate H. }
  assert (Hp : ~ In Obj.PROTO (map CheckApi.e_api
            [CheckApi.mkEntry (Some "A") "http://a/api.php" "-" false;
             CheckApi.mkEntry (Some "B") "http://b/api.php" "-" true])).
  { intros [H|[H|[]]]; discriminate H. }
  split; [exact Hnd|]. split; [exact Hp|].
  exact (proj2 (proj2 (failCount_counts_down_rows_and_duplicates
                         [failing_day] (results failing_day) _)) Hnd Hp).
Defined.

(** X9: in the report of a run, a row of the table carries the check mark
    exactly when the row is not marked disabled and the outcome of the day
    recorded under the row's URL is a success. A success of the day puts the
    streak back to 0, so the alarm status, although it is tested first,
    never hides a success of the day. In [check_api.js] a row stands for the
    last entry configured with its URL; the sibling variant has one row for
    every entry. *)
Theorem healthy_means_success_today
    (history : History) (date : string) (todayResults : list Result) :
  (forall (entries : list CheckApi.Entry) (row : CheckApiStats.Stat),
     In row (CheckApiStats.sorted
               (CheckApi.append history (mkDay date todayResults))
               todayResults entries) ->
     (CheckApiStats.st_status row = HEALTHY
      <-> CheckApiStats.st_disabled row = false
          /\ exists r, find_api (CheckApiStats.st_api row) todayResults = Some r
                       /\ r_success r = true))
  /\ (forall (entries : list Part000.Entry) (row : Part000Report.Stat),
        In row (Part000Report.stats
                  (Part000.append history (mkDay date todayResults))
                  todayResults entries) ->
        (Part000Report.st_status row = HEALTHY
         <-> Part000Report.st_disabled row = false
             /\ exists r, find_api (Part000Report.st_api row) todayResults = Some r
                          /\ r_success r = true)).
Proof.
  split; intros entries row Hrow.
  - unfold CheckApiStats.sorted in Hrow.
    apply (Permutation_in _
             (sort_perm (fun r => order (CheckApiStats.st_status r)) _)) in Hrow.
    apply row_of_last_entry in Hrow as (e & _ & ->).
    apply checkapi_stat_healthy.
  - unfold Part000Report.stats in Hrow.
    apply (Permutation_in _
             (sort_perm (fun r => order (Part000Report.st_status r)) _)) in Hrow.
    apply in_map_iff in Hrow as (s & <- & _).
    apply part000_stat_healthy.
Qed.

Lemma healthy_means_success_today_witness :
  let e := CheckApi.mkEntry (Some "A") "http://a/api.php" "-" false in
  let today := results sample_day in
  let row := CheckApiStats.stat (CheckApi.append [] sample_day) today e in
  In row (CheckApiStats.sorted (CheckApi.append [] sample_day) today [e])
  /\ CheckApiStats.st_status row = HEALTHY.
Proof.
  split; [left; reflexivity|].
  apply (proj1 (healthy_means_success_today [] "2024-05-01" (results sample_day))
               [CheckApi.mkEntry (Some "A") "http://a/api.php" "-" false]).
  - left. reflexivity.
  - split; [reflexivity|]. eexists. split; reflexivity.
Defined.
(** ** The scheduler: slots *)

Section Slots.
Import CheckApi.
Context {A : Type}.
Variables (tasks : list A) (limit : nat).

Lemma fill_active fuel (q : @Queue A) :
  active q <= limit -> active (fill tasks limit fuel q) <= limit.
Proof.
  revert q. induction fuel as [|fuel IH]; intros q Hq; [exact Hq|].
  cbn [fill].
  destruct (Nat.ltb_spec (active q) limit) as [Ha|Ha]; cbn [andb]; [|exact Hq].
  destruct (index q <? length tasks); [|exact Hq].
  apply IH. cbn [active]. lia.
Qed.

Lemma next_active (q : @Queue A) :
  active q <= limit -> active (next tasks limit q) <= limit.
Proof.
  intros Hq. unfold next.
  pose proof (fill_active (length tasks) q Hq) as Hf.
  destruct (_ && _); [|exact Hf].
  unfold resolve. destruct (resolved _); exact Hf.
Qed.

Lemma reachable_active (q : @Queue A) :
  reachable tasks limit q -> active q <= limit.
Proof.
  induction 1 as [|q q' Hreach IH Hstep].
  - apply next_active. cbn [active]. lia.
  - destruct Hstep as [q i res Hin Hres|q i Hin].
    + exact IH.
    + apply next_active. cbn [active]. lia.
Qed.

Lemma start_without_slots :
  tasks <> [] ->
  start tasks 0
  = {| index := 0; active := 0; q_results := []; pending := [];
       settling := []; resolved := None |}.
Proof.
  intros Hne. unfold start, next.
  assert (Hfill : forall fuel (q : @Queue A), fill tasks 0 fuel q = q)
    by (intros [|fuel] q; reflexivity).
  rewrite Hfill. cbn [index active].
  destruct tasks as [|t ts]; [congruence | reflexivity].
Qed.

End Slots.

(** X14: [queueRun] keeps to its limit. At every point of every run the
    tasks in flight are distinct tasks that were started, their number is
    the counter [active] and never exceeds [limit]; and between two
    callbacks no slot is left free while a task waits to be started. *)
Theorem queueRun_respects_the_limit
    {A : Type} (tasks : list A) (limit : nat) (q : CheckApi.Queue) :
  CheckApi.reachable tasks limit q ->
  CheckApi.active q <= limit
  /\ CheckApi.active q
     = length (CheckApi.pending q) + length (CheckApi.settling q)
  /\ NoDup (CheckApi.pending q ++ CheckApi.settling q)
  /\ (forall i, In i (CheckApi.pending q ++ CheckApi.settling q) ->
                i < CheckApi.index q <= length tasks)
  /\ (CheckApi.active q = limit \/ CheckApi.index q = length tasks).
Proof.
  intros Hreach.
  pose proof (reachable_active tasks limit q Hreach) as Hact.
  destruct (reachable_inv tasks limit q Hreach) as [HP HQ].
  destruct HP as [P1 P2 P3 P4 P5 P6 P7]. destruct HQ as [Q1 Q2].
  split; [exact Hact|]. split; [exact P2|]. split; [exact P3|].
  split; [intros i Hi; specialize (P4 i Hi); lia|].
  destruct Q1; [left | right]; lia.
Qed.

Lemma queueRun_respects_the_limit_witness :
  CheckApi.reachable ["a"; "b"; "c"]%string 2
    (CheckApi.start ["a"; "b"; "c"]%string 2)
  /\ CheckApi.active (CheckApi.start ["a"; "b"; "c"]%string 2) <= 2.
Proof.
  split; [apply CheckApi.reach_start|].
  exact (proj1 (queueRun_respects_the_limit ["a"; "b"; "c"]%string 2 _
                  (CheckApi.reach_start _ _))).
Defined.

(** X15: the two edges of [queueRun]. With no task the promise is resolved
    at once, with the empty array, whatever the limit. With tasks and a
    limit of 0 no task is ever started, no callback is ever registered, and
    the promise is never resolved: the caller waits for ever. *)
Theorem queueRun_without_tasks_or_slots
    {A : Type} (tasks : list A) (limit : nat) (q : CheckApi.Queue) :
  (tasks = [] -> CheckApi.resolved (CheckApi.start tasks limit) = Some [])
  /\ (tasks <> [] -> CheckApi.reachable tasks 0 q ->
      q = CheckApi.start tasks 0
      /\ CheckApi.index q = 0 /\ CheckApi.pending q = []
      /\ CheckApi.resolved q = None
      /\ forall q', ~ CheckApi.step tasks 0 q q').
Proof.
  split.
  - intros ->. destruct limit; reflexivity.
  - intros Hne Hreach.
    pose proof (start_without_slots tasks Hne) as Hstart.
    assert (Hq : q = CheckApi.start tasks 0).
    { induction Hreach as [|q q' Hreach IH Hstep]; [reflexivity|].
      subst q. rewrite Hstart in Hstep.
      inversion Hstep as [q0 i res Hin|q0 i Hin]; subst; destruct Hin. }
    split; [exact Hq|]. subst q. rewrite Hstart.
    repeat (split; [reflexivity|]).
    intros q' Hstep.
    inversion Hstep as [q0 i res Hin|q0 i Hin]; subst; destruct Hin.
Qed.
(** ** The history block and the search verdict as text *)

Section Fences.
Import JS CheckApi.

Lemma strip_prefix_sound p : forall s r, strip_prefix p s = Some r -> s = p +:+ r.
Proof.
  induction p as [|a p IH]; intros s r H.
  - cbn [strip_prefix] in H. injection H as ->. reflexivity.
  - destruct s as [|b s]; [discriminate|]. cbn [strip_prefix] in H.
    destruct (Ascii.eqb_spec a b) as [->|]; [|discriminate].
    rewrite append_cons, (IH s r H). reflexivity.
Qed.

Lemma lazy_until_sound close s :
  forall m, lazy_until close s = Some m ->
  exists post, s = m +:+ close +:+ post.
Proof.
  induction s as [|c s IH]; intros m H; cbn [lazy_until] in H.
  - destruct (strip_prefix close EmptyString) as [r|] eqn:Hs; [|discriminate].
    injection H as <-. exists r. rewrite append_nil_l.
    apply strip_prefix_sound, Hs.
  - destruct (strip_prefix close (String c s)) as [r|] eqn:Hs.
    + injection H as <-. exists r. rewrite append_nil_l.
      apply strip_prefix_sound, Hs.
    + destruct (lazy_until close s) as [m'|]; [|discriminate].
      injection H as <-. destruct (IH m' eq_refl) as [post ->].
      exists post. rewrite append_cons. reflexivity.
Qed.

Lemma lazy_until_complete close m :
  forall post, lazy_until close (m +:+ close +:+ post) <> None.
Proof.
  induction m as [|c m IH]; intros post.
  - rewrite append_nil_l.
    destruct (close +:+ post) eqn:E; cbn [lazy_until]; rewrite <- E;
      rewrite strip_prefix_append; discriminate.
  - rewrite append_cons. cbn [lazy_until].
    destruct (strip_prefix close _); [discriminate|].
    specialize (IH post).
    destruct (lazy_until close (m +:+ close +:+ post)); [discriminate | congruence].
Qed.

Lemma capture_sound s m :
  capture s = Some m ->
  m <> EmptyString /\ exists post, s = m +:+ FENCE_CLOSE +:+ post.
Proof.
  destruct s as [|c s]; [discriminate|]. cbn [capture].
  destruct (lazy_until FENCE_CLOSE s) as [m'|] eqn:H; [|discriminate].
  intros [= <-]. split; [discriminate|].
  destruct (lazy_until_sound _ _ _ H) as [post ->].
  exists post. rewrite append_cons. reflexivity.
Qed.

Lemma capture_complete block post :
  block <> EmptyString -> capture (block +:+ FENCE_CLOSE +:+ post) <> None.
Proof.
  destruct block as [|c block]; [congruence|]. intros _.
  rewrite append_cons. cbn [capture].
  pose proof (lazy_until_complete FENCE_CLOSE block post) as H.
  destruct (lazy_until FENCE_CLOSE (block +:+ FENCE_CLOSE +:+ post));
    [discriminate | congruence].
Qed.

Lemma match_json_block_sound old :
  forall block, match_json_block old = Some block ->
  block <> EmptyString
  /\ exists pre post,
       old = pre +:+ FENCE_OPEN +:+ block +:+ FENCE_CLOSE +:+ post.
Proof.
  induction old as [|c old IH]; intros block; rewrite match_json_block_eq.
  - destruct (strip_prefix FENCE_OPEN EmptyString) as [rest|] eqn:Hs;
      [|discriminate].
    discriminate Hs.
  - destruct (strip_prefix FENCE_OPEN (String c old)) as [rest|] eqn:Hs.
    + destruct (capture rest) as [m|] eqn:Hc.
      * intros [= <-]. destruct (capture_sound _ _ Hc) as [Hne [post ->]].
        split; [exact Hne|]. exists EmptyString, post.
        rewrite append_nil_l. apply strip_prefix_sound, Hs.
      * intros H. destruct (IH block H) as [Hne (pre & post & ->)].
        split; [exact Hne|]. exists (String c pre), post.
        rewrite append_cons. reflexivity.
    + intros H. destruct (IH block H) as [Hne (pre & post & ->)].
      split; [exact Hne|]. exists (String c pre), post.
      rewrite append_cons. reflexivity.
Qed.

Lemma match_json_block_complete pre :
  forall block post,
    block <> EmptyString ->
    match_json_block (pre +:+ FENCE_OPEN +:+ block +:+ FENCE_CLOSE +:+ post)
    <> None.
Proof.
  induction pre as [|c pre IH]; intros block post Hne.
  - rewrite append_nil_l, match_json_block_eq, strip_prefix_append.
    pose proof (capture_complete block post Hne) as H.
    destruct (capture (block +:+ FENCE_CLOSE +:+ post)); [discriminate | congruence].
  - rewrite append_cons, match_json_block_eq.
    destruct (match strip_prefix FENCE_OPEN _ with
              | Some rest => capture rest
              | None => None
              end); [discriminate|].
    apply IH, Hne.
Qed.

End Fences.

(** X16: when a report counts as having a history block. The pattern finds a
    block exactly when the text holds the opening fence [```json] at the
    end of a line, then at least one character, then a line break and the
    closing fence; what it hands to [JSON.parse] is never empty and stands
    in the text between such a pair of fences. *)
Theorem history_block_is_what_stands_between_fences (old : string) :
  (forall block,
     CheckApi.match_json_block old = Some block ->
     block <> EmptyString
     /\ exists pre post,
          old = pre +:+ CheckApi.FENCE_OPEN +:+ block
                    +:+ CheckApi.FENCE_CLOSE +:+ post)
  /\ (CheckApi.match_json_block old <> None
      <-> exists pre block post,
            block <> EmptyString
            /\ old = pre +:+ CheckApi.FENCE_OPEN +:+ block
                         +:+ CheckApi.FENCE_CLOSE +:+ post).
Proof.
  split; [apply match_json_block_sound|]. split.
  - destruct (CheckApi.match_json_block old) as [block|] eqn:H; [|congruence].
    intros _. destruct (match_json_block_sound old block H) as [Hne (pre & post & Heq)].
    exists pre, block, post. auto.
  - intros (pre & block & post & Hne & ->).
    apply match_json_block_complete, Hne.
Qed.

Section Part000Text.
Import JS CheckApi.

Lemma part000_reportMd_eq nowCST table history :
  Part000Report.reportMd nowCST table history
  = part000_heading nowCST table
      +:+ String LF (String LF ("<details><summary>历史数据</summary>"
                                  +:+ str1 LF +:+ str1 LF)
                     +:+ FENCE_OPEN +:+ JSON_stringify_2 history
                     +:+ FENCE_CLOSE +:+ str1 LF +:+ "</details>").
Proof.
  unfold Part000Report.reportMd, part000_heading.
  rewrite !append_assoc. reflexivity.
Qed.

Lemma part000_match_json_block nowCST table history :
  includes (part000_heading nowCST table) "```json" = false ->
  match_json_block (Part000Report.reportMd nowCST table history)
  = Some (JSON_stringify_2 history).
Proof.
  intros Hmd. rewrite part000_reportMd_eq.
  rewrite (scan_without_fence _ _ Hmd).
  rewrite <- append_cons.
  rewrite scan_without_tick by reflexivity.
  rewrite match_json_block_eq, strip_prefix_append.
  rewrite capture_exact; [reflexivity | |].
  - unfold JSON_stringify_2.
    destruct (serialize_head "  " EmptyString history) as (c & s & -> & _).
    discriminate.
  - exists false. apply lf_tick_serialize; reflexivity.
Qed.

End Part000Text.

(** X17: the sibling variant's report carries its history over as well. It
    prints the block after its own heading and table and reads it with the
    same pattern: as long as the time stamp and the table before the block
    do not contain the opening fence, the next run reads back exactly the
    value that was printed, and for a history the same records in the same
    order. *)
Theorem part000_history_round_trip (nowCST table : string) :
  JS.includes (part000_heading nowCST table) "```json" = false ->
  (forall v, wf v ->
     CheckApi.load_history (Some (Part000Report.reportMd nowCST table v)) = v)
  /\ (forall h : History,
        CheckApi.json_history
          (CheckApi.load_history
             (Some (Part000Report.reportMd nowCST table
                      (CheckApi.history_json h))))
        = Some h).
Proof.
  intros Hmd.
  assert (Hload : forall v, wf v ->
            CheckApi.load_history (Some (Part000Report.reportMd nowCST table v))
            = v).
  { intros v Hwf.
    unfold CheckApi.load_history, CheckApi.load_history_with.
    rewrite (part000_match_json_block nowCST table _ Hmd).
    unfold JS.JSON_stringify_2.
    rewrite (parse_serialize "  " eq_refl _ Hwf).
    reflexivity. }
  split; [exact Hload|].
  intros h. rewrite (Hload _ (wf_history_json h)). apply json_history_json.
Qed.

Lemma part000_history_round_trip_witness :
  let table := "| ✅ | A | a | [Link](http://a/api.php) | ✅ | 0 |"%string in
  JS.includes (part000_heading "2024-05-01 08:00 CST" table) "```json" = false
  /\ CheckApi.json_history
       (CheckApi.load_history
          (Some (Part000Report.reportMd "2024-05-01 08:00 CST" table
                   (CheckApi.history_json [sample_day]))))
     = Some [sample_day].
Proof.
  split; [reflexivity|].
  apply (part000_history_round_trip "2024-05-01 08:00 CST"
           "| ✅ | A | a | [Link](http://a/api.php) | ✅ | 0 |").
  reflexivity.
Defined.

Section Keyword.
Import JS.

Lemma includes_eq s k :
  includes s k
  = starts_with s k
    || match s with
       | EmptyString => false
       | String _ s' => includes s' k
       end.
Proof. destruct s; reflexivity. Qed.

Lemma strip_prefix_weaken k :
  forall s r t, strip_prefix k s = Some r -> strip_prefix k (s +:+ t) = Some (r +:+ t).
Proof.
  induction k as [|a k IH]; intros s r t H.
  - cbn [strip_prefix] in *. injection H as ->. reflexivity.
  - destruct s as [|b s]; [discriminate|]. rewrite append_cons.
    cbn [strip_prefix] in *. destruct (Ascii.eqb a b); [|discriminate].
    apply IH, H.
Qed.

Lemma starts_with_append s k t :
  starts_with s k = true -> starts_with (s +:+ t) k = true.
Proof.
  unfold starts_with. destruct (strip_prefix k s) as [r|] eqn:H; [|discriminate].
  rewrite (strip_prefix_weaken k s r t H). reflexivity.
Qed.

Lemma includes_append_l a b k :
  includes a k = true -> includes (a +:+ b) k = true.
Proof.
  induction a as [|c a IH]; rewrite includes_eq; intros H.
  - rewrite Bool.orb_false_r in H. rewrite includes_eq.
    rewrite (starts_with_append EmptyString k b H). reflexivity.
  - rewrite append_cons, includes_eq.
    apply Bool.orb_true_iff in H as [H|H].
    + change (String c (a +:+ b)) with (String c a +:+ b).
      rewrite (starts_with_append (String c a) k b H). reflexivity.
    + rewrite (IH H). apply Bool.orb_true_r.
Qed.

Lemma includes_append_r a b k :
  includes b k = true -> includes (a +:+ b) k = true.
Proof.
  intros H. induction a as [|c a IH]; [rewrite append_nil_l; exact H|].
  rewrite append_cons, includes_eq, IH. apply Bool.orb_true_r.
Qed.

Lemma includes_split s k :
  includes s k = true -> exists pre post, s = pre +:+ k +:+ post.
Proof.
  induction s as [|c s IH]; rewrite includes_eq; intros H.
  - rewrite Bool.orb_false_r in H. unfold starts_with in H.
    destruct (strip_prefix k EmptyString) as [r|] eqn:Hs; [|discriminate].
    exists EmptyString, r. rewrite append_nil_l. apply strip_prefix_sound, Hs.
  - apply Bool.orb_true_iff in H as [H|H].
    + unfold starts_with in H.
      destruct (strip_prefix k (String c s)) as [r|] eqn:Hs; [|discriminate].
      exists EmptyString, r. rewrite append_nil_l. apply strip_prefix_sound, Hs.
    + destruct (IH H) as (pre & post & ->).
      exists (String c pre), post. rewrite append_cons. reflexivity.
Qed.

Lemma includes_middle pre k post : includes (pre +:+ k +:+ post) k = true.
Proof.
  apply includes_append_r. rewrite includes_eq.
  unfold starts_with. rewrite strip_prefix_append. reflexivity.
Qed.

Lemma escape_append a b : escape (a +:+ b) = escape a +:+ escape b.
Proof.
  induction a as [|c a IH]; [rewrite !append_nil_l; reflexivity|].
  rewrite append_cons. cbn [escape]. rewrite IH, append_assoc. reflexivity.
Qed.

Lemma escape_char_plain c :
  negb (Ascii.eqb c DQUOTE) && negb (Ascii.eqb c BACKSLASH)
    && (32 <=? N_of_ascii c)%N = true ->
  escape_char c = str1 c.
Proof.
  destruct c as [[] [] [] [] [] [] [] []]; intros H;
    first [discriminate H | reflexivity].
Qed.

Lemma escape_plain k : plain k = true -> escape k = k.
Proof.
  unfold plain. induction k as [|c k IH]; [reflexivity|].
  cbn [all_chars escape]. intros [Hc Hk]%andb_prop.
  rewrite (escape_char_plain c Hc), (IH Hk). reflexivity.
Qed.

Lemma includes_quote s k :
  plain k = true -> includes s k = true -> includes (quote s) k = true.
Proof.
  intros Hk Hs. destruct (includes_split s k Hs) as (pre & post & ->).
  unfold quote. rewrite !escape_append, (escape_plain k Hk).
  rewrite includes_eq. rewrite append_assoc, append_assoc, includes_middle.
  apply Bool.orb_true_r.
Qed.

Lemma includes_join sep parts p k :
  In p parts -> includes p k = true -> includes (join sep parts) k = true.
Proof.
  intros Hin Hp. induction parts as [|q parts IH]; [destruct Hin|].
  destruct parts as [|q' parts].
  - destruct Hin as [->|[]]. exact Hp.
  - change (join sep (q :: q' :: parts))
      with (q +:+ sep +:+ join sep (q' :: parts)).
    destruct Hin as [->|Hin].
    + apply includes_append_l, Hp.
    + apply includes_append_r, includes_append_r, IH, Hin.
Qed.

(** A part that holds the keyword shows in the printed array or object. *)
Lemma includes_brackets (empty a b c d sep : string) (parts : list string) p k :
  In p parts -> includes p k = true ->
  includes
    match parts with
    | [] => empty
    | q :: ps => a +:+ b +:+ join sep (q :: ps) +:+ c +:+ d
    end k = true.
Proof.
  intros Hin Hp. destruct parts as [|q parts]; [destruct Hin|].
  apply includes_append_r, includes_append_r, includes_append_l.
  apply (includes_join sep _ p); assumption.
Qed.

Lemma includes_object fields key name k :
  plain k = true ->
  In (key, JStr name) fields -> includes name k = true ->
  includes (serialize EmptyString EmptyString (JObj fields)) k = true.
Proof.
  intros Hk Hin Hn. cbn [serialize]. cbv zeta.
  apply (includes_brackets _ _ _ _ _ _ _
           (quote key +:+ colon EmptyString
              +:+ serialize EmptyString (EmptyString +:+ EmptyString) (JStr name))).
  - apply (in_map (fun kv => quote (fst kv) +:+ colon EmptyString
                              +:+ serialize EmptyString
                                    (EmptyString +:+ EmptyString) (snd kv))
                  _ _ Hin).
  - apply includes_append_r, includes_append_r. cbn [serialize].
    apply includes_quote; assumption.
Qed.

Lemma includes_array items fields key name k :
  plain k = true ->
  In (JObj fields) items ->
  In (key, JStr name) fields -> includes name k = true ->
  includes (JSON_stringify (JArr items)) k = true.
Proof.
  intros Hk Hitem Hin Hn. unfold JSON_stringify. cbn [serialize]. cbv zeta.
  apply (includes_brackets _ _ _ _ _ _ _
           (serialize EmptyString (EmptyString +:+ EmptyString) (JObj fields))).
  - apply (in_map (serialize EmptyString (EmptyString +:+ EmptyString)) _ _ Hitem).
  - rewrite append_nil_l. apply (includes_object fields key name); assumption.
Qed.

End Keyword.

(** X18: a hit anywhere in the listing counts. [check_api.js] looks for the
    keyword in the JSON text of the whole list, so for a keyword that JSON
    prints as it is, a response with status 200 whose list has an item with
    a string property, of any name, that contains the keyword is given the
    check mark. *)
Theorem keyword_in_any_property_is_a_match
    (keyword : string) (data : JS.json) (items : list JS.json)
    (fields : list (string * JS.json)) (key name : string) :
  plain keyword = true ->
  JS.prop "list" data = Some (JS.JArr items) ->
  In (JS.JObj fields) items ->
  In (key, JS.JStr name) fields ->
  JS.includes name keyword = true ->
  CheckApi.search_verdict keyword 200 data = "✅"%string.
Proof.
  intros Hk Hlist Hitem Hin Hname.
  unfold CheckApi.search_verdict. rewrite Hlist.
  destruct data as [| | | |dfields]; try discriminate Hlist.
  cbn [Z.eqb Pos.eqb negb JS.truthy JS.typeof_object orb CheckApi.has_length].
  destruct items as [|item items]; [destruct Hitem|].
  cbn [length Nat.eqb negb].
  rewrite (includes_array (item :: items) fields key name keyword Hk Hitem Hin Hname).
  reflexivity.
Qed.

Lemma keyword_in_any_property_is_a_match_witness :
  let item := [("vod_id"%string, JS.JStr "7");
               ("vod_remarks"%string, JS.JStr "斗罗大陆 第2季")] in
  let data := JS.JObj [("code"%string, JS.JStr "1");
                       ("list"%string, JS.JArr [JS.JObj item])] in
  plain "斗罗大陆" = true
  /\ CheckApi.search_verdict "斗罗大陆" 200 data = "✅"%string.
Proof.
  split; [reflexivity|].
  apply (keyword_in_any_property_is_a_match "斗罗大陆" _
           [JS.JObj [("vod_id"%string, JS.JStr "7");
                     ("vod_remarks"%string, JS.JStr "斗罗大陆 第2季")]]
           [("vod_id"%string, JS.JStr "7");
            ("vod_remarks"%string, JS.JStr "斗罗大陆 第2季")]
           "vod_remarks" "斗罗大陆 第2季").
  - reflexivity.
  - reflexivity.
  - left. reflexivity.
  - right. left. reflexivity.
  - reflexivity.
Defined.
(** ** From the network to the report *)

Section EndToEnd.
Import CheckApi.


End EndToEnd.


(** ** The schedulers of the sibling variants *)

Section Flights.

Lemma nodup_snoc (l : list nat) x : NoDup l -> ~ In x l -> NoDup (l ++ [x]).
Proof.
  intros Hl Hx. apply NoDup_app. split; [exact Hl|]. split.
  - intros y Hy ->%list_elem_of_singleton. apply Hx, list_elem_of_In, Hy.
  - apply NoDup_singleton.
Qed.

Lemma flight_launch (p s : list nat) x :
  NoDup (p ++ s) -> ~ In x p -> ~ In x s -> NoDup ((p ++ [x]) ++ s).
Proof.
  intros Hnd Hp Hs. apply NoDup_app in Hnd as (N1 & N2 & N3).
  apply NoDup_app. split; [apply nodup_snoc; assumption|]. split; [|exact N3].
  intros y [Hy| ->%list_elem_of_singleton]%elem_of_app.
  - apply N2, Hy.
  - rewrite list_elem_of_In. exact Hs.
Qed.

Lemma flight_then (p s : list nat) i :
  NoDup (p ++ s) -> In i p -> NoDup (CheckApi.remove i p ++ (s ++ [i])).
Proof.
  intros Hnd Hin. apply NoDup_app in Hnd as (N1 & N2 & N3).
  apply NoDup_app. split; [apply nodup_remove; exact N1|]. split.
  - intros x Hx. rewrite list_elem_of_In, in_remove in Hx.
    destruct Hx as [Hx Hne].
    intros [Hs| ->%list_elem_of_singleton]%elem_of_app; [|tauto].
    apply (N2 x); [rewrite list_elem_of_In|]; assumption.
  - apply nodup_snoc; [exact N3|].
    intros Hs. apply (N2 i); rewrite list_elem_of_In; assumption.
Qed.

Lemma flight_finally (p s : list nat) i :
  NoDup (p ++ s) -> NoDup (p ++ CheckApi.remove i s).
Proof.
  intros Hnd. apply NoDup_app in Hnd as (N1 & N2 & N3).
  apply NoDup_app. split; [exact N1|]. split; [|apply nodup_remove; exact N3].
  intros x Hx Hs. rewrite list_elem_of_In, in_remove in Hs.
  apply (N2 x Hx). rewrite list_elem_of_In. tauto.
Qed.

Lemma flight_apart (p s : list nat) i :
  NoDup (p ++ s) -> In i s -> ~ In i p.
Proof.
  intros Hnd Hs Hp. apply NoDup_app in Hnd as (_ & N2 & _).
  apply (N2 i); rewrite list_elem_of_In; assumption.
Qed.

Lemma length_remove_le i (l : list nat) : length (CheckApi.remove i l) <= length l.
Proof. unfold CheckApi.remove. apply List.filter_length_le. Qed.

(** A set that lost a member of the race is smaller than the race. *)
Lemma smaller_than_race (l race : list nat) i :
  NoDup l -> (forall x, In x l -> In x race) ->
  In i race -> ~ In i l -> length l < length race.
Proof.
  intros Hl Hsub Hi Hni.
  assert (Hnd : List.NoDup (i :: l)).
  { constructor; [exact Hni | apply NoDup_ListNoDup, Hl]. }
  assert (Hlen : length (i :: l) <= length race).
  { apply NoDup_incl_length; [exact Hnd|].
    intros x [<-|Hx]; [exact Hi | apply Hsub, Hx]. }
  cbn [length] in Hlen. lia.
Qed.

End Flights.

Section ScanPool.
Import Part001Queue.
Context {A : Type}.
Variables (items : list A) (limit : nat).

Abbreviation ScanQ := (@Scan A items limit).
Abbreviation ScanLoopQ := (@ScanLoop A items limit).
Abbreviation Iterate := (@iterate A items limit).

Lemma scan_at_loop l q : ScanQ q -> ScanQ (at_loop l q).
Proof. intros [S1 S2 S3 S4 S5 S6]. constructor; assumption. Qed.

Lemma scan_launch q :
  ScanQ q -> taken q < length items -> length (running q) < limit ->
  ScanQ (launch q).
Proof.
  intros [S1 S2 S3 S4 S5 S6] Ht Hl.
  assert (Hfresh : ~ In (taken q) (running q))
    by (intros H; specialize (S3 _ H); lia).
  constructor; cbn [launch taken running pending settling].
  - lia.
  - apply nodup_snoc; assumption.
  - intros i [Hi|[<-|[]]]%in_app_or; [specialize (S3 i Hi)|]; lia.
  - intros i. rewrite !in_app_iff, S4. cbn [In]. tauto.
  - apply flight_launch; [exact S5| |];
      intros H; apply Hfresh, S4; tauto.
  - rewrite length_app. cbn [length]. lia.
Qed.

Lemma iterate_spec fuel : forall q,
  ScanQ q -> length items - taken q < fuel ->
  ScanQ (Iterate fuel q) /\ ScanLoopQ (Iterate fuel q)
  /\ 3 * (length items - taken (Iterate fuel q))
     + 2 * length (pending (Iterate fuel q)) + length (settling (Iterate fuel q))
     <= 3 * (length items - taken q)
        + 2 * length (pending q) + length (settling q).
Proof.
  induction fuel as [|fuel IH]; intros q HS Hfuel; [lia|].
  cbn [iterate].
  destruct (Nat.ltb_spec (taken q) (length items)) as [Ht|Ht].
  - destruct (Nat.leb_spec limit (length (running q))) as [Hl|Hl].
    + split; [apply scan_at_loop, HS|]. split; [|cbn; lia].
      unfold ScanLoop. cbn [at_loop loop taken running].
      destruct HS as [S1 S2 S3 S4 S5 S6].
      split; [exact Ht|]. split; [lia|]. split; [exact S2 | tauto].
    + destruct (IH (launch q) (scan_launch q HS Ht Hl)) as (I1 & I2 & I3).
      { cbn [launch taken]. lia. }
      split; [exact I1|]. split; [exact I2|].
      cbn [launch taken pending settling] in I3.
      rewrite length_app in I3. cbn [length] in I3. lia.
  - split; [apply scan_at_loop, HS|]. split; [|cbn; lia].
    unfold ScanLoop. cbn [at_loop loop taken].
    destruct HS as [S1 S2 S3 S4 S5 S6]. lia.
Qed.

Lemma scan_race q race i :
  ScanQ q -> ScanLoopQ q -> loop q = Racing race ->
  In i race -> ~ In i (running q) ->
  taken q < length items /\ length (running q) < limit.
Proof.
  intros [S1 S2 S3 S4 S5 S6] HL Hloop Hi Hni.
  unfold ScanLoop in HL. rewrite Hloop in HL.
  destruct HL as (Ht & Hlen & Hnd & Hsub).
  split; [exact Ht|]. rewrite <- Hlen.
  apply (smaller_than_race _ _ i); assumption.
Qed.

Lemma scan_reachable q :
  reachable items limit q -> ScanQ q /\ ScanLoopQ q.
Proof.
  induction 1 as [|q q' Hreach [HS HL] Hstep].
  - unfold start.
    match goal with
    | |- ScanQ (iterate _ _ _ ?q0) /\ _ =>
      destruct (iterate_spec (S (length items)) q0) as (H1 & H2 & _);
        [|cbn [taken]; lia|tauto]
    end.
    constructor; cbn [taken running pending settling app length].
    + lia.
    + constructor.
    + intros i [].
    + intros i. cbn [In]. tauto.
    + constructor.
    + lia.
  - destruct Hstep as [q i Hin|q i Hin|q race i Hloop Hi Hni].
    + destruct HS as [S1 S2 S3 S4 S5 S6]. split.
      * constructor; cbn [on_then taken running pending settling];
          try assumption.
        -- intros j. rewrite S4, in_app_iff, in_remove. cbn [In].
           destruct (Nat.eq_dec j i) as [->|Hne]; [tauto|]. intuition congruence.
        -- apply flight_then; assumption.
      * exact HL.
    + destruct HS as [S1 S2 S3 S4 S5 S6]. split.
      * constructor; cbn [on_finally taken running pending settling];
          try assumption.
        -- apply nodup_remove, S2.
        -- intros j Hj. apply in_remove in Hj as [Hj _]. apply S3, Hj.
        -- intros j. rewrite !in_remove, S4.
           pose proof (flight_apart _ _ i S5 Hin) as Hp.
           destruct (Nat.eq_dec j i) as [->|Hne]; tauto.
        -- apply flight_finally, S5.
        -- pose proof (length_remove_le i (running q)). lia.
      * unfold ScanLoop in *. cbn [on_finally loop taken running].
        destruct (loop q) as [race|]; [|exact HL].
        destruct HL as (H1 & H2 & H3 & H4).
        split; [exact H1|]. split; [exact H2|]. split; [exact H3|].
        intros j Hj. apply in_remove in Hj as [Hj _]. apply H4, Hj.
    + destruct (scan_race q race i HS HL Hloop Hi Hni) as [Ht Hl].
      unfold resume.
      destruct (iterate_spec (S (length items)) (launch q)
                  (scan_launch q HS Ht Hl)) as (H1 & H2 & _);
        [cbn [launch taken]; lia | tauto].
Qed.

Lemma scan_work q q' :
  reachable items limit q -> step items limit q q' ->
  work items q' < work items q.
Proof.
  intros Hreach Hstep.
  destruct (scan_reachable q Hreach) as [HS HL].
  destruct Hstep as [q i Hin|q i Hin|q race i Hloop Hi Hni].
  - destruct HS as [S1 S2 S3 S4 S5 S6].
    apply NoDup_app in S5 as (N1 & _ & _).
    pose proof (length_remove i _ N1 Hin).
    unfold work. cbn [on_then taken pending settling loop].
    rewrite length_app. cbn [length]. lia.
  - destruct HS as [S1 S2 S3 S4 S5 S6].
    apply NoDup_app in S5 as (_ & _ & N3).
    pose proof (length_remove i _ N3 Hin).
    unfold work. cbn [on_finally taken pending settling loop]. lia.
  - destruct (scan_race q race i HS HL Hloop Hi Hni) as [Ht Hl].
    unfold resume.
    destruct (iterate_spec (S (length items)) (launch q)
                (scan_launch q HS Ht Hl)) as (_ & _ & Hw);
      [cbn [launch taken]; lia|].
    cbn [launch taken pending settling] in Hw.
    rewrite length_app in Hw. cbn [length] in Hw.
    unfold work. rewrite Hloop.
    destruct (loop (iterate items limit (S (length items)) (launch q))); lia.
Qed.

Lemma scan_start_without_slots :
  items <> [] ->
  start items 0
  = {| taken := 0; running := []; pending := []; settling := [];
       loop := Racing [] |}.
Proof.
  intros Hne. unfold start. cbn [iterate taken running length Nat.leb].
  destruct items as [|x l]; [congruence | reflexivity].
Qed.

End ScanPool.

(** X20: the scheduler of the quality scan. At every point of every run the
    set [running] holds at most [limit] promises, and every promise that is
    not yet fulfilled is in it. With a positive limit the run cannot get
    stuck before the promise of [queueRun] is fulfilled, every callback and
    every turn of the loop leaves less to do, and the promise is fulfilled
    with one value per item, in the order of the items. With a limit of 0
    and an item to scan, the function waits on a race that nobody runs: no
    scan is started and the promise is never fulfilled. *)
Theorem scan_queue_keeps_limit_and_order
    {A : Type} (items : list A) (limit : nat) (q : Part001Queue.Pool) :
  Part001Queue.reachable items limit q ->
  length (Part001Queue.running q) <= limit
  /\ (forall i, In i (Part001Queue.pending q) -> In i (Part001Queue.running q))
  /\ (0 < limit -> Part001Queue.resolved items q = None ->
      exists q', Part001Queue.step items limit q q')
  /\ (forall q', Part001Queue.step items limit q q' ->
        Part001Queue.work items q' < Part001Queue.work items q)
  /\ (forall rs, Part001Queue.resolved items q = Some rs -> rs = items)
  /\ (limit = 0 -> items <> [] ->
      Part001Queue.taken q = 0
      /\ Part001Queue.resolved items q = None
      /\ forall q', ~ Part001Queue.step items limit q q').
Proof.
  intros Hreach.
  destruct (scan_reachable items limit q Hreach) as [HS HL].
  pose proof HS as [S1 S2 S3 S4 S5 S6].
  split; [exact S6|]. split; [intros i Hi; apply S4; tauto|].
  split; [|split; [|split]].
  - intros Hlimit Hnone.
    destruct (Part001Queue.pending q) as [|i p] eqn:Hp.
    + destruct (Part001Queue.settling q) as [|i s] eqn:Hs.
      * unfold Part001Queue.resolved in Hnone. rewrite Hp in Hnone.
        unfold ScanLoop in HL.
        destruct (Part001Queue.loop q) as [race|] eqn:Hloop; [|discriminate].
        destruct HL as (_ & Hlen & _ & _).
        destruct race as [|i race]; [cbn in Hlen; lia|].
        eexists. apply (Part001Queue.step_race items limit q _ i Hloop);
          [left; reflexivity|].
        rewrite S4, ?Hp, ?Hs. cbn [In]. tauto.
      * eexists. apply (Part001Queue.step_finally items limit q i).
        rewrite Hs. left. reflexivity.
    + eexists. apply (Part001Queue.step_then items limit q i).
      rewrite Hp. left. reflexivity.
  - intros q' Hstep. exact (scan_work items limit q q' Hreach Hstep).
  - intros rs. unfold Part001Queue.resolved. unfold ScanLoop in HL.
    destruct (Part001Queue.loop q); [discriminate|].
    destruct (Part001Queue.pending q); [|discriminate].
    intros [= <-]. rewrite HL. apply firstn_all.
  - intros -> Hne.
    pose proof (scan_start_without_slots items Hne) as Hstart.
    assert (Hq : q = Part001Queue.start items 0).
    { clear HS HL S1 S2 S3 S4 S5 S6.
      induction Hreach as [|q q' Hreach IH Hstep]; [reflexivity|].
      subst q. rewrite Hstart in Hstep.
      inversion Hstep as [q0 i Hin|q0 i Hin|q0 race i Hloop Hi Hni]; subst;
        cbn in *; try contradiction.
      injection Hloop as <-. destruct Hi. }
    subst q. rewrite Hstart. split; [reflexivity|]. split; [reflexivity|].
    intros q' Hstep.
    inversion Hstep as [q0 i Hin|q0 i Hin|q0 race i Hloop Hi Hni]; subst;
      cbn in *; try contradiction.
    injection Hloop as <-. destruct Hi.
Qed.

Lemma scan_queue_keeps_limit_and_order_witness :
  Part001Queue.reachable ["a"; "b"; "c"]%string 2
    (Part001Queue.start ["a"; "b"; "c"]%string 2)
  /\ length (Part001Queue.running
               (Part001Queue.start ["a"; "b"; "c"]%string 2)) <= 2.
Proof.
  split; [apply Part001Queue.reach_start|].
  exact (proj1 (scan_queue_keeps_limit_and_order ["a"; "b"; "c"]%string 2 _
                  (Part001Queue.reach_start _ _))).
Defined.

Section ReportPool.
Import Part000Queue.
Context {A : Type}.
Variables (tasks : list A) (limit : nat).

Abbreviation ReportQ := (@Report A tasks limit).
Abbreviation ReportLoopQ := (@ReportLoop A tasks limit).

Lemma report_at_loop l (q : @Pool A) : ReportQ q -> ReportQ (at_loop l q).
Proof. intros [R1 R2 R3 R4 R5 R6 R7 R8]. constructor; assumption. Qed.

Lemma report_launch (q : @Pool A) :
  ReportQ q -> taken q < length tasks ->
  length (executing q) < Nat.max limit 1 ->
  ReportQ (launch q).
Proof.
  intros [R1 R2 R3 R4 R5 R6 R7 R8] Ht Hl.
  assert (Hfresh : ~ In (taken q) (executing q))
    by (intros H; specialize (R3 _ H); lia).
  constructor; cbn [launch taken executing pending settling q_results].
  - lia.
  - apply nodup_snoc; assumption.
  - intros i [Hi|[<-|[]]]%in_app_or; [specialize (R3 i Hi)|]; lia.
  - intros i. rewrite !in_app_iff, R4. cbn [In]. tauto.
  - apply flight_launch; [exact R5| |];
      intros H; apply Hfresh, R4; tauto.
  - rewrite length_app. cbn [length]. lia.
  - intros i Hi Hn. apply R7.
    + destruct (Nat.eq_dec i (taken q)) as [->|Hne]; [|lia].
      exfalso. apply Hn, in_or_app. right. left. reflexivity.
    + intros Hp. apply Hn, in_or_app. left. exact Hp.
  - lia.
Qed.

Lemma report_iterate fuel : forall q : @Pool A,
  ReportQ q ->
  (taken q < length tasks -> length (executing q) < Nat.max limit 1) ->
  length tasks - taken q < fuel ->
  ReportQ (iterate tasks limit fuel q)
  /\ ReportLoopQ (iterate tasks limit fuel q)
  /\ work tasks (iterate tasks limit fuel q)
     <= 3 * (length tasks - taken q)
        + 2 * length (pending q) + length (settling q) + 1.
Proof.
  induction fuel as [|fuel IH]; intros q HR Hroom Hfuel; [lia|].
  cbn [iterate]. cbv zeta.
  destruct (Nat.ltb_spec (taken q) (length tasks)) as [Ht|Ht].
  - pose proof (report_launch q HR Ht (Hroom Ht)) as HR'.
    destruct (Nat.leb_spec limit (length (executing (launch q)))) as [Hl|Hl].
    + split; [apply report_at_loop, HR'|]. split.
      * unfold ReportLoop. cbn [at_loop loop executing].
        destruct HR' as [R1 R2 R3 R4 R5 R6 R7 R8].
        split; [cbn [launch executing]; destruct (executing q); discriminate|].
        split; [exact R6|]. split; [exact R2 | tauto].
      * unfold work. cbn [at_loop launch taken pending settling loop].
        rewrite length_app. cbn [length]. lia.
    + destruct (IH (launch q) HR') as (I1 & I2 & I3).
      { intros _. lia. }
      { cbn [launch taken]. lia. }
      split; [exact I1|]. split; [exact I2|].
      cbn [launch taken pending settling] in I3.
      rewrite length_app in I3. cbn [length] in I3. lia.
  - split; [apply report_at_loop, HR|]. split.
    + unfold ReportLoop. cbn [at_loop loop taken pending].
      destruct HR as [R1 R2 R3 R4 R5 R6 R7 R8].
      split; [lia|]. intros i Hi. apply R4. tauto.
    + unfold work. cbn [at_loop taken pending settling loop]. lia.
Qed.

Lemma report_race (q : @Pool A) race i :
  ReportQ q -> ReportLoopQ q -> loop q = Racing race ->
  In i race -> ~ In i (executing q) ->
  length (executing q) < Nat.max limit 1.
Proof.
  intros [R1 R2 R3 R4 R5 R6 R7 R8] HL Hloop Hi Hni.
  unfold ReportLoop in HL. rewrite Hloop in HL.
  destruct HL as (_ & Hlen & Hnd & Hsub).
  pose proof (smaller_than_race _ _ i R2 Hsub Hi Hni). lia.
Qed.

Lemma report_gathered (q : @Pool A) all :
  ReportQ q -> ReportLoopQ q -> loop q = Gathering all ->
  (forall i, In i all -> ~ In i (pending q)) ->
  q_results q = map Some tasks /\ taken q = length tasks /\ pending q = [].
Proof.
  intros [R1 R2 R3 R4 R5 R6 R7 R8] HL Hloop Hall.
  unfold ReportLoop in HL. rewrite Hloop in HL. destruct HL as [Ht Hsub].
  assert (Hp : pending q = []).
  { destruct (pending q) as [|i p] eqn:Hp; [reflexivity|]. exfalso.
    apply (Hall i); [apply Hsub|]; left; reflexivity. }
  split; [|split; assumption].
  apply list_eq. intros i. rewrite lookup_map.
  destruct (Nat.lt_ge_cases i (length tasks)) as [Hlt|Hge].
  - destruct (R7 i ltac:(lia)) as (v & Hv1 & Hv2); [rewrite Hp; tauto|].
    rewrite Hv1, Hv2. reflexivity.
  - rewrite (lookup_ge_None_2 tasks i Hge).
    apply lookup_ge_None_2. lia.
Qed.

Lemma report_reachable (q : @Pool A) :
  reachable tasks limit q -> ReportQ q /\ ReportLoopQ q.
Proof.
  induction 1 as [|q q' Hreach [HR HL] Hstep].
  - unfold start.
    match goal with
    | |- ReportQ (iterate _ _ _ ?q0) /\ _ =>
      destruct (report_iterate (S (length tasks)) q0) as (H1 & H2 & _);
        [|cbn [executing length]; lia|cbn [taken]; lia|tauto]
    end.
    constructor; cbn [taken executing pending settling q_results app length].
    + lia.
    + constructor.
    + intros i [].
    + intros i. cbn [In]. tauto.
    + constructor.
    + lia.
    + intros i Hi. lia.
    + lia.
  - destruct Hstep as [q i res Hin Hres|q i Hin|q race i Hloop Hi Hni
                      |q all Hloop Hall].
    + pose proof HR as [R1 R2 R3 R4 R5 R6 R7 R8]. split.
      * constructor;
          cbn [on_then taken executing pending settling q_results];
          try assumption.
        -- intros j. rewrite R4, in_app_iff, in_remove. cbn [In].
           destruct (Nat.eq_dec j i) as [->|Hne]; [tauto|]. intuition congruence.
        -- apply flight_then; assumption.
        -- intros j Hj Hn. destruct (Nat.eq_dec i j) as [->|Hne].
           ++ exists res. split; [exact Hres | apply store_lookup_eq].
           ++ destruct (R7 j Hj) as (v & Hv1 & Hv2).
              ** intros Hp. apply Hn, in_remove. split; [exact Hp | lia].
              ** exists v. split; [exact Hv1|].
                 apply store_lookup_ne; assumption.
        -- rewrite store_length.
           assert (i < taken q) by (apply R3, R4; tauto). lia.
      * unfold ReportLoop in *. cbn [on_then loop taken executing pending].
        destruct (loop q) as [race|all|rs].
        -- exact HL.
        -- destruct HL as [H1 H2]. split; [exact H1|].
           intros j Hj. apply in_remove in Hj as [Hj _]. apply H2, Hj.
        -- destruct HL as (_ & _ & Hp). rewrite Hp in Hin. destruct Hin.
    + pose proof HR as [R1 R2 R3 R4 R5 R6 R7 R8]. split.
      * constructor;
          cbn [on_finally taken executing pending settling q_results];
          try assumption.
        -- apply nodup_remove, R2.
        -- intros j Hj. apply in_remove in Hj as [Hj _]. apply R3, Hj.
        -- intros j. rewrite !in_remove, R4.
           pose proof (flight_apart _ _ i R5 Hin) as Hp.
           destruct (Nat.eq_dec j i) as [->|Hne]; tauto.
        -- apply flight_finally, R5.
        -- pose proof (length_remove_le i (executing q)). lia.
      * unfold ReportLoop in *. cbn [on_finally loop taken executing pending].
        destruct (loop q) as [race|all|rs]; [|exact HL|exact HL].
        destruct HL as (H1 & H2 & H3 & H4).
        split; [exact H1|]. split; [exact H2|]. split; [exact H3|].
        intros j Hj. apply in_remove in Hj as [Hj _]. apply H4, Hj.
    + pose proof (report_race q race i HR HL Hloop Hi Hni) as Hroom.
      unfold resume.
      destruct (report_iterate (S (length tasks)) q HR) as (H1 & H2 & _);
        [intros _; exact Hroom | lia | tauto].
    + destruct (report_gathered q all HR HL Hloop Hall) as (Hrs & Ht & Hp).
      split; [apply report_at_loop, HR|].
      unfold ReportLoop. cbn [at_loop loop taken pending]. tauto.
Qed.

Lemma report_work (q q' : @Pool A) :
  reachable tasks limit q -> step tasks limit q q' ->
  work tasks q' < work tasks q.
Proof.
  intros Hreach Hstep.
  destruct (report_reachable q Hreach) as [HR HL].
  destruct Hstep as [q i res Hin Hres|q i Hin|q race i Hloop Hi Hni
                    |q all Hloop Hall].
  - destruct HR as [R1 R2 R3 R4 R5 R6 R7 R8].
    apply NoDup_app in R5 as (N1 & _ & _).
    pose proof (length_remove i _ N1 Hin).
    unfold work. cbn [on_then taken pending settling loop].
    rewrite length_app. cbn [length]. lia.
  - destruct HR as [R1 R2 R3 R4 R5 R6 R7 R8].
    apply NoDup_app in R5 as (_ & _ & N3).
    pose proof (length_remove i _ N3 Hin).
    unfold work. cbn [on_finally taken pending settling loop]. lia.
  - pose proof (report_race q race i HR HL Hloop Hi Hni) as Hroom.
    unfold resume.
    destruct (report_iterate (S (length tasks)) q HR) as (_ & _ & Hw);
      [intros _; exact Hroom | lia|].
    unfold work at 2. rewrite Hloop. lia.
  - unfold work. cbn [at_loop taken pending settling loop].
    rewrite Hloop. lia.
Qed.

End ReportPool.

(** X21: the scheduler of the report variant. It starts a task before it
    looks at the limit, so the set [executing] holds at most [limit]
    promises, or one when the limit is 0, and every promise that is not yet
    fulfilled is in it. Whatever the limit, the run cannot get stuck before
    the function returns, every callback and every turn of the loop leaves
    less to do, and what it returns is the array with the value of each
    task at the position of the task. *)
Theorem report_queue_keeps_limit_and_order
    {A : Type} (tasks : list A) (limit : nat) (q : Part000Queue.Pool) :
  Part000Queue.reachable tasks limit q ->
  length (Part000Queue.executing q) <= Nat.max limit 1
  /\ (forall i, In i (Part000Queue.pending q) ->
                In i (Part000Queue.executing q))
  /\ ((forall rs, Part000Queue.loop q <> Part000Queue.Returned rs) ->
      exists q', Part000Queue.step tasks limit q q')
  /\ (forall q', Part000Queue.step tasks limit q q' ->
        Part000Queue.work tasks q' < Part000Queue.work tasks q)
  /\ (forall rs, Part000Queue.loop q = Part000Queue.Returned rs ->
        rs = map Some tasks /\ Part000Queue.pending q = []).
Proof.
  intros Hreach.
  destruct (report_reachable tasks limit q Hreach) as [HR HL].
  pose proof HR as [R1 R2 R3 R4 R5 R6 R7 R8].
  split; [exact R6|]. split; [intros i Hi; apply R4; tauto|].
  split; [|split].
  - intros Hrun.
    destruct (Part000Queue.pending q) as [|i p] eqn:Hp.
    + destruct (Part000Queue.settling q) as [|i s] eqn:Hs.
      * unfold ReportLoop in HL.
        destruct (Part000Queue.loop q) as [race|all|rs] eqn:Hloop.
        -- destruct HL as (Hne & _ & _ & _).
           destruct race as [|i race]; [congruence|].
           eexists. apply (Part000Queue.step_race tasks limit q _ i Hloop);
             [left; reflexivity|].
           rewrite R4, ?Hp, ?Hs. cbn [In]. tauto.
        -- eexists. apply (Part000Queue.step_all tasks limit q all Hloop).
           intros i _. rewrite ?Hp. intros [].
        -- exfalso. exact (Hrun rs eq_refl).
      * eexists. apply (Part000Queue.step_finally tasks limit q i).
        rewrite Hs. left. reflexivity.
    + assert (Hi : i < Part000Queue.taken q).
      { apply R3, R4. left. rewrite ?Hp. left. reflexivity. }
      destruct (lookup_lt_is_Some_2 tasks i ltac:(lia)) as [res Hres].
      eexists. apply (Part000Queue.step_then tasks limit q i res); [|exact Hres].
      rewrite Hp. left. reflexivity.
  - intros q' Hstep. exact (report_work tasks limit q q' Hreach Hstep).
  - intros rs Hrs. unfold ReportLoop in HL. rewrite Hrs in HL. tauto.
Qed.

Lemma report_queue_keeps_limit_and_order_witness :
  Part000Queue.reachable ["a"; "b"; "c"]%string 0
    (Part000Queue.start ["a"; "b"; "c"]%string 0)
  /\ length (Part000Queue.executing
               (Part000Queue.start ["a"; "b"; "c"]%string 0)) <= 1.
Proof.
  split; [apply Part000Queue.reach_start|].
  exact (proj1 (report_queue_keeps_limit_and_order ["a"; "b"; "c"]%string 0 _
                  (Part000Queue.reach_start _ _))).
Defined.
